(** * A streaming ZIP reader

    Shallow embedding of the streaming ZIP decoder (sequential decoding of a
    forward-only stream, and selective decoding of a randomly addressable
    source through its central directory), with the properties proved about
    it.  Every definition carries the name of the function it embeds. *)

From Stdlib Require Import ZArith Lia String.
From stdpp Require Import base list numbers.

Local Close Scope string_scope.
Local Open Scope Z_scope.

(** ** JavaScript values *)

Inductive JSError : Type :=
| RangeError                 (* DataView / typed array access out of bounds *)
| TypeError                  (* property of undefined, platform stream failure *)
| Error (message : string).  (* [new Error(message)] *)

Inductive result (A : Type) : Type :=
| Ok (a : A)
| Throw (e : JSError).
Arguments Ok {A} a.
Arguments Throw {A} e.

(** A [Uint8Array] is the list of its bytes; a JavaScript string is the list
    of its UTF-16 code units. *)
Definition Uint8Array : Type := list Z.
Definition JSString : Type := list Z.

Definition zeros (n : nat) : Uint8Array := replicate n 0.

(** [new DataView(buffer)] with little-endian reads.  A read that does not
    fit in the view throws a RangeError. *)
Module DataView.
Definition getUint16 (view : Uint8Array) (byteOffset : nat) : result Z :=
  match drop byteOffset view with
  | b0 :: b1 :: _ => Ok (b0 + b1 * 2 ^ 8)
  | _ => Throw RangeError
  end.

Definition getUint32 (view : Uint8Array) (byteOffset : nat) : result Z :=
  match drop byteOffset view with
  | b0 :: b1 :: b2 :: b3 :: _ =>
      Ok (b0 + b1 * 2 ^ 8 + b2 * 2 ^ 16 + b3 * 2 ^ 24)
  | _ => Throw RangeError
  end.
End DataView.

(** ** Streams

    A readable byte stream is the list of chunks it has yet to deliver; once
    the list is empty the stream is closed.  How the bytes are cut into
    chunks is up to the producer (network, blob, file). *)
Definition ReadableByteStream : Type := list Uint8Array.

(** The number of bytes a stream has yet to deliver. *)
Definition byteLength (stream : ReadableByteStream) : nat :=
  length (concat stream).

(** A readable stream of objects, run to its end: the chunks it enqueued and
    how it ended.  [Unfinished] stands for a stream that is neither closed nor
    errored when the budget of the loop that feeds it runs out. *)
Inductive ReadableStream (A : Type) : Type :=
| Closed (chunks : list A)
| Errored (chunks : list A) (e : JSError)
| Unfinished (chunks : list A).
Arguments Closed {A} chunks.
Arguments Errored {A} chunks e.
Arguments Unfinished {A} chunks.

Definition chunksOf {A} (r : ReadableStream A) : list A :=
  match r with
  | Closed chunks | Errored chunks _ | Unfinished chunks => chunks
  end.

(** A stream has [finished] when it is closed or errored. *)
Definition finished {A} (r : ReadableStream A) : Prop :=
  match r with
  | Unfinished _ => False
  | _ => True
  end.

(** [controller.enqueue(chunk)] ahead of what the later pulls produce. *)
Definition enqueue {A} (chunk : A) (r : ReadableStream A) : ReadableStream A :=
  match r with
  | Closed chunks => Closed (chunk :: chunks)
  | Errored chunks e => Errored (chunk :: chunks) e
  | Unfinished chunks => Unfinished (chunk :: chunks)
  end.

(** A [TransformStream]: private state, a [transform] callback run on every
    chunk (it may enqueue output and may throw) and a [flush] callback run when
    the input closes. *)
Record TransformStream (I O : Type) : Type := {
  state : Type;
  start : state;
  transform : state -> I -> result (state * list O);
  flush : state -> list O;
}.
Arguments state {I O} _.
Arguments start {I O} _.
Arguments transform {I O} _ _ _.
Arguments flush {I O} _ _.

(** Feeds [chunks] to the transformer: what it enqueued, and the state it
    ends in or the error it threw. *)
Fixpoint feed {I O} (t : TransformStream I O) (st : state t)
    (chunks : list I) : list O * result (state t) :=
  match chunks with
  | [] => ([], Ok st)
  | chunk :: rest =>
      match transform t st chunk with
      | Throw e => ([], Throw e)
      | Ok (st', out) =>
          let '(outs, r) := feed t st' rest in (out ++ outs, r)
      end
  end.

(** [readable.pipeThrough(t)].  An error of the readable, or one thrown by
    the transformer, errors the result; [flush] runs only when the readable
    closes. *)
Definition pipeThrough {I O} (readable : ReadableStream I)
    (t : TransformStream I O) : ReadableStream O :=
  let '(outs, r) := feed t (start t) (chunksOf readable) in
  match r, readable with
  | Throw e, _ => Errored outs e
  | Ok st, Closed _ => Closed (outs ++ flush t st)
  | Ok _, Errored _ e => Errored outs e
  | Ok _, Unfinished _ => Unfinished outs
  end.

(** [.getReader().read().then(({ value }) => value)]: the first chunk;
    undefined when the stream closes without one; a rejection when it errors
    without one. *)
Definition readValue {O} (readable : ReadableStream O) : result (option O) :=
  match readable with
  | Errored [] e => Throw e
  | _ => Ok (head (chunksOf readable))
  end.

(** [typedArray.set(chunk, offset)] *)
Definition setAt (buffer : Uint8Array) (chunk : Uint8Array) (offset : nat)
  : result Uint8Array :=
  if decide (offset + length chunk <= length buffer)%nat
  then Ok (take offset buffer ++ chunk ++ drop (offset + length chunk) buffer)
  else Throw RangeError.

(** [concatNBytes(totalBytes)]: a zero-initialised buffer of [totalBytes]
    bytes filled from the left by the incoming chunks and enqueued whole on
    flush. *)
Definition concatNBytes (totalBytes : nat) : TransformStream Uint8Array Uint8Array := {|
  state := Uint8Array * nat;
  start := (zeros totalBytes, 0%nat);
  transform '(buffer, offset) chunk :=
    match setAt buffer chunk offset with
    | Throw e => Throw e
    | Ok buffer' => Ok ((buffer', (offset + length chunk)%nat), [])
    end;
  flush '(buffer, _) := [buffer];
|}.

(** [concatBytesStream()]: collects the chunks and enqueues their
    concatenation on flush. *)
Definition concatBytesStream : TransformStream Uint8Array Uint8Array := {|
  state := list Uint8Array;
  start := [];
  transform chunks chunk := Ok (chunks ++ [chunk], []);
  flush chunks := [concat chunks];
|}.

(** [concatString()] *)
Definition concatString : TransformStream JSString JSString := {|
  state := list JSString;
  start := [];
  transform chunks chunk := Ok (chunks ++ [chunk], []);
  flush chunks := [concat chunks];
|}.

(** [filterStream(filter)] *)
Definition filterStream {T} (filter : T -> bool) : TransformStream T T := {|
  state := unit;
  start := tt;
  transform _ chunk := Ok (tt, if filter chunk then [chunk] else []);
  flush _ := [];
|}.

(** [concatUint8Array(...arrays)] *)
Definition concatUint8Array (arrays : list Uint8Array) : Uint8Array :=
  concat arrays.

(** The pull loop of [limitBytes]: [remaining] is [bytes - offset].  A BYOB
    read into a view of [remaining] bytes takes at most that many bytes off
    the chunk at the head of the stream; bytes of that chunk beyond the view
    stay in the stream.  Returns the chunks enqueued on the limited stream
    and the underlying stream after the reader lock is released. *)
Fixpoint limitBytes_pull (remaining : nat) (stream : ReadableByteStream)
  : list Uint8Array * ReadableByteStream :=
  match stream with
  | [] => ([], [])                                     (* done: close *)
  | chunk :: rest =>
      if decide (remaining <= length chunk)%nat
      then (* offset >= bytes after this read: close *)
        ([take remaining chunk],
         if decide (length chunk <= remaining)%nat then rest
         else drop remaining chunk :: rest)
      else
        let '(values, stream') :=
          limitBytes_pull (remaining - length chunk) rest in
        (chunk :: values, stream')
  end.

(** [limitBytes(stream, bytes)]: for [bytes = 0] a stream that is closed from
    the start, and the underlying stream is not touched. *)
Definition limitBytes (stream : ReadableByteStream) (bytes : nat)
  : list Uint8Array * ReadableByteStream :=
  if decide (bytes = 0)%nat then ([], stream) else limitBytes_pull bytes stream.

(** ** The reader monad

    The decoding functions all advance one shared stream and may throw. *)
Definition Reader (A : Type) : Type :=
  ReadableByteStream -> result (A * ReadableByteStream).

Definition ret {A} (a : A) : Reader A := fun s => Ok (a, s).

Definition bind {A B} (m : Reader A) (k : A -> Reader B) : Reader B :=
  fun s =>
    match m s with
    | Throw e => Throw e
    | Ok (a, s') => k a s'
    end.

Definition lift {A} (r : result A) : Reader A :=
  fun s => match r with Ok a => Ok (a, s) | Throw e => Throw e end.

Notation "x <- m ;; k" := (bind m (fun x => k))
  (at level 100, m at next level, right associativity).

(** [value!.buffer] and the like: dereferencing undefined is a TypeError. *)
Definition nonNull {A} (v : option A) : Reader A :=
  lift (match v with Some a => Ok a | None => Throw TypeError end).

(** A reader only ever takes bytes off the stream: it [advances] when the
    stream it leaves holds no more bytes than the stream it was given. *)
Definition advances {A} (m : Reader A) : Prop :=
  forall stream a stream',
    m stream = Ok (a, stream') -> (byteLength stream' <= byteLength stream)%nat.

(** What a reader does should not depend on how the producer cut the bytes
    into chunks: on two streams that deliver the same bytes it gives the same
    value and leaves the same bytes, or throws the same error. *)
Definition chunkingBlind {A} (m : Reader A) : Prop :=
  forall stream1 stream2,
    concat stream1 = concat stream2 ->
    match m stream1, m stream2 with
    | Ok (a1, rest1), Ok (a2, rest2) => a1 = a2 /\ concat rest1 = concat rest2
    | Throw e1, Throw e2 => e1 = e2
    | _, _ => False
    end.

(** [decodes m input a rest]: on every stream that delivers the bytes
    [input], the reader gives [a] and leaves a stream that delivers [rest]. *)
Definition decodes {A} (m : Reader A) (input : Uint8Array) (a : A)
    (rest : Uint8Array) : Prop :=
  forall stream,
    concat stream = input ->
    exists stream', m stream = Ok (a, stream') /\ concat stream' = rest.

(** [returns Q E m]: on every stream the reader [m] either gives a value that
    satisfies [Q] or throws an error that satisfies [E]. *)
Definition returns {A} (Q : A -> Prop) (E : JSError -> Prop) (m : Reader A)
  : Prop :=
  forall stream,
    match m stream with
    | Ok (a, _) => Q a
    | Throw e => E e
    end.

(** [readBytes(stream, bytes?)] *)
Definition readBytes (bytes : option nat) : Reader (option Uint8Array) :=
  fun stream =>
    match bytes with
    | None =>
        match readValue (pipeThrough (Closed stream) concatBytesStream) with
        | Throw e => Throw e
        | Ok value => Ok (value, [])
        end
    | Some n =>
        let '(limited, stream') := limitBytes stream n in
        match readValue (pipeThrough (Closed limited) (concatNBytes n)) with
        | Throw e => Throw e
        | Ok value => Ok (value, stream')
        end
    end.

(** ** Text decoding

    [TextDecoder] for UTF-8 in replacement mode: malformed input becomes
    U+FFFD, a leading byte order mark is dropped, and the code points are
    delivered as UTF-16 code units. *)
Module TextDecoder.
Record decoder : Type := {
  codePoint : Z;
  bytesSeen : nat;
  bytesNeeded : nat;
  lower : Z;
  upper : Z;
}.

Definition idle : decoder :=
  {| codePoint := 0; bytesSeen := 0; bytesNeeded := 0;
     lower := 0x80; upper := 0xBF |}.

Inductive step : Type :=
| Emit (cp : Z)
| Continue (d : decoder)
| Malformed.

(** A byte met when no sequence is open. *)
Definition lead (b : Z) : step :=
  if b <=? 0x7F then Emit b
  else if (0xC2 <=? b) && (b <=? 0xDF) then
    Continue {| codePoint := Z.land b 0x1F; bytesSeen := 0; bytesNeeded := 1;
                lower := 0x80; upper := 0xBF |}
  else if (0xE0 <=? b) && (b <=? 0xEF) then
    Continue {| codePoint := Z.land b 0xF; bytesSeen := 0; bytesNeeded := 2;
                lower := if b =? 0xE0 then 0xA0 else 0x80;
                upper := if b =? 0xED then 0x9F else 0xBF |}
  else if (0xF0 <=? b) && (b <=? 0xF4) then
    Continue {| codePoint := Z.land b 0x7; bytesSeen := 0; bytesNeeded := 3;
                lower := if b =? 0xF0 then 0x90 else 0x80;
                upper := if b =? 0xF4 then 0x8F else 0xBF |}
  else Malformed.

Fixpoint codePoints (d : decoder) (bytes : list Z) : list Z :=
  match bytes with
  | [] => if decide (bytesNeeded d = 0%nat) then [] else [0xFFFD]
  | b :: rest =>
      let fresh (prefix : list Z) :=
        match lead b with
        | Emit cp => prefix ++ cp :: codePoints idle rest
        | Continue d' => prefix ++ codePoints d' rest
        | Malformed => prefix ++ 0xFFFD :: codePoints idle rest
        end in
      if decide (bytesNeeded d = 0%nat) then fresh []
      else if (lower d <=? b) && (b <=? upper d) then
        let cp := Z.lor (Z.shiftl (codePoint d) 6) (Z.land b 0x3F) in
        if decide (S (bytesSeen d) = bytesNeeded d) then cp :: codePoints idle rest
        else codePoints {| codePoint := cp; bytesSeen := S (bytesSeen d);
                           bytesNeeded := bytesNeeded d;
                           lower := 0x80; upper := 0xBF |} rest
      else (* the byte is put back and read again as a lead byte *)
        fresh [0xFFFD]
  end.

Definition codeUnits (cp : Z) : list Z :=
  if cp <? 0x10000 then [cp]
  else [0xD800 + Z.shiftr (cp - 0x10000) 10; 0xDC00 + Z.land (cp - 0x10000) 0x3FF].

Definition decode (bytes : Uint8Array) : JSString :=
  let cps := codePoints idle bytes in
  let cps := match cps with 0xFEFF :: rest => rest | _ => cps end in
  flat_map codeUnits cps.
End TextDecoder.

(** [new TextDecoderStream()] applied to a closed stream of chunks: the
    decoder keeps its state across chunks, so the text is that of the
    concatenation. *)
Definition TextDecoderStream (chunks : list Uint8Array) : ReadableStream JSString :=
  Closed [TextDecoder.decode (concat chunks)].

(** [s.endsWith(suffix)] *)
Definition endsWith (s suffix : JSString) : bool :=
  bool_decide (length suffix <= length s)%nat
  && bool_decide (drop (length s - length suffix) s = suffix).

(** The code units of an ASCII literal. *)
Fixpoint ascii (s : string) : list Z :=
  match s with
  | EmptyString => []
  | String c s' => Z.of_nat (Ascii.nat_of_ascii c) :: ascii s'
  end.

(** ** ZIP records *)

Definition CENTRAL_DIRECTORY_END_SCAN_CHUNK_SIZE : Z := 50 * 1024.
Definition FILE_HEADER_SIZE : Z := 32.
Definition SIGNATURE_FILE : Z := 0x04034b50.
Definition SIGNATURE_CENTRAL_DIRECTORY_START : Z := 0x02014b50.
Definition SIGNATURE_CENTRAL_DIRECTORY_END : Z := 0x06054b50.

Module FileEntry.
Record t : Type := {
  signature : Z;
  version : Z;
  generalPurpose : Z;
  compressionMethod : Z;
  lastModifiedTime : Z;
  lastModifiedDate : Z;
  crc : Z;
  compressedSize : Z;
  uncompressedSize : Z;
  fileNameLength : Z;
  fileName : JSString;
  isDirectory : bool;
  extraLength : Z;
  extra : Uint8Array;
  bytes : Uint8Array;          (* what [bytes()] resolves to *)
}.
(** [text()] *)
Definition text (entry : t) : JSString := TextDecoder.decode (bytes entry).
End FileEntry.

Module CentralDirectoryEntry.
Record t : Type := {
  signature : Z;
  versionCreated : Z;
  versionNeeded : Z;
  generalPurpose : Z;
  compressionMethod : Z;
  lastModifiedTime : Z;
  lastModifiedDate : Z;
  crc : Z;
  compressedSize : Z;
  uncompressedSize : Z;
  fileNameLength : Z;
  extraLength : Z;
  fileCommentLength : Z;
  diskNumber : Z;
  internalAttributes : Z;
  externalAttributes : Z;
  firstByteAt : Z;
  lastByteAt : Z;
  fileName : JSString;
  extra : Uint8Array;
  fileComment : JSString;
  isDirectory : bool;
}.
End CentralDirectoryEntry.

Module CentralDirectoryEndEntry.
Record t : Type := {
  signature : Z;
  numberOfDisks : Z;
  centralDirectoryStartDisk : Z;
  numberCentralDirectoryRecordsOnThisDisk : Z;
  numberCentralDirectoryRecords : Z;
  centralDirectorySize : Z;
  centralDirectoryOffset : Z;
  commentLength : Z;
  comment : JSString;
}.
End CentralDirectoryEndEntry.

Inductive ZipEntry : Type :=
| File (entry : FileEntry.t)
| CentralDirectory (entry : CentralDirectoryEntry.t)
| CentralDirectoryEnd (entry : CentralDirectoryEndEntry.t).

Definition signatureOf (entry : ZipEntry) : Z :=
  match entry with
  | File e => FileEntry.signature e
  | CentralDirectory e => CentralDirectoryEntry.signature e
  | CentralDirectoryEnd e => CentralDirectoryEndEntry.signature e
  end.

(** The two properties the selection predicate destructures; file entries
    and central directory entries both carry them. *)
Class DirectoryInfo (A : Type) : Type := {
  isDirectory : A -> bool;
  uncompressedSize : A -> Z;
}.

#[export] Instance FileEntry_info : DirectoryInfo FileEntry.t :=
  {| isDirectory := FileEntry.isDirectory;
     uncompressedSize := FileEntry.uncompressedSize |}.

#[export] Instance CentralDirectoryEntry_info : DirectoryInfo CentralDirectoryEntry.t :=
  {| isDirectory := CentralDirectoryEntry.isDirectory;
     uncompressedSize := CentralDirectoryEntry.uncompressedSize |}.

(** [predicate]: [!isDirectory || uncompressedSize !== 0] *)
Definition predicate {A} `{DirectoryInfo A} (entry : A) : bool :=
  negb (isDirectory entry) || negb (uncompressedSize entry =? 0).

(** ** Record decoders *)

(** [new DataView((await readBytes(stream, n))!.buffer)] *)
Definition readView (n : nat) : Reader Uint8Array :=
  value <- readBytes (Some n) ;; nonNull value.

Definition getUint16 (data : Uint8Array) (byteOffset : nat) : Reader Z :=
  lift (DataView.getUint16 data byteOffset).

Definition getUint32 (data : Uint8Array) (byteOffset : nat) : Reader Z :=
  lift (DataView.getUint32 data byteOffset).

(** The 4-byte little-endian magic number that opens every record. *)
Definition readSignature : Reader Z :=
  sigData <- readView 4 ;; getUint32 sigData 0.

(** [readString(stream, bytes)] *)
Definition readString (bytes : nat) : Reader (option JSString) :=
  fun stream =>
    let '(limited, stream') := limitBytes stream bytes in
    match readValue (pipeThrough (TextDecoderStream limited) concatString) with
    | Throw e => Throw e
    | Ok value => Ok (value, stream')
    end.

Section Decoders.
(** [new DecompressionStream('deflate-raw')] run over a whole body: the
    inflated bytes, or nothing when the data is not a complete raw-deflate
    stream (the platform stream then errors). *)
Variable inflateRaw : Uint8Array -> option Uint8Array.

Definition DecompressionStream (chunks : list Uint8Array)
  : ReadableStream Uint8Array :=
  match inflateRaw (concat chunks) with
  | Some inflated => Closed [inflated]
  | None => Errored [] TypeError
  end.

(** The body of a file entry: the next [compressedSize] bytes of the
    stream, inflated when the compression method is 8, read to the end. *)
Definition readBody (compressedSize : Z) (compressionMethod : Z)
  : Reader Uint8Array :=
  fun stream =>
    let '(limited, stream') := limitBytes stream (Z.to_nat compressedSize) in
    let bodyStream :=
      if compressionMethod =? 8 then DecompressionStream limited
      else Closed limited in
    match readValue (pipeThrough bodyStream concatBytesStream) with
    | Throw e => Throw e
    | Ok value => nonNull value stream'
    end.

(** [readFileEntry(stream, skipSignature)] *)
Definition readFileEntry (skipSignature : bool) : Reader (option FileEntry.t) :=
  signature <- (if skipSignature then ret SIGNATURE_FILE else readSignature) ;;
  if negb (signature =? SIGNATURE_FILE) then ret None else
  data <- readView 26 ;;
  version <- getUint32 data 0 ;;
  generalPurpose <- getUint16 data 2 ;;
  compressionMethod <- getUint16 data 4 ;;
  lastModifiedTime <- getUint16 data 6 ;;
  lastModifiedDate <- getUint16 data 8 ;;
  crc <- getUint32 data 10 ;;
  compressedSize <- getUint32 data 14 ;;
  uncompressedSize <- getUint32 data 18 ;;
  fileNameLength <- getUint16 data 22 ;;
  extraLength <- getUint16 data 24 ;;
  fileName <- (name <- readString (Z.to_nat fileNameLength) ;; nonNull name) ;;
  extra <- (value <- readBytes (Some (Z.to_nat extraLength)) ;; nonNull value) ;;
  body <- readBody compressedSize compressionMethod ;;
  ret (Some {|
    FileEntry.signature := SIGNATURE_FILE;
    FileEntry.version := version;
    FileEntry.generalPurpose := generalPurpose;
    FileEntry.compressionMethod := compressionMethod;
    FileEntry.lastModifiedTime := lastModifiedTime;
    FileEntry.lastModifiedDate := lastModifiedDate;
    FileEntry.crc := crc;
    FileEntry.compressedSize := compressedSize;
    FileEntry.uncompressedSize := uncompressedSize;
    FileEntry.fileNameLength := fileNameLength;
    FileEntry.fileName := fileName;
    FileEntry.isDirectory := endsWith fileName (ascii "/");
    FileEntry.extraLength := extraLength;
    FileEntry.extra := extra;
    FileEntry.bytes := body;
  |}).

(** [readCentralDirectory(stream, skipSignature)] *)
Definition readCentralDirectory (skipSignature : bool)
  : Reader (option CentralDirectoryEntry.t) :=
  signature <- (if skipSignature then ret SIGNATURE_CENTRAL_DIRECTORY_START
                else readSignature) ;;
  if negb (signature =? SIGNATURE_CENTRAL_DIRECTORY_START) then ret None else
  data <- readView 42 ;;
  versionCreated <- getUint16 data 0 ;;
  versionNeeded <- getUint16 data 2 ;;
  generalPurpose <- getUint16 data 4 ;;
  compressionMethod <- getUint16 data 6 ;;
  lastModifiedTime <- getUint16 data 8 ;;
  lastModifiedDate <- getUint16 data 10 ;;
  crc <- getUint32 data 12 ;;
  compressedSize <- getUint32 data 16 ;;
  uncompressedSize <- getUint32 data 20 ;;
  fileNameLength <- getUint16 data 24 ;;
  extraLength <- getUint16 data 26 ;;
  fileCommentLength <- getUint16 data 28 ;;
  diskNumber <- getUint16 data 30 ;;
  internalAttributes <- getUint16 data 32 ;;
  externalAttributes <- getUint32 data 34 ;;
  firstByteAt <- getUint32 data 38 ;;
  let lastByteAt :=
    firstByteAt + FILE_HEADER_SIZE + fileNameLength + fileCommentLength
    + extraLength + compressedSize - 1 in
  fileName <- (name <- readString (Z.to_nat fileNameLength) ;; nonNull name) ;;
  extra <- (value <- readBytes (Some (Z.to_nat extraLength)) ;; nonNull value) ;;
  fileComment <- (text <- readString (Z.to_nat fileCommentLength) ;; nonNull text) ;;
  ret (Some {|
    CentralDirectoryEntry.signature := SIGNATURE_CENTRAL_DIRECTORY_START;
    CentralDirectoryEntry.versionCreated := versionCreated;
    CentralDirectoryEntry.versionNeeded := versionNeeded;
    CentralDirectoryEntry.generalPurpose := generalPurpose;
    CentralDirectoryEntry.compressionMethod := compressionMethod;
    CentralDirectoryEntry.lastModifiedTime := lastModifiedTime;
    CentralDirectoryEntry.lastModifiedDate := lastModifiedDate;
    CentralDirectoryEntry.crc := crc;
    CentralDirectoryEntry.compressedSize := compressedSize;
    CentralDirectoryEntry.uncompressedSize := uncompressedSize;
    CentralDirectoryEntry.fileNameLength := fileNameLength;
    CentralDirectoryEntry.extraLength := extraLength;
    CentralDirectoryEntry.fileCommentLength := fileCommentLength;
    CentralDirectoryEntry.diskNumber := diskNumber;
    CentralDirectoryEntry.internalAttributes := internalAttributes;
    CentralDirectoryEntry.externalAttributes := externalAttributes;
    CentralDirectoryEntry.firstByteAt := firstByteAt;
    CentralDirectoryEntry.lastByteAt := lastByteAt;
    CentralDirectoryEntry.fileName := fileName;
    CentralDirectoryEntry.extra := extra;
    CentralDirectoryEntry.fileComment := fileComment;
    CentralDirectoryEntry.isDirectory := endsWith fileName (ascii "/");
  |}).

(** [readEndCentralDirectory(stream, skipSignature)] *)
Definition readEndCentralDirectory (skipSignature : bool)
  : Reader (option CentralDirectoryEndEntry.t) :=
  signature <- (if skipSignature then ret SIGNATURE_CENTRAL_DIRECTORY_END
                else readSignature) ;;
  if negb (signature =? SIGNATURE_CENTRAL_DIRECTORY_END) then ret None else
  data <- readView 18 ;;
  numberOfDisks <- getUint16 data 0 ;;
  centralDirectoryStartDisk <- getUint16 data 2 ;;
  numberCentralDirectoryRecordsOnThisDisk <- getUint16 data 4 ;;
  numberCentralDirectoryRecords <- getUint16 data 6 ;;
  centralDirectorySize <- getUint32 data 8 ;;
  centralDirectoryOffset <- getUint32 data 12 ;;
  commentLength <- getUint16 data 16 ;;
  comment <- (text <- readString (Z.to_nat commentLength) ;; nonNull text) ;;
  ret (Some {|
    CentralDirectoryEndEntry.signature := SIGNATURE_CENTRAL_DIRECTORY_END;
    CentralDirectoryEndEntry.numberOfDisks := numberOfDisks;
    CentralDirectoryEndEntry.centralDirectoryStartDisk := centralDirectoryStartDisk;
    CentralDirectoryEndEntry.numberCentralDirectoryRecordsOnThisDisk :=
      numberCentralDirectoryRecordsOnThisDisk;
    CentralDirectoryEndEntry.numberCentralDirectoryRecords :=
      numberCentralDirectoryRecords;
    CentralDirectoryEndEntry.centralDirectorySize := centralDirectorySize;
    CentralDirectoryEndEntry.centralDirectoryOffset := centralDirectoryOffset;
    CentralDirectoryEndEntry.commentLength := commentLength;
    CentralDirectoryEndEntry.comment := comment;
  |}).

(** [readNextEntry(stream)]: the magic number selects the decoder; any other
    value gives null. *)
Definition readNextEntry : Reader (option ZipEntry) :=
  signature <- readSignature ;;
  if signature =? SIGNATURE_FILE then
    entry <- readFileEntry true ;; ret (File <$> entry)
  else if signature =? SIGNATURE_CENTRAL_DIRECTORY_START then
    entry <- readCentralDirectory true ;; ret (CentralDirectory <$> entry)
  else if signature =? SIGNATURE_CENTRAL_DIRECTORY_END then
    entry <- readEndCentralDirectory true ;; ret (CentralDirectoryEnd <$> entry)
  else ret None.

(** The pulls of a stream fed by [read]: a record is enqueued, null closes
    the stream, an exception errors it.  [budget] bounds the number of
    pulls. *)
Fixpoint pulls {A} (read : Reader (option A)) (budget : nat)
    (stream : ReadableByteStream) : ReadableStream A :=
  match budget with
  | O => Unfinished []
  | S budget' =>
      match read stream with
      | Throw e => Errored [] e
      | Ok (None, _) => Closed []
      | Ok (Some entry, stream') => enqueue entry (pulls read budget' stream')
      end
  end.

(** [pullsTo read input entries]: on every stream that delivers the bytes
    [input], the pulls of [read] deliver [entries] and close the stream,
    whatever budget above the number of bytes they are given. *)
Definition pullsTo {A} (read : Reader (option A)) (input : Uint8Array)
    (entries : list A) : Prop :=
  forall stream budget,
    concat stream = input -> (length input < budget)%nat ->
    pulls read budget stream = Closed entries.

(** [zipEntries(stream)]; no more records can be pulled than the stream has
    bytes. *)
Definition zipEntries (stream : ReadableByteStream) : ReadableStream ZipEntry :=
  pulls readNextEntry (S (byteLength stream)) stream.

(** [count] calls of [readNextEntry] in a row that each give a record: the
    records, and the stream left after the last of them. *)
Fixpoint readEntries (count : nat) (stream : ReadableByteStream)
  : option (list ZipEntry * ReadableByteStream) :=
  match count with
  | O => Some ([], stream)
  | S count' =>
      match readNextEntry stream with
      | Ok (Some entry, stream') =>
          match readEntries count' stream' with
          | Some (entries, rest) => Some (entry :: entries, rest)
          | None => None
          end
      | _ => None
      end
  end.

(** The narrowing [as IterableReadableStream<FileEntry>]. *)
Definition asFileEntry (entry : ZipEntry) : option FileEntry.t :=
  match entry with File e => Some e | _ => None end.

Definition asFileEntries (readable : ReadableStream ZipEntry)
  : ReadableStream FileEntry.t :=
  match readable with
  | Closed chunks => Closed (omap asFileEntry chunks)
  | Errored chunks e => Errored (omap asFileEntry chunks) e
  | Unfinished chunks => Unfinished (omap asFileEntry chunks)
  end.

(** [readEntireZip(stream, predicate)] *)
Definition readEntireZip (stream : ReadableByteStream)
    (predicate : FileEntry.t -> bool) : ReadableStream FileEntry.t :=
  pipeThrough
    (asFileEntries
       (pipeThrough (zipEntries stream)
          (filterStream (fun entry => signatureOf entry =? SIGNATURE_FILE))))
    (filterStream predicate).
End Decoders.

(** [count] calls of [readCentralDirectory] in a row that each give an
    entry: the entries, and the stream left after the last of them. *)
Fixpoint readDirectoryEntries (count : nat) (stream : ReadableByteStream)
  : option (list CentralDirectoryEntry.t * ReadableByteStream) :=
  match count with
  | O => Some ([], stream)
  | S count' =>
      match readCentralDirectory false stream with
      | Ok (Some entry, stream') =>
          match readDirectoryEntries count' stream' with
          | Some (entries, rest) => Some (entry :: entries, rest)
          | None => None
          end
      | _ => None
      end
  end.

(** ** Randomly addressable sources *)

Module BytesSource.
Record t : Type := {
  length : Z;
  (** [streamBytes(start, end)], both ends inclusive; a failed request
      rejects. *)
  streamBytes : Z -> Z -> result ReadableByteStream;
}.
End BytesSource.

(** The bytes [start .. end] of [data], both inclusive. *)
Definition byteRange (data : Uint8Array) (from to : Z) : Uint8Array :=
  take (Z.to_nat (to + 1 - from)) (drop (Z.to_nat from) data).

(** [createFetchSource(url)] for a URL whose server holds [resource],
    announces its length and honours range requests; the body of a response
    arrives as one chunk. *)
Definition createFetchSource (resource : Uint8Array) : BytesSource.t := {|
  BytesSource.length := Z.of_nat (length resource);
  BytesSource.streamBytes from to := Ok [byteRange resource from to];
|}.

(** [new Blob([bytes]).stream()] *)
Definition blobStream (bytes : Uint8Array) : ReadableByteStream := [bytes].

(** ** Locating the central directory *)

(** How a loop that is given a budget of iterations ends. *)
Inductive completion (A : Type) : Type :=
| Returned (a : A)
| Thrown (e : JSError)
| Running.                  (* budget used up, the loop is still going *)
Arguments Returned {A} a.
Arguments Thrown {A} e.
Arguments Running {A}.

(** The scan [for (let i = view.byteLength - 4; i >= 0; i--)] for the end
    signature: [candidates] is [i + 1]; the offset of the first match met,
    the highest one. *)
Fixpoint scanSignature (view : Uint8Array) (candidates : nat)
  : result (option nat) :=
  match candidates with
  | O => Ok None
  | S i =>
      match DataView.getUint32 view i with
      | Throw e => Throw e
      | Ok signature =>
          if signature =? SIGNATURE_CENTRAL_DIRECTORY_END then Ok (Some i)
          else scanSignature view i
      end
  end.

(** The same scan over the reversed view, which reads each byte once; it
    serves to run the scan over a whole chunk. *)
Fixpoint scanBackwards (reversed : Uint8Array) (candidates : nat)
    {struct candidates} : option nat :=
  match candidates with
  | O => None
  | S i =>
      match reversed with
      | b3 :: (b2 :: b1 :: b0 :: _) as earlier =>
          if b0 + b1 * 2 ^ 8 + b2 * 2 ^ 16 + b3 * 2 ^ 24
             =? SIGNATURE_CENTRAL_DIRECTORY_END
          then Some i
          else scanBackwards earlier i
      | _ => None
      end
  end.

(** [await readBytes(await source.streamBytes(start, end))] *)
Definition fetchBytes (source : BytesSource.t) (from to : Z)
  : result (option Uint8Array) :=
  match BytesSource.streamBytes source from to with
  | Throw e => Throw e
  | Ok stream =>
      match readBytes None stream with
      | Throw e => Throw e
      | Ok (bytes, _) => Ok bytes
      end
  end.

(** What [streamCentralDirectory] does once the scan has matched at offset
    [i] of the chunk in [view]; it always leaves the function. *)
Definition foundSignature (source : BytesSource.t) (chunkStart : Z)
    (centralDirectory view : Uint8Array) (i : nat)
  : completion ReadableByteStream :=
  let centralDirectoryLengthAt := (i + 12)%nat in
  let centralDirectoryOffsetAt := (centralDirectoryLengthAt + 4)%nat in
  if decide (length centralDirectory < centralDirectoryOffsetAt + 4)%nat
  then Thrown (Error "Central directory not found")
  else
    match DataView.getUint32 view centralDirectoryOffsetAt with
    | Throw e => Thrown e
    | Ok dirStart =>
        if dirStart <? chunkStart then
          match fetchBytes source dirStart (chunkStart - 1) with
          | Throw e => Thrown e
          | Ok None => Thrown TypeError
          | Ok (Some missingBytes) =>
              Returned (blobStream
                          (concatUint8Array [missingBytes; centralDirectory]))
          end
        else if dirStart >? chunkStart then
          Returned (blobStream
                      (drop (Z.to_nat (dirStart - chunkStart)) centralDirectory))
        else Returned (blobStream centralDirectory)
    end.

(** The [do ... while (chunkStart >= 0)] loop of [streamCentralDirectory],
    entered with the current [chunkStart] and the bytes gathered so far. *)
Fixpoint streamCentralDirectory_loop (budget : nat) (source : BytesSource.t)
    (chunkStart : Z) (centralDirectory : Uint8Array)
  : completion ReadableByteStream :=
  match budget with
  | O => Running
  | S budget' =>
      let chunkSize := CENTRAL_DIRECTORY_END_SCAN_CHUNK_SIZE in
      let chunkStart := Z.max 0 (chunkStart - chunkSize) in
      let chunkEnd :=
        Z.min (chunkStart + chunkSize - 1) (BytesSource.length source - 1) in
      match fetchBytes source chunkStart chunkEnd with
      | Throw e => Thrown e
      | Ok None => Thrown TypeError
      | Ok (Some bytes) =>
          let centralDirectory := concatUint8Array [bytes; centralDirectory] in
          let view := bytes in
          match scanSignature view (length view - 3) with
          | Throw e => Thrown e
          | Ok (Some i) =>
              foundSignature source chunkStart centralDirectory view i
          | Ok None =>
              if chunkStart >=? 0
              then streamCentralDirectory_loop budget' source chunkStart
                     centralDirectory
              else Thrown (Error "Central directory not found")
          end
      end
  end.

(** [streamCentralDirectory(source)], with a budget of loop iterations. *)
Definition streamCentralDirectory (budget : nat) (source : BytesSource.t)
  : completion ReadableByteStream :=
  streamCentralDirectory_loop budget source (BytesSource.length source) [].

(** ** Partitioning *)

(** [partitionNearbyEntries({ maxGap })]: the state is
    [(lastFileEndsAt, currentChunk)]. *)
Definition partitionNearbyEntries (maxGap : Z)
  : TransformStream CentralDirectoryEntry.t (list CentralDirectoryEntry.t) := {|
  state := Z * list CentralDirectoryEntry.t;
  start := (0, []);
  transform '(lastFileEndsAt, currentChunk) zipEntry :=
    let flushed := CentralDirectoryEntry.firstByteAt zipEntry >? lastFileEndsAt + maxGap in
    Ok ((CentralDirectoryEntry.lastByteAt zipEntry,
         (if flushed then [] else currentChunk) ++ [zipEntry]),
        if flushed then [currentChunk] else []);
  flush '(_, currentChunk) := [currentChunk];
|}.

(** The default [maxGap = -10 * 1024]. *)
Definition defaultMaxGap : Z := -10 * 1024.

(** The records that each pass the gap test of [partitionNearbyEntries] in
    their turn: a record starts after [lastFileEndsAt + maxGap], where
    [lastFileEndsAt] is the last byte of the record before it. *)
Fixpoint separated (maxGap lastFileEndsAt : Z)
    (zipEntries : list CentralDirectoryEntry.t) : Prop :=
  match zipEntries with
  | [] => True
  | zipEntry :: rest =>
      CentralDirectoryEntry.firstByteAt zipEntry > lastFileEndsAt + maxGap
      /\ separated maxGap (CentralDirectoryEntry.lastByteAt zipEntry) rest
  end.

(** The records that each fail the gap test in their turn: a record starts
    at or before [lastFileEndsAt + maxGap]. *)
Fixpoint adjoining (maxGap lastFileEndsAt : Z)
    (zipEntries : list CentralDirectoryEntry.t) : Prop :=
  match zipEntries with
  | [] => True
  | zipEntry :: rest =>
      CentralDirectoryEntry.firstByteAt zipEntry <= lastFileEndsAt + maxGap
      /\ adjoining maxGap (CentralDirectoryEntry.lastByteAt zipEntry) rest
  end.

(** ** Fetching partitions *)

(** Modelled from the spec: the [Semaphore] class, which is imported from the
    utility package.  It is the concurrency gate of a given capacity:
    [acquire] takes a slot when fewer than [concurrency] operations hold one,
    and otherwise leaves the caller waiting in the queue; the release
    callback gives the slot back. *)
Module Semaphore.
Record t : Type := {
  concurrency : nat;
  running : nat;
}.

Definition create (concurrency : nat) : t :=
  {| concurrency := concurrency; running := 0 |}.

(** [None]: the caller stays in the wait queue. *)
Definition acquire (s : t) : option t :=
  if decide (running s < concurrency s)%nat
  then Some {| concurrency := concurrency s; running := S (running s) |}
  else None.

Definition release (s : t) : t :=
  {| concurrency := concurrency s; running := pred (running s) |}.
End Semaphore.

(** [const sem = new Semaphore({ concurrency: 10 })] *)
Definition sem : Semaphore.t := Semaphore.create 10.

(** JavaScript array indexing: undefined outside the array. *)
Definition index {A} (array : list A) (i : Z) : option A :=
  if i <? 0 then None else array !! Z.to_nat i.

(** The range [requestChunkRange] asks for: from the first byte of the first
    entry to the last byte of the last one.  Reading a property of an
    undefined element is a TypeError. *)
Definition requestedRange (zipEntries : list CentralDirectoryEntry.t)
  : result (Z * Z) :=
  let lastZipEntry := index zipEntries (Z.of_nat (length zipEntries) - 1) in
  match index zipEntries 0, lastZipEntry with
  | Some firstZipEntry, Some lastZipEntry =>
      Ok (CentralDirectoryEntry.firstByteAt firstZipEntry,
          CentralDirectoryEntry.lastByteAt lastZipEntry)
  | _, _ => Throw TypeError
  end.

(** A partition paired with the byte stream fetched for it. *)
Definition Ticket : Type := list CentralDirectoryEntry.t * ReadableByteStream.

(** The writable side of [fetchPartitionedEntries] together with
    [requestChunkRange], as a machine whose steps are the callbacks and
    promise settlements that the event loop interleaves. *)
Module Fetcher.
Inductive phase : Type :=
| Waiting                          (* inside [await sem.acquire()] *)
| Outstanding (from to : Z)        (* [source.streamBytes(from, to)] called and not settled *)
| Settled.

Record request : Type := {
  zipEntries : list CentralDirectoryEntry.t;
  progress : phase;
}.

Record t : Type := {
  gate : Semaphore.t;
  requests : list request;
  requestsInProgress : nat;
  byteStreams : list Ticket;
  isWritableClosed : bool;
  writableError : option JSError;
}.

Definition initial : t := {|
  gate := sem;
  requests := [];
  requestsInProgress := 0;
  byteStreams := [];
  isWritableClosed := false;
  writableError := None;
|}.

Inductive event : Type :=
| Written (zipEntries : list CentralDirectoryEntry.t)  (* [write(zipEntries)] *)
| Acquired (i : nat)          (* [sem.acquire()] of request [i] resolves *)
| Settles (i : nat)           (* [source.streamBytes] of request [i] settles *)
| Closes.                    (* [close()] *)

(** The promise of a request settles: [finally { release() }], then the
    [then], [catch] and [finally] callbacks of [write]. *)
Definition settle (st : t) (i : nat) (zipEntries : list CentralDirectoryEntry.t)
    (outcome : result ReadableByteStream) : t := {|
  gate := Semaphore.release (gate st);
  requests := <[i := {| zipEntries := zipEntries; progress := Settled |}]> (requests st);
  requestsInProgress := pred (requestsInProgress st);
  byteStreams :=
    match outcome with
    | Ok byteStream => byteStreams st ++ [(zipEntries, byteStream)]
    | Throw _ => byteStreams st
    end;
  isWritableClosed := isWritableClosed st;
  writableError :=
    match outcome with
    | Ok _ => writableError st
    | Throw e => Some e
    end;
|}.

(** One step; [None] when the event cannot happen in this state. *)
Definition step (source : BytesSource.t) (st : t) (ev : event) : option t :=
  match ev with
  | Written zipEntries =>
      if decide (length zipEntries = 0)%nat then Some st
      else Some {|
        gate := gate st;
        requests := requests st ++ [{| zipEntries := zipEntries; progress := Waiting |}];
        requestsInProgress := S (requestsInProgress st);
        byteStreams := byteStreams st;
        isWritableClosed := isWritableClosed st;
        writableError := writableError st;
      |}
  | Acquired i =>
      match requests st !! i with
      | Some {| zipEntries := zipEntries; progress := Waiting |} =>
          match Semaphore.acquire (gate st) with
          | None => None
          | Some gate' =>
              let st' := {|
                gate := gate';
                requests := requests st;
                requestsInProgress := requestsInProgress st;
                byteStreams := byteStreams st;
                isWritableClosed := isWritableClosed st;
                writableError := writableError st;
              |} in
              match requestedRange zipEntries with
              | Throw e => Some (settle st' i zipEntries (Throw e))
              | Ok (from, to) => Some {|
                  gate := gate';
                  requests :=
                    <[i := {| zipEntries := zipEntries;
                              progress := Outstanding from to |}]> (requests st);
                  requestsInProgress := requestsInProgress st;
                  byteStreams := byteStreams st;
                  isWritableClosed := isWritableClosed st;
                  writableError := writableError st;
                |}
              end
          end
      | _ => None
      end
  | Settles i =>
      match requests st !! i with
      | Some {| zipEntries := zipEntries; progress := Outstanding from to |} =>
          Some (settle st i zipEntries (BytesSource.streamBytes source from to))
      | _ => None
      end
  | Closes =>
      Some {|
        gate := gate st;
        requests := requests st;
        requestsInProgress := requestsInProgress st;
        byteStreams := byteStreams st;
        isWritableClosed := true;
        writableError := writableError st;
      |}
  end.

Fixpoint run (source : BytesSource.t) (st : t) (events : list event) : option t :=
  match events with
  | [] => Some st
  | ev :: events' =>
      match step source st ev with
      | None => None
      | Some st' => run source st' events'
      end
  end.

Definition isOutstanding (r : request) : bool :=
  match progress r with Outstanding _ _ => true | _ => false end.

(** The number of range requests called and not yet settled. *)
Definition outstanding (st : t) : nat :=
  length (filter (fun r => isOutstanding r = true) (requests st)).
End Fetcher.

(** What holds in every state the fetcher can be in: the slots taken at the
    gate are those of the outstanding requests, no more slots are taken than
    the gate has, and no request is for an empty partition. *)
Record invariant (st : Fetcher.t) : Prop := {
  slots_outstanding : Semaphore.running (Fetcher.gate st) = Fetcher.outstanding st;
  slots_bounded : (Semaphore.running (Fetcher.gate st) <= Semaphore.concurrency (Fetcher.gate st))%nat;
  capacity_ten : Semaphore.concurrency (Fetcher.gate st) = 10%nat;
  partitions_nonempty : Forall (fun r => Fetcher.zipEntries r <> []) (Fetcher.requests st);
}.

(** The requests whose promise has not settled yet: those waiting for a
    slot and those outstanding. *)
Definition isUnsettled (r : Fetcher.request) : bool :=
  match Fetcher.progress r with Fetcher.Settled => false | _ => true end.

Definition unsettled (st : Fetcher.t) : nat :=
  length (filter (fun r => isUnsettled r = true) (Fetcher.requests st)).

(** [requestChunkRange(source, zipEntries)], once it has its slot: what the
    returned promise settles to. *)
Definition requestChunkRange (source : BytesSource.t)
    (zipEntries : list CentralDirectoryEntry.t) : result ReadableByteStream :=
  match requestedRange zipEntries with
  | Throw e => Throw e
  | Ok (from, to) => BytesSource.streamBytes source from to
  end.

Section Selective.
Variable inflateRaw : Uint8Array -> option Uint8Array.

(** [centralDirectoryEntries(source)] *)
Definition centralDirectoryEntries (budget : nat) (source : BytesSource.t)
  : ReadableStream CentralDirectoryEntry.t :=
  match streamCentralDirectory budget source with
  | Thrown e => Errored [] e
  | Running => Unfinished []
  | Returned centralDirectoryStream =>
      pulls (readCentralDirectory false)
        (S (byteLength centralDirectoryStream)) centralDirectoryStream
  end.

(** [zipEntries.find((entry) => entry.fileName === file.fileName)] *)
Definition isOneOfRequestedFiles (zipEntries : list CentralDirectoryEntry.t)
    (file : FileEntry.t) : bool :=
  bool_decide
    (Exists (fun entry => CentralDirectoryEntry.fileName entry = FileEntry.fileName file)
       zipEntries).

(** The [pull] loop of the readable side over the fetched streams queued in
    [byteStreams], all requests having settled and the writable side being
    closed: the head stream is decoded record by record, records that were
    not asked for are skipped, and a stream that yields no record is
    shifted out. *)
Fixpoint pullFiles (budget : nat) (byteStreams : list Ticket)
  : ReadableStream FileEntry.t :=
  match budget with
  | O => Unfinished []
  | S budget' =>
      match byteStreams with
      | [] => Closed []
      | (zipEntries, stream) :: rest =>
          match readFileEntry inflateRaw false stream with
          | Throw e => Errored [] e
          | Ok (None, _) => pullFiles budget' rest
          | Ok (Some file, stream') =>
              if isOneOfRequestedFiles zipEntries file
              then enqueue file (pullFiles budget' ((zipEntries, stream') :: rest))
              else pullFiles budget' ((zipEntries, stream') :: rest)
          end
      end
  end.

(** What is left to do for the reader side: the streams to shift out and the
    bytes to decode. *)
Definition pendingWork (byteStreams : list Ticket) : nat :=
  length byteStreams + list_sum (map (fun t => byteLength (snd t)) byteStreams).

(** The requests of the partitions written, in the order of the writes:
    none for an empty partition.  A rejected request is kept as such. *)
Definition requestAll (source : BytesSource.t)
    (partitions : list (list CentralDirectoryEntry.t))
  : list (list CentralDirectoryEntry.t * result ReadableByteStream) :=
  map (fun zipEntries => (zipEntries, requestChunkRange source zipEntries))
    (filter (fun zipEntries => length zipEntries <> 0%nat) partitions).

Definition fulfilled (r : list CentralDirectoryEntry.t * result ReadableByteStream)
  : option Ticket :=
  match r with
  | (zipEntries, Ok byteStream) => Some (zipEntries, byteStream)
  | (_, Throw _) => None
  end.

(** [fetchPartitionedEntries(source)] fed by [partitions], over a source
    that serves the ranges requested.  [arrival] is the order in which the
    fulfilled requests reach [byteStreams].  When the writable side is
    aborted the readable side is closed at once.  When the source rejects a
    request what the program does depends on when the rejection lands: before
    [close()] it errors the writable side, no further partition is written
    and the readable side is never closed; after [close()] the rejection
    only lowers [requestsInProgress] and the readable side closes once the
    fulfilled ranges are read.  The value given for that case stands for the
    open readable side and is an approximation; the properties proved of
    this function are about sources that serve every range. *)
Definition fetchPartitionedEntries (arrival : list Ticket -> list Ticket)
    (source : BytesSource.t)
    (partitions : ReadableStream (list CentralDirectoryEntry.t))
  : ReadableStream FileEntry.t :=
  match partitions with
  | Errored _ _ => Closed []
  | Unfinished _ => Unfinished []
  | Closed partitions =>
      let settled := requestAll source partitions in
      let byteStreams := arrival (omap fulfilled settled) in
      let files := pullFiles (S (pendingWork byteStreams)) byteStreams in
      if forallb (fun r => bool_decide (is_Some (fulfilled r))) settled
      then files
      else match files with
           | Closed chunks => Unfinished chunks
           | _ => files
           end
  end.

(** [iterateZipFiles2(source, predicate)] *)
Definition iterateZipFiles2 (arrival : list Ticket -> list Ticket)
    (budget : nat) (source : BytesSource.t)
    (predicate : CentralDirectoryEntry.t -> bool) : ReadableStream FileEntry.t :=
  fetchPartitionedEntries arrival source
    (pipeThrough
       (pipeThrough (centralDirectoryEntries budget source)
          (filterStream predicate))
       (partitionNearbyEntries defaultMaxGap)).
End Selective.

(** The names of the files a stream of file entries delivers (and how the
    stream ends). *)
Definition fileNames (files : ReadableStream FileEntry.t) : ReadableStream JSString :=
  match files with
  | Closed chunks => Closed (map FileEntry.fileName chunks)
  | Errored chunks e => Errored (map FileEntry.fileName chunks) e
  | Unfinished chunks => Unfinished (map FileEntry.fileName chunks)
  end.

(** ** Archives

    The ZIP layout the decoders read, written out for archives of stored
    (uncompressed) files, to have concrete archives to run the readers on. *)
Module Archive.
Definition le16 (n : Z) : Uint8Array := [n mod 256; n / 256 mod 256].

Definition le32 (n : Z) : Uint8Array :=
  [n mod 256; n / 2 ^ 8 mod 256; n / 2 ^ 16 mod 256; n / 2 ^ 24 mod 256].

Record stored : Type := {
  name : string;
  content : Uint8Array;
  checksum : Z;              (* CRC-32 of [content] *)
  fileComment : string;
}.

Definition size (bytes : Uint8Array) : Z := Z.of_nat (length bytes).

(** The 26 bytes after the signature of a local file record. *)
Definition localHeader (f : stored) : Uint8Array :=
  le16 20 ++ le16 0 ++ le16 0 ++ le16 0 ++ le16 0
  ++ le32 (checksum f) ++ le32 (size (content f)) ++ le32 (size (content f))
  ++ le16 (size (ascii (name f))) ++ le16 0.

Definition localFileRecord (f : stored) : Uint8Array :=
  le32 SIGNATURE_FILE ++ localHeader f ++ ascii (name f) ++ content f.

(** The 42 bytes after the signature of a central directory record. *)
Definition centralHeader (f : stored) (firstByteAt : Z) : Uint8Array :=
  le16 20 ++ le16 20 ++ le16 0 ++ le16 0 ++ le16 0 ++ le16 0
  ++ le32 (checksum f) ++ le32 (size (content f)) ++ le32 (size (content f))
  ++ le16 (size (ascii (name f))) ++ le16 0 ++ le16 (size (ascii (fileComment f)))
  ++ le16 0 ++ le16 0 ++ le32 0 ++ le32 firstByteAt.

Definition centralDirectoryRecord (f : stored) (firstByteAt : Z) : Uint8Array :=
  le32 SIGNATURE_CENTRAL_DIRECTORY_START ++ centralHeader f firstByteAt
  ++ ascii (name f) ++ ascii (fileComment f).

(** The 18 bytes after the signature of the end record. *)
Definition endHeader (records centralDirectorySize centralDirectoryOffset
    commentLength : Z) : Uint8Array :=
  le16 0 ++ le16 0 ++ le16 records ++ le16 records
  ++ le32 centralDirectorySize ++ le32 centralDirectoryOffset
  ++ le16 commentLength.

Definition endOfCentralDirectory (records centralDirectorySize
    centralDirectoryOffset : Z) (comment : Uint8Array) : Uint8Array :=
  le32 SIGNATURE_CENTRAL_DIRECTORY_END
  ++ endHeader records centralDirectorySize centralDirectoryOffset (size comment)
  ++ comment.

(** What the fields of the records can hold of a stored file: an ASCII name
    of fewer than 2^16 bytes, fewer than 2^32 bytes of content, a 32-bit
    checksum; and no comment. *)
Record wellFormed (f : stored) : Prop := {
  name_ascii : Forall (fun c => c < 128) (ascii (name f));
  name_length : size (ascii (name f)) < 2 ^ 16;
  content_length : size (content f) < 2 ^ 32;
  checksum_range : 0 <= checksum f < 2 ^ 32;
  no_comment : fileComment f = EmptyString;
}.

Arguments localFileRecord : simpl never.
Arguments centralDirectoryRecord : simpl never.
Arguments endOfCentralDirectory : simpl never.

(** The files with the offsets of their local records, laid out one after
    the other from [offset] on. *)
Fixpoint placed (files : list stored) (offset : Z) : list (stored * Z) :=
  match files with
  | [] => []
  | f :: files' => (f, offset) :: placed files' (offset + size (localFileRecord f))
  end.

(** Records placed in the order of their offsets, none before [low] and
    none before the end of the one before it. *)
Fixpoint ordered (low : Z) (records : list (stored * Z)) : Prop :=
  match records with
  | [] => True
  | (f, offset) :: records' =>
      low <= offset /\ ordered (offset + size (localFileRecord f)) records'
  end.

Definition localFileRecords (files : list stored) : Uint8Array :=
  concat (map localFileRecord files).

Definition centralDirectory (files : list stored) : Uint8Array :=
  concat (map (fun '(f, offset) => centralDirectoryRecord f offset) (placed files 0)).

(** What the fields of the end record can hold of the files of an archive:
    well-formed files, fewer than 2^16 of them, and fewer than 2^32 bytes of
    records and of directory. *)
Record fits (files : list stored) : Prop := {
  files_wellFormed : Forall wellFormed files;
  files_count : Z.of_nat (length files) < 2 ^ 16;
  records_size : size (localFileRecords files) < 2 ^ 32;
  directory_size : size (centralDirectory files) < 2 ^ 32;
}.

(** The file entry decoded from the local record of [f]. *)
Definition fileEntry (f : stored) : FileEntry.t := {|
  FileEntry.signature := SIGNATURE_FILE;
  FileEntry.version := 20;
  FileEntry.generalPurpose := 0;
  FileEntry.compressionMethod := 0;
  FileEntry.lastModifiedTime := 0;
  FileEntry.lastModifiedDate := 0;
  FileEntry.crc := checksum f;
  FileEntry.compressedSize := size (content f);
  FileEntry.uncompressedSize := size (content f);
  FileEntry.fileNameLength := size (ascii (name f));
  FileEntry.fileName := ascii (name f);
  FileEntry.isDirectory := endsWith (ascii (name f)) (ascii "/");
  FileEntry.extraLength := 0;
  FileEntry.extra := [];
  FileEntry.bytes := content f;
|}.

(** The central directory entry of [f] stored at [firstByteAt]. *)
Definition directoryEntry (f : stored) (firstByteAt : Z) : CentralDirectoryEntry.t := {|
  CentralDirectoryEntry.signature := SIGNATURE_CENTRAL_DIRECTORY_START;
  CentralDirectoryEntry.versionCreated := 20;
  CentralDirectoryEntry.versionNeeded := 20;
  CentralDirectoryEntry.generalPurpose := 0;
  CentralDirectoryEntry.compressionMethod := 0;
  CentralDirectoryEntry.lastModifiedTime := 0;
  CentralDirectoryEntry.lastModifiedDate := 0;
  CentralDirectoryEntry.crc := checksum f;
  CentralDirectoryEntry.compressedSize := size (content f);
  CentralDirectoryEntry.uncompressedSize := size (content f);
  CentralDirectoryEntry.fileNameLength := size (ascii (name f));
  CentralDirectoryEntry.extraLength := 0;
  CentralDirectoryEntry.fileCommentLength := size (ascii (fileComment f));
  CentralDirectoryEntry.diskNumber := 0;
  CentralDirectoryEntry.internalAttributes := 0;
  CentralDirectoryEntry.externalAttributes := 0;
  CentralDirectoryEntry.firstByteAt := firstByteAt;
  CentralDirectoryEntry.lastByteAt :=
    firstByteAt + FILE_HEADER_SIZE + size (ascii (name f))
    + size (ascii (fileComment f)) + 0 + size (content f) - 1;
  CentralDirectoryEntry.fileName := ascii (name f);
  CentralDirectoryEntry.extra := [];
  CentralDirectoryEntry.fileComment := ascii (fileComment f);
  CentralDirectoryEntry.isDirectory := endsWith (ascii (name f)) (ascii "/");
|}.

(** The end entry of an archive of [records] files. *)
Definition endEntry (records centralDirectorySize centralDirectoryOffset : Z)
    (comment : Uint8Array) : CentralDirectoryEndEntry.t := {|
  CentralDirectoryEndEntry.signature := SIGNATURE_CENTRAL_DIRECTORY_END;
  CentralDirectoryEndEntry.numberOfDisks := 0;
  CentralDirectoryEndEntry.centralDirectoryStartDisk := 0;
  CentralDirectoryEndEntry.numberCentralDirectoryRecordsOnThisDisk := records;
  CentralDirectoryEndEntry.numberCentralDirectoryRecords := records;
  CentralDirectoryEndEntry.centralDirectorySize := centralDirectorySize;
  CentralDirectoryEndEntry.centralDirectoryOffset := centralDirectoryOffset;
  CentralDirectoryEndEntry.commentLength := size comment;
  CentralDirectoryEndEntry.comment := TextDecoder.decode comment;
|}.

(** The archive of [files] with the archive comment [comment]. *)
Definition build (files : list stored) (comment : Uint8Array) : Uint8Array :=
  localFileRecords files ++ centralDirectory files
  ++ endOfCentralDirectory (Z.of_nat (length files)) (size (centralDirectory files))
       (size (localFileRecords files)) comment.

(** The partition of the one record of [f], stored at [offset], with the
    range fetched for it from an archive in which another record follows:
    the local record and the first two bytes of the next one. *)
Definition fetched '((f, offset) : stored * Z) : Ticket :=
  ([directoryEntry f offset], [localFileRecord f ++ [80; 75]]).

Definition aTxt : stored :=
  {| name := "a.txt"; content := ascii "0123456789";
     checksum := 2793719750; fileComment := "" |}.
Definition dir : stored :=
  {| name := "dir/"; content := []; checksum := 0; fileComment := "" |}.
Definition bTxt : stored :=
  {| name := "dir/b.txt"; content := ascii "abcdefghijklmnopqrst";
     checksum := 442067685; fileComment := "" |}.

(** Three entries: [a.txt] (10 bytes), the directory [dir/] (empty) and
    [dir/b.txt] (20 bytes). *)
Definition sample : Uint8Array := build [aTxt; dir; bTxt] [].

(** The file [a.txt] and an archive comment of 51199 bytes, one short of
    the scan chunk size: the end record starts at offset 96, 21 bytes
    before the last scan chunk. *)
Definition longComment : Uint8Array :=
  build [aTxt] (replicate (Z.to_nat 51199) 65).

(** One file of 51112 bytes and an archive comment of 51190 bytes: the end
    record starts at offset 51190 of 102402 bytes, so the scan chunk that
    holds its signature ends 12 bytes into the record. *)
Definition straddling : Uint8Array :=
  build
    [ {| name := "a"; content := replicate (Z.to_nat 51112) 65;
         checksum := 1194075475; fileComment := "" |} ]
    (replicate (Z.to_nat 51190) 65).

(** Eleven partitions written, then the first ten requests take a slot. *)
Definition elevenWrites : list Fetcher.event :=
  replicate 11 (Fetcher.Written [directoryEntry aTxt 0])
  ++ map Fetcher.Acquired (seq 0 10).

(** A partition and an empty one written, the request settled, then
    another empty partition written. *)
Definition writesAndEmpty : list Fetcher.event :=
  [Fetcher.Written [directoryEntry aTxt 0]; Fetcher.Written [];
   Fetcher.Acquired 0; Fetcher.Settles 0; Fetcher.Written []].
End Archive.

(** * Properties *)

(** ** Reading an exact number of bytes *)

Lemma limitBytes_pull_concat (remaining : nat) (stream : ReadableByteStream) :
  concat (limitBytes_pull remaining stream).1 = take remaining (concat stream)
  /\ concat (limitBytes_pull remaining stream).2 = drop remaining (concat stream).
Proof.
  revert remaining. induction stream as [|chunk rest IH]; intros remaining; simpl.
  - by rewrite take_nil, drop_nil.
  - destruct (decide (remaining <= length chunk)%nat) as [Hle|Hgt]; simpl.
    + rewrite app_nil_r, take_app_le by done. split; [done|].
      destruct (decide (length chunk <= remaining)%nat) as [Hge|Hlt]; simpl.
      * assert (remaining = length chunk) as -> by lia.
        by rewrite drop_app_length.
      * by rewrite drop_app_le by lia.
    + specialize (IH (remaining - length chunk)%nat).
      destruct (limitBytes_pull _ rest) as [values stream']; simpl in *.
      destruct IH as [-> ->].
      rewrite take_app_ge, drop_app_ge by lia. done.
Qed.

Lemma limitBytes_concat (stream : ReadableByteStream) (bytes : nat) :
  concat (limitBytes stream bytes).1 = take bytes (concat stream)
  /\ concat (limitBytes stream bytes).2 = drop bytes (concat stream).
Proof.
  unfold limitBytes. destruct (decide (bytes = 0)%nat) as [->|_]; [done|].
  apply limitBytes_pull_concat.
Qed.

(** The buffer of [concatNBytes] after the chunks of a stream that delivers
    no more bytes than fit: the bytes, then what was in the buffer. *)
Lemma feed_concatNBytes (totalBytes : nat) (chunks : list Uint8Array)
    (buffer : Uint8Array) (offset : nat) :
  (offset + length (concat chunks) <= length buffer)%nat ->
  feed (concatNBytes totalBytes) (buffer, offset) chunks
  = ([], Ok (take offset buffer ++ concat chunks
               ++ drop (offset + length (concat chunks)) buffer,
             (offset + length (concat chunks))%nat)).
Proof.
  revert buffer offset. induction chunks as [|chunk rest IH]; intros buffer offset Hfit.
  - simpl. rewrite Nat.add_0_r, take_drop. done.
  - simpl in *. rewrite length_app in Hfit. unfold setAt.
    rewrite decide_True by lia.
    rewrite IH.
    2:{ rewrite !length_app, length_take, length_drop. lia. }
    set (buffer' := take offset buffer ++ chunk ++ drop (offset + length chunk) buffer).
    assert (take (offset + length chunk) buffer' = take offset buffer ++ chunk) as Htake.
    { unfold buffer'. rewrite app_assoc, take_app_le by (rewrite length_app, length_take; lia).
      apply take_ge. rewrite length_app, length_take. lia. }
    assert (forall k, drop (offset + length chunk + k) buffer'
                      = drop (offset + length chunk + k) buffer) as Hdrop.
    { intros k. unfold buffer'. rewrite app_assoc, drop_app_ge by (rewrite length_app, length_take; lia).
      rewrite length_app, length_take, drop_drop. f_equal. lia. }
    simpl. rewrite Htake, Hdrop, length_app, <- !app_assoc, !Nat.add_assoc. done.
Qed.

Lemma readBytes_exact (n : nat) (stream : ReadableByteStream) :
  readBytes (Some n) stream
  = Ok (Some (take n (concat stream) ++ zeros (n - length (concat stream))),
        (limitBytes stream n).2).
Proof.
  unfold readBytes.
  pose proof (limitBytes_concat stream n) as [Hvalues _].
  destruct (limitBytes stream n) as [limited stream']; simpl in *.
  unfold pipeThrough; simpl.
  rewrite feed_concatNBytes.
  2:{ unfold zeros. rewrite length_replicate, Hvalues, length_take. lia. }
  simpl. rewrite Hvalues, length_take. unfold zeros.
  rewrite drop_replicate.
  replace (n - n `min` length (concat stream))%nat
    with (n - length (concat stream))%nat by lia.
  done.
Qed.

Lemma readBytes_rest (n : nat) (stream : ReadableByteStream) :
  concat (limitBytes stream n).2 = drop n (concat stream).
Proof. apply limitBytes_concat. Qed.

(** C4, as the code has it: the exact read never fails for lack of data.  It
    returns exactly [n] bytes, which are the next [n] bytes of the source when
    the source holds that many, and otherwise all that is left of the source
    followed by zeros; the bytes returned are consumed from the source. *)
Theorem readBytes_exact_or_zero_padded (n : nat) (stream : ReadableByteStream) :
  exists bytes stream',
    readBytes (Some n) stream = Ok (Some bytes, stream')
    /\ length bytes = n
    /\ bytes = take n (concat stream) ++ zeros (n - byteLength stream)
    /\ ((n <= byteLength stream)%nat -> bytes = take n (concat stream))
    /\ concat stream' = drop n (concat stream).
Proof.
  exists (take n (concat stream) ++ zeros (n - byteLength stream)),
         (limitBytes stream n).2.
  unfold byteLength. split; [apply readBytes_exact|].
  split; [unfold zeros; rewrite length_app, length_take, length_replicate; lia|].
  split; [done|].
  split; [|apply readBytes_rest].
  intros Hle. replace (n - length (concat stream))%nat with 0%nat by lia.
  apply app_nil_r.
Qed.

(** C4, as stated, fails: a source that ends after two bytes, read for four,
    gives no failure but the two bytes padded with zeros. *)
Lemma readBytes_short_source_is_padded :
  (byteLength [[1; 2]%Z] < 4)%nat
  /\ readBytes (Some 4%nat) [[1; 2]] = Ok (Some [1; 2; 0; 0], []).
Proof. split; [vm_compute; lia | reflexivity]. Qed.

(** ** The partitioner *)

Section Partitioner.
Variable maxGap : Z.

Local Abbreviation entries := (list CentralDirectoryEntry.t).

(** Whatever the state, the transformer never throws, and the partitions
    it has enqueued followed by the one it holds are the one it held
    followed by the records fed. *)
Lemma feed_partitionNearbyEntries (zipEntries : entries)
    (lastFileEndsAt : Z) (currentChunk : entries) :
  exists outs lastFileEndsAt' currentChunk',
    feed (partitionNearbyEntries maxGap) (lastFileEndsAt, currentChunk) zipEntries
    = (outs, Ok (lastFileEndsAt', currentChunk'))
    /\ concat outs ++ currentChunk' = currentChunk ++ zipEntries
    /\ (currentChunk <> [] -> Forall (fun p => p <> []) (outs ++ [currentChunk'])).
Proof.
  revert lastFileEndsAt currentChunk.
  induction zipEntries as [|zipEntry rest IH]; intros lastFileEndsAt currentChunk.
  - exists [], lastFileEndsAt, currentChunk. simpl.
    rewrite app_nil_r. split; [done|]. split; [done|].
    intros Hne. by repeat constructor.
  - simpl.
    destruct (CentralDirectoryEntry.firstByteAt zipEntry >? lastFileEndsAt + maxGap).
    + destruct (IH (CentralDirectoryEntry.lastByteAt zipEntry) ([] ++ [zipEntry]))
        as (outs & last' & current' & -> & Hcover & Hne).
      exists (currentChunk :: outs), last', current'. simpl.
      split; [done|]. split.
      * rewrite <- app_assoc, Hcover. done.
      * intros Hcur. constructor; [done|]. by apply Hne.
    + destruct (IH (CentralDirectoryEntry.lastByteAt zipEntry) (currentChunk ++ [zipEntry]))
        as (outs & last' & current' & -> & Hcover & Hne).
      exists outs, last', current'. simpl.
      split; [done|]. split.
      * rewrite Hcover, <- app_assoc. done.
      * intros _. apply Hne. by destruct currentChunk.
Qed.
End Partitioner.

(** C5: the partitions emitted for a finite sequence of records, put end to
    end, are the sequence itself; so every record is in exactly one
    partition, in its place. *)
Theorem partitions_cover_input (maxGap : Z) (zipEntries : list CentralDirectoryEntry.t) :
  exists partitions,
    pipeThrough (Closed zipEntries) (partitionNearbyEntries maxGap) = Closed partitions
    /\ concat partitions = zipEntries.
Proof.
  unfold pipeThrough. simpl chunksOf.
  destruct (feed_partitionNearbyEntries maxGap zipEntries 0 [])
    as (outs & last' & current' & Hfeed & Hcover & _).
  change (start (partitionNearbyEntries maxGap)) with ((0, []) : Z * list CentralDirectoryEntry.t).
  rewrite Hfeed. simpl.
  exists (outs ++ [current']). split; [done|].
  rewrite concat_app. simpl. rewrite app_nil_r. done.
Qed.

(** C6, as the code has it: of the partitions emitted, all but the first are
    non-empty, whatever the records and the gap.  The first is the partition
    held before any record came, and it is emitted empty exactly when there
    is no record at all or the first record passes the gap test, that is,
    has a [firstByteAt] above [maxGap] ([lastFileEndsAt] starts at 0); a
    first record that fails the test joins it, and it is emitted non-empty.
    With the default gap of -10 KiB the first partition is therefore empty
    whenever the first record has a [firstByteAt] that is not negative. *)
Theorem partitions_after_first_nonempty (maxGap : Z)
    (zipEntries : list CentralDirectoryEntry.t) :
  exists first rest,
    pipeThrough (Closed zipEntries) (partitionNearbyEntries maxGap)
    = Closed (first :: rest)
    /\ Forall (fun partition => partition <> []) rest
    /\ (first = []
        <-> match zipEntries with
            | [] => True
            | zipEntry :: _ => CentralDirectoryEntry.firstByteAt zipEntry > maxGap
            end)
    /\ (maxGap = defaultMaxGap ->
        match zipEntries with
        | [] => True
        | zipEntry :: _ => 0 <= CentralDirectoryEntry.firstByteAt zipEntry
        end ->
        first = []).
Proof.
  assert (exists first rest,
            pipeThrough (Closed zipEntries) (partitionNearbyEntries maxGap)
            = Closed (first :: rest)
            /\ Forall (fun partition => partition <> []) rest
            /\ (first = []
                <-> match zipEntries with
                    | [] => True
                    | zipEntry :: _ =>
                        CentralDirectoryEntry.firstByteAt zipEntry > maxGap
                    end)) as (first & rest & Hparts & Hrest & Hfirst).
  { unfold pipeThrough. simpl chunksOf.
    change (start (partitionNearbyEntries maxGap))
      with ((0, []) : Z * list CentralDirectoryEntry.t).
    destruct zipEntries as [|zipEntry more].
    - simpl. by exists [], [].
    - simpl.
      destruct (Z.gtb_spec (CentralDirectoryEntry.firstByteAt zipEntry) (0 + maxGap))
        as [Hpasses|Hfails];
        destruct (feed_partitionNearbyEntries maxGap more
                    (CentralDirectoryEntry.lastByteAt zipEntry) ([] ++ [zipEntry]))
          as (outs & last' & current' & -> & Hcover & Hne);
        specialize (Hne ltac:(done)).
      + exists [], (outs ++ [current']). split; [done|]. split; [done|].
        split; [intros _; lia | done].
      + simpl.
        destruct outs as [|first outs]; simpl in *.
        * exists current', []. split; [done|]. split; [done|].
          split; [|lia]. intros ->. by inversion Hne.
        * exists first, (outs ++ [current']). split; [done|].
          apply list.Forall_cons in Hne as [Hfirst Hrest]. split; [done|].
          split; [done | lia]. }
  exists first, rest. split; [done|]. split; [done|]. split; [done|].
  intros -> Hoffset. apply Hfirst.
  destruct zipEntries as [|zipEntry more]; [done|].
  unfold defaultMaxGap. lia.
Qed.

(** With the default gap the first partition emitted is the empty one: the
    first record, whose offset is not negative, passes the gap test. *)
Lemma first_partition_empty (zipEntries : list CentralDirectoryEntry.t) :
  Forall (fun entry => 0 <= CentralDirectoryEntry.firstByteAt entry) zipEntries ->
  exists rest,
    pipeThrough (Closed zipEntries) (partitionNearbyEntries defaultMaxGap)
    = Closed ([] :: rest).
Proof.
  intros Hoffsets.
  destruct zipEntries as [|zipEntry more]; [by exists []|].
  unfold pipeThrough. simpl chunksOf.
  change (start (partitionNearbyEntries defaultMaxGap))
    with ((0, []) : Z * list CentralDirectoryEntry.t).
  simpl.
  apply list.Forall_cons in Hoffsets as [Hfirst _].
  rewrite (proj2 (Z.gtb_gt _ _)) by (unfold defaultMaxGap; lia).
  destruct (feed_partitionNearbyEntries defaultMaxGap more
              (CentralDirectoryEntry.lastByteAt zipEntry) ([] ++ [zipEntry]))
    as (outs & last' & current' & -> & _ & _).
  by eexists.
Qed.

(** ** The selection predicate *)

(** The entries the decoders build are marked as directories exactly when
    their name ends in a slash. *)
Lemma readCentralDirectory_isDirectory (skipSignature : bool)
    (stream stream' : ReadableByteStream) (entry : CentralDirectoryEntry.t) :
  readCentralDirectory skipSignature stream = Ok (Some entry, stream') ->
  CentralDirectoryEntry.isDirectory entry
  = endsWith (CentralDirectoryEntry.fileName entry) (ascii "/").
Proof.
  unfold readCentralDirectory, bind, ret.
  repeat case_match; try done; by intros [= <- _].
Qed.

Lemma readFileEntry_isDirectory inflateRaw (skipSignature : bool)
    (stream stream' : ReadableByteStream) (entry : FileEntry.t) :
  readFileEntry inflateRaw skipSignature stream = Ok (Some entry, stream') ->
  FileEntry.isDirectory entry = endsWith (FileEntry.fileName entry) (ascii "/").
Proof.
  unfold readFileEntry, bind, ret.
  repeat case_match; try done; by intros [= <- _].
Qed.

(** C9: the default predicate keeps an entry exactly when it is not a
    directory entry of uncompressed size 0: a directory entry of nonzero size
    is kept, an entry that is no directory is kept whatever its size, and a
    directory entry of size 0 is dropped. *)
Theorem predicate_excludes_empty_directories (entry : CentralDirectoryEntry.t) :
  (predicate entry = true
   <-> ~ (CentralDirectoryEntry.isDirectory entry = true
          /\ CentralDirectoryEntry.uncompressedSize entry = 0))
  /\ (CentralDirectoryEntry.isDirectory entry = true ->
      CentralDirectoryEntry.uncompressedSize entry <> 0 -> predicate entry = true)
  /\ (CentralDirectoryEntry.isDirectory entry = false -> predicate entry = true)
  /\ (CentralDirectoryEntry.isDirectory entry = true ->
      CentralDirectoryEntry.uncompressedSize entry = 0 -> predicate entry = false).
Proof.
  unfold predicate. simpl.
  destruct (CentralDirectoryEntry.isDirectory entry); simpl;
    destruct (Z.eqb_spec (CentralDirectoryEntry.uncompressedSize entry) 0); simpl;
    intuition congruence.
Qed.

(** ** Readers only advance *)

Lemma byteLength_drop (n : nat) (stream stream' : ReadableByteStream) :
  concat stream' = drop n (concat stream) ->
  (byteLength stream' <= byteLength stream)%nat.
Proof. unfold byteLength. intros ->. rewrite length_drop. lia. Qed.

Lemma advances_ret {A} (a : A) : advances (ret a).
Proof. intros stream a' stream' [= _ ->]. done. Qed.

Lemma advances_lift {A} (r : result A) : advances (lift r).
Proof. intros stream a stream'. unfold lift. destruct r; [|done]. by intros [= _ ->]. Qed.

Lemma advances_nonNull {A} (v : option A) : advances (nonNull v).
Proof. apply advances_lift. Qed.

Lemma advances_bind {A B} (m : Reader A) (k : A -> Reader B) :
  advances m -> (forall a, advances (k a)) -> advances (bind m k).
Proof.
  intros Hm Hk stream b stream'. unfold bind.
  destruct (m stream) as [[a stream1]|] eqn:Hrun; [|done].
  intros Hrest. etrans; [by eapply Hk | by eapply Hm].
Qed.

Lemma advances_if {A} (b : bool) (m1 m2 : Reader A) :
  advances m1 -> advances m2 -> advances (if b then m1 else m2).
Proof. by destruct b. Qed.

Lemma advances_readBytes (bytes : option nat) : advances (readBytes bytes).
Proof.
  intros stream a stream'. destruct bytes as [n|].
  - rewrite readBytes_exact. intros [= _ <-].
    eapply byteLength_drop, readBytes_rest.
  - unfold readBytes.
    destruct (readValue _); [|done]. intros [= _ <-]. unfold byteLength. simpl. lia.
Qed.

Lemma advances_readString (bytes : nat) : advances (readString bytes).
Proof.
  intros stream a stream'. unfold readString.
  pose proof (readBytes_rest bytes stream) as Hrest.
  destruct (limitBytes stream bytes) as [limited rest]; simpl in Hrest.
  case_match; [|done]. intros [= _ <-].
  by eapply byteLength_drop.
Qed.

Lemma advances_readBody inflateRaw (compressedSize compressionMethod : Z) :
  advances (readBody inflateRaw compressedSize compressionMethod).
Proof.
  intros stream a stream'. unfold readBody.
  pose proof (readBytes_rest (Z.to_nat compressedSize) stream) as Hrest.
  destruct (limitBytes stream _) as [limited rest]; simpl in Hrest.
  case_match; [|done].
  intros Hvalue. apply advances_nonNull in Hvalue.
  etrans; [done | by eapply byteLength_drop].
Qed.

Ltac advances_steps :=
  repeat first
    [ apply advances_ret
    | apply advances_nonNull
    | apply advances_lift
    | apply advances_readBytes
    | apply advances_readString
    | apply advances_readBody
    | apply advances_if
    | apply advances_bind; [|intros ?] ].

Lemma advances_readView (n : nat) : advances (readView n).
Proof. unfold readView. advances_steps. Qed.

Lemma advances_readSignature : advances readSignature.
Proof. unfold readSignature, readView, getUint32. advances_steps. Qed.

Lemma advances_readFileEntry inflateRaw (skipSignature : bool) :
  advances (readFileEntry inflateRaw skipSignature).
Proof.
  unfold readFileEntry, getUint16, getUint32, readView.
  apply advances_bind; [destruct skipSignature; [advances_steps | apply advances_readSignature]|].
  intros signature. advances_steps.
Qed.

Lemma advances_readCentralDirectory (skipSignature : bool) :
  advances (readCentralDirectory skipSignature).
Proof.
  unfold readCentralDirectory, getUint16, getUint32, readView.
  apply advances_bind; [destruct skipSignature; [advances_steps | apply advances_readSignature]|].
  intros signature. advances_steps.
Qed.

Lemma advances_readEndCentralDirectory (skipSignature : bool) :
  advances (readEndCentralDirectory skipSignature).
Proof.
  unfold readEndCentralDirectory, getUint16, getUint32, readView.
  apply advances_bind; [destruct skipSignature; [advances_steps | apply advances_readSignature]|].
  intros signature. advances_steps.
Qed.

(** At the end of the stream the signature read is that of a zero-filled
    buffer. *)
Lemma readSignature_exhausted (stream : ReadableByteStream) :
  byteLength stream = 0%nat ->
  readSignature stream = Ok (0, (limitBytes stream 4).2).
Proof.
  unfold byteLength. intros Hlen.
  unfold readSignature, readView, bind. rewrite readBytes_exact.
  destruct (concat stream); [|done]. reflexivity.
Qed.

(** A signature other than 0 was read from at least one byte of the stream. *)
Lemma readSignature_advances_strictly (stream stream' : ReadableByteStream)
    (signature : Z) :
  readSignature stream = Ok (signature, stream') -> signature <> 0 ->
  (byteLength stream' < byteLength stream)%nat.
Proof.
  intros Hread Hsig.
  destruct (decide (byteLength stream = 0%nat)) as [Hzero|Hpos].
  { rewrite readSignature_exhausted in Hread by done. congruence. }
  revert Hread. unfold readSignature, readView, bind. rewrite readBytes_exact.
  simpl. unfold getUint32, lift.
  destruct (DataView.getUint32 _ _); [|done]. intros [= _ <-].
  unfold byteLength in *. rewrite readBytes_rest, length_drop. lia.
Qed.

(** ** The sequence of entries of a forward-only stream *)

Section Sequential.
Variable inflateRaw : Uint8Array -> option Uint8Array.

(** At the end of the stream [readNextEntry] gives null: the zero signature
    is none of the three record signatures. *)
Lemma readNextEntry_exhausted (stream : ReadableByteStream) :
  byteLength stream = 0%nat ->
  readNextEntry inflateRaw stream = Ok (None, (limitBytes stream 4).2).
Proof.
  intros Hlen. unfold readNextEntry, bind.
  rewrite readSignature_exhausted by done. reflexivity.
Qed.

(** A record is decoded from at least one byte. *)
Lemma readNextEntry_advances_strictly (stream stream' : ReadableByteStream)
    (entry : ZipEntry) :
  readNextEntry inflateRaw stream = Ok (Some entry, stream') ->
  (byteLength stream' < byteLength stream)%nat.
Proof.
  unfold readNextEntry. unfold bind at 1.
  destruct (readSignature stream) as [[signature stream1]|] eqn:Hsig; [|done].
  intros Hrest.
  assert (signature <> 0) as Hne.
  { intros ->. by vm_compute in Hrest. }
  pose proof (readSignature_advances_strictly _ _ _ Hsig Hne) as Hlt.
  enough (byteLength stream' <= byteLength stream1)%nat by lia.
  revert Hrest.
  assert (forall A B (f : A -> B) (m : Reader (option A)),
            advances m -> advances (entry <- m ;; ret (f <$> entry))) as Hmap.
  { intros A B f m Hm. apply advances_bind; [done|]. intros ?. apply advances_ret. }
  repeat case_match; intros Hrest.
  - eapply Hmap; [apply (advances_readFileEntry inflateRaw true) | done].
  - eapply Hmap; [apply (advances_readCentralDirectory true) | done].
  - eapply Hmap; [apply (advances_readEndCentralDirectory true) | done].
  - done.
Qed.

(** The budget of [zipEntries] is never used up: any budget above the
    number of bytes left gives the same stream of entries. *)
Lemma pulls_readNextEntry_budget (budget1 budget2 : nat) (stream : ReadableByteStream) :
  (byteLength stream < budget1)%nat -> (byteLength stream < budget2)%nat ->
  pulls (readNextEntry inflateRaw) budget1 stream
  = pulls (readNextEntry inflateRaw) budget2 stream.
Proof.
  revert budget2 stream.
  induction budget1 as [|budget1 IH]; intros budget2 stream H1 H2; [lia|].
  destruct budget2 as [|budget2]; [lia|]. simpl.
  destruct (readNextEntry inflateRaw stream) as [[[entry|] stream']|] eqn:Hread; try done.
  apply readNextEntry_advances_strictly in Hread.
  f_equal. apply IH; lia.
Qed.

Lemma zipEntries_enqueue (stream stream' : ReadableByteStream) (entry : ZipEntry) :
  readNextEntry inflateRaw stream = Ok (Some entry, stream') ->
  zipEntries inflateRaw stream = enqueue entry (zipEntries inflateRaw stream').
Proof.
  intros Hread. unfold zipEntries.
  change (pulls (readNextEntry inflateRaw) (S (byteLength stream)) stream)
    with (match readNextEntry inflateRaw stream with
          | Throw e => Errored [] e
          | Ok (None, _) => Closed []
          | Ok (Some entry, stream') =>
              enqueue entry (pulls (readNextEntry inflateRaw) (byteLength stream) stream')
          end).
  rewrite Hread. f_equal.
  apply readNextEntry_advances_strictly in Hread.
  apply pulls_readNextEntry_budget; lia.
Qed.

(** C10, as the code has it: when the stream is exhausted right after a
    record and the records before the end all decode -- [count] records are
    read one after the other, none of the reads throwing, and no byte is
    left -- the sequence of entries delivers these records and is then
    closed, not errored: at the end [readNextEntry] reads the signature of a
    zero-filled buffer and returns null. *)
Theorem zipEntries_closes_at_record_boundary (count : nat)
    (stream rest : ReadableByteStream) (entries : list ZipEntry) :
  readEntries inflateRaw count stream = Some (entries, rest) ->
  byteLength rest = 0%nat ->
  readBytes (Some 4%nat) rest = Ok (Some (zeros 4), (limitBytes rest 4).2)
  /\ readNextEntry inflateRaw rest = Ok (None, (limitBytes rest 4).2)
  /\ zipEntries inflateRaw stream = Closed entries.
Proof.
  intros Hread Hrest.
  split.
  { rewrite readBytes_exact. unfold byteLength in Hrest.
    by destruct (concat rest). }
  split; [by apply readNextEntry_exhausted|].
  revert stream entries Hread.
  induction count as [|count IH]; intros stream entries; simpl.
  - intros [= <- <-]. unfold zipEntries. simpl.
    by rewrite readNextEntry_exhausted.
  - destruct (readNextEntry inflateRaw stream) as [[[entry|] stream']|] eqn:Hnext; try done.
    destruct (readEntries inflateRaw count stream') as [[entries' rest']|] eqn:Hmore; [|done].
    intros [= <- <-].
    rewrite (zipEntries_enqueue _ _ _ Hnext), (IH _ _ Hmore). done.
Qed.
End Sequential.

(** C10, as stated, fails: a stream that holds one local record of
    compression method 8 whose body, the single byte 0, is no complete
    deflate stream.  The stream is exhausted exactly at the end of that
    record, 31 bytes read, and the sequence of entries ends errored with the
    platform's TypeError, not closed. *)
Lemma record_that_does_not_inflate_errors :
  let record :=
    Archive.le32 SIGNATURE_FILE
    ++ Archive.le16 20 ++ Archive.le16 0 ++ Archive.le16 8 ++ Archive.le16 0
    ++ Archive.le16 0 ++ Archive.le32 0 ++ Archive.le32 1 ++ Archive.le32 1
    ++ Archive.le16 0 ++ Archive.le16 0 ++ [0] in
  length record = 31%nat
  /\ readBody (fun _ => None) 1 8 [[0]] = Throw TypeError
  /\ zipEntries (fun _ => None) [record] = Errored [] TypeError.
Proof. repeat split. Qed.

(** The sample archive is such a stream: seven records (three files, three
    directory records, the end record), then nothing. *)
Lemma zipEntries_closes_at_record_boundary_sample :
  exists entries rest,
    readEntries (fun _ => None) 7 [Archive.sample] = Some (entries, rest)
    /\ byteLength rest = 0%nat
    /\ readBytes (Some 4%nat) rest = Ok (Some (zeros 4), (limitBytes rest 4).2)
    /\ readNextEntry (fun _ => None) rest = Ok (None, (limitBytes rest 4).2)
    /\ zipEntries (fun _ => None) [Archive.sample] = Closed entries.
Proof.
  eexists _, _. split; [vm_compute; reflexivity|]. split; [reflexivity|].
  apply (zipEntries_closes_at_record_boundary (fun _ => None) 7); reflexivity.
Defined.

(** ** The fetcher *)

Section FetcherInvariant.
Variable source : BytesSource.t.

Import Fetcher.

Lemma invariant_initial : invariant initial.
Proof. split; simpl; try done. unfold sem. simpl. lia. Qed.

(** Replacing request [i] changes the count of outstanding requests by what
    the old and the new request contribute. *)
Lemma outstanding_insert (rs : list request) (i : nat) (old new : request) :
  rs !! i = Some old ->
  (length (filter (fun r => isOutstanding r = true) (<[i := new]> rs))
   + (if isOutstanding old then 1 else 0)
   = length (filter (fun r => isOutstanding r = true) rs)
     + (if isOutstanding new then 1 else 0))%nat.
Proof.
  intros Hold.
  rewrite <- (take_drop_middle rs i old Hold) at 2.
  rewrite insert_take_drop by (by eapply lookup_lt_Some).
  rewrite !list.filter_app, !filter_cons, !length_app.
  destruct (isOutstanding old), (isOutstanding new);
    repeat (case_decide; try done); simpl; lia.
Qed.

Lemma nonempty_insert (rs : list request) (i : nat) (old new : request) :
  rs !! i = Some old -> zipEntries new = zipEntries old ->
  Forall (fun r => zipEntries r <> []) rs ->
  Forall (fun r => zipEntries r <> []) (<[i := new]> rs).
Proof.
  intros Hold Heq Hall. apply Forall_insert; [done|].
  rewrite Heq. by eapply (Forall_lookup_1 _ _ _ _ Hall).
Qed.

Lemma invariant_settle (st : Fetcher.t) (i : nat) (r : request)
    (outcome : result ReadableByteStream) :
  requests st !! i = Some r -> isOutstanding r = true ->
  invariant st -> invariant (settle st i (zipEntries r) outcome).
Proof.
  intros Hr Hout [Hslots Hbound Hten Hne].
  pose proof (outstanding_insert (requests st) i r
                {| zipEntries := zipEntries r; progress := Settled |} Hr) as Hcount.
  rewrite Hout in Hcount. simpl in Hcount.
  split; simpl; unfold outstanding in *; simpl.
  - lia.
  - lia.
  - done.
  - by eapply nonempty_insert.
Qed.

Lemma invariant_step (st st' : Fetcher.t) (ev : event) :
  invariant st -> step source st ev = Some st' -> invariant st'.
Proof.
  intros Hinv. pose proof Hinv as [Hslots Hbound Hten Hne].
  destruct ev as [partition|i|i|]; simpl.
  - case_decide as Hlen; intros [= <-]; [done|].
    split; simpl; try done.
    + unfold outstanding in *. simpl. rewrite list.filter_app, length_app. simpl.
      lia.
    + apply Forall_app. split; [done|]. constructor; [|done].
      simpl. by destruct partition.
  - destruct (requests st !! i) as [[partition []]|] eqn:Hr; try done.
    unfold Semaphore.acquire. case_decide as Hfree; [|done].
    pose proof (outstanding_insert (requests st) i _
                  {| zipEntries := partition; progress := Settled |} Hr) as Hsettled.
    destruct (requestedRange partition) as [[from to]|e] eqn:Hrange; intros [= <-].
    + pose proof (outstanding_insert (requests st) i _
                    {| zipEntries := partition; progress := Outstanding from to |} Hr)
        as Hcount.
      simpl in Hcount.
      split; simpl; unfold outstanding in *; simpl; try lia; try done.
      by eapply nonempty_insert.
    + simpl in Hsettled.
      split; simpl; unfold outstanding in *; simpl; try lia; try done.
      by eapply nonempty_insert.
  - destruct (requests st !! i) as [[partition [|from to|]]|] eqn:Hr; try done.
    intros [= <-].
    by apply (invariant_settle st i _ _ Hr).
  - intros [= <-]. by split.
Qed.

Lemma invariant_run (events : list event) (st st' : Fetcher.t) :
  invariant st -> run source st events = Some st' -> invariant st'.
Proof.
  revert st. induction events as [|ev events IH]; intros st Hinv; simpl.
  - by intros [= <-].
  - destruct (step source st ev) as [st1|] eqn:Hstep; [|done].
    apply IH. by eapply invariant_step.
Qed.

(** A partition that is not empty has a first and a last record. *)
Lemma requestedRange_nonempty (partition : list CentralDirectoryEntry.t) :
  partition <> [] -> exists from to, requestedRange partition = Ok (from, to).
Proof.
  intros Hne. unfold requestedRange.
  assert (is_Some (index partition 0)) as [firstZipEntry ->].
  { destruct partition; [done|]. by eexists. }
  assert (is_Some (index partition (Z.of_nat (length partition) - 1)))
    as [lastZipEntry ->].
  { unfold index. destruct partition as [|entry rest]; [done|].
    rewrite (proj2 (Z.ltb_ge _ _)) by (simpl length; lia).
    apply lookup_lt_is_Some. simpl length. lia. }
  eauto.
Qed.
End FetcherInvariant.

(** C7: whatever partitions are written (eleven, or any number above ten) and
    however the acquisitions and settlements interleave, no more than 10
    range requests are ever outstanding, that is called and not yet settled:
    a request takes its slot at the gate before [source.streamBytes] is
    called and gives it back only once that call has settled. *)
Theorem at_most_ten_requests_outstanding (source : BytesSource.t)
    (events : list Fetcher.event) (st : Fetcher.t) :
  Fetcher.run source Fetcher.initial events = Some st ->
  (Fetcher.outstanding st <= 10)%nat.
Proof.
  intros Hrun.
  destruct (invariant_run source events _ _ invariant_initial Hrun)
    as [Hslots Hbound Hten _].
  lia.
Qed.

(** C8: writing an empty partition changes nothing in the fetcher: no request
    is made and nothing is queued for the reader.  So every request the
    fetcher ever holds is for a partition that is not empty, and picking its
    first and last record in [requestChunkRange] does not fail. *)
Theorem empty_partition_is_noop (source : BytesSource.t)
    (events : list Fetcher.event) (st : Fetcher.t) :
  Fetcher.run source Fetcher.initial events = Some st ->
  Fetcher.step source st (Fetcher.Written []) = Some st
  /\ Forall (fun r => Fetcher.zipEntries r <> []
                      /\ exists from to,
                           requestedRange (Fetcher.zipEntries r) = Ok (from, to))
       (Fetcher.requests st).
Proof.
  intros Hrun. split; [done|].
  destruct (invariant_run source events _ _ invariant_initial Hrun) as [_ _ _ Hne].
  eapply list.Forall_impl; [exact Hne|]. simpl.
  intros r Hr. split; [done|]. by apply requestedRange_nonempty.
Qed.

(** The fetcher with eleven partitions written and ten slots taken: ten
    requests are outstanding and the eleventh cannot take a slot. *)
Lemma at_most_ten_requests_outstanding_eleven_writes :
  exists st,
    Fetcher.run (createFetchSource Archive.sample) Fetcher.initial Archive.elevenWrites
    = Some st
    /\ Fetcher.outstanding st = 10%nat
    /\ Fetcher.step (createFetchSource Archive.sample) st (Fetcher.Acquired 10) = None
    /\ (Fetcher.outstanding st <= 10)%nat.
Proof.
  eexists. split; [vm_compute; reflexivity|].
  split; [reflexivity|]. split; [reflexivity|].
  apply (at_most_ten_requests_outstanding (createFetchSource Archive.sample)
           Archive.elevenWrites).
  vm_compute; reflexivity.
Defined.

Lemma empty_partition_is_noop_after_writes :
  exists st,
    Fetcher.run (createFetchSource Archive.sample) Fetcher.initial Archive.writesAndEmpty
    = Some st
    /\ length (Fetcher.requests st) = 1%nat
    /\ Fetcher.step (createFetchSource Archive.sample) st (Fetcher.Written []) = Some st
    /\ Forall (fun r => Fetcher.zipEntries r <> []
                        /\ exists from to,
                             requestedRange (Fetcher.zipEntries r) = Ok (from, to))
         (Fetcher.requests st).
Proof.
  eexists. split; [vm_compute; reflexivity|]. split; [reflexivity|].
  apply (empty_partition_is_noop (createFetchSource Archive.sample)
           Archive.writesAndEmpty).
  vm_compute; reflexivity.
Defined.

(** C6, as stated, fails: for a single record the partitioner emits two
    partitions, the first of them empty. *)
Lemma partition_of_one_record_starts_empty :
  pipeThrough (Closed [Archive.directoryEntry Archive.aTxt 0])
    (partitionNearbyEntries defaultMaxGap)
  = Closed [[]; [Archive.directoryEntry Archive.aTxt 0]].
Proof. reflexivity. Qed.

(** ** Locating the central directory *)

(** A 32-bit read succeeds exactly on four bytes that are there. *)
Lemma getUint32_lookup (view : list Z) (i : nat) (v : Z) :
  DataView.getUint32 view i = Ok v
  <-> exists b0 b1 b2 b3,
        view !! i = Some b0 /\ view !! (i + 1)%nat = Some b1
        /\ view !! (i + 2)%nat = Some b2 /\ view !! (i + 3)%nat = Some b3
        /\ v = b0 + b1 * 2 ^ 8 + b2 * 2 ^ 16 + b3 * 2 ^ 24.
Proof.
  unfold DataView.getUint32.
  pose proof (lookup_drop view i) as Hdrop.
  split.
  - destruct (drop i view) as [|b0 [|b1 [|b2 [|b3 rest]]]] eqn:Hview; try done.
    intros [= <-]. exists b0, b1, b2, b3.
    rewrite <- (Nat.add_0_r i) at 1. rewrite <- !Hdrop. done.
  - intros (b0 & b1 & b2 & b3 & H0 & H1 & H2 & H3 & ->).
    rewrite <- (Nat.add_0_r i) in H0. rewrite <- Hdrop in H0, H1, H2, H3.
    destruct (drop i view) as [|c0 [|c1 [|c2 [|c3 rest]]]]; try done.
    simpl in *. congruence.
Qed.

Lemma getUint32_in_range (view : Uint8Array) (i : nat) :
  (i + 4 <= length view)%nat <-> exists v, DataView.getUint32 view i = Ok v.
Proof.
  split.
  - intros Hfit.
    destruct (lookup_lt_is_Some_2 view i) as [b0 H0]; [lia|].
    destruct (lookup_lt_is_Some_2 view (i + 1)) as [b1 H1]; [lia|].
    destruct (lookup_lt_is_Some_2 view (i + 2)) as [b2 H2]; [lia|].
    destruct (lookup_lt_is_Some_2 view (i + 3)) as [b3 H3]; [lia|].
    eexists. apply getUint32_lookup. by exists b0, b1, b2, b3.
  - intros [v (b0 & b1 & b2 & b3 & _ & _ & _ & H3 & _)%getUint32_lookup].
    apply lookup_lt_Some in H3. lia.
Qed.

(** The scan finds nothing exactly when no offset it visits holds the
    signature. *)
Lemma scanSignature_None (view : Uint8Array) (candidates : nat) :
  (candidates + 3 <= length view)%nat \/ candidates = 0%nat ->
  scanSignature view candidates = Ok None
  <-> forall i, (i < candidates)%nat ->
        DataView.getUint32 view i <> Ok SIGNATURE_CENTRAL_DIRECTORY_END.
Proof.
  induction candidates as [|i IH]; intros Hfit.
  - simpl. split; [intros _ i; lia | done].
  - assert (i + 4 <= length view)%nat as Hin by lia.
    apply getUint32_in_range in Hin as [v Hv].
    simpl. rewrite Hv.
    destruct (Z.eqb_spec v SIGNATURE_CENTRAL_DIRECTORY_END) as [->|Hne].
    + split; [done|]. intros Hnone. by destruct (Hnone i ltac:(lia)).
    + rewrite IH by lia. split.
      * intros Hnone j Hj. destruct (decide (j = i)) as [->|]; [congruence|].
        apply Hnone. lia.
      * intros Hnone j Hj. apply Hnone. lia.
Qed.

(** The scan returns the highest offset that holds the signature. *)
Lemma scanSignature_Some (view : Uint8Array) (candidates i : nat) :
  (candidates + 3 <= length view)%nat ->
  (i < candidates)%nat ->
  DataView.getUint32 view i = Ok SIGNATURE_CENTRAL_DIRECTORY_END ->
  (forall j, (i < j < candidates)%nat ->
     DataView.getUint32 view j <> Ok SIGNATURE_CENTRAL_DIRECTORY_END) ->
  scanSignature view candidates = Ok (Some i).
Proof.
  induction candidates as [|k IH]; intros Hfit Hi Hsig Hhigher; [lia|].
  assert (k + 4 <= length view)%nat as Hin by lia.
  apply getUint32_in_range in Hin as [v Hv].
  simpl. rewrite Hv.
  destruct (decide (i = k)) as [->|Hik].
  - rewrite Hsig in Hv. injection Hv as <-. by rewrite Z.eqb_refl.
  - destruct (Z.eqb_spec v SIGNATURE_CENTRAL_DIRECTORY_END) as [->|Hne].
    + by destruct (Hhigher k ltac:(lia)).
    + apply IH; [lia | lia | done |]. intros j Hj. apply Hhigher. lia.
Qed.

(** What the scan returns holds the signature, and no higher offset does. *)
Lemma scanSignature_Some_inv (view : Uint8Array) (candidates i : nat) :
  scanSignature view candidates = Ok (Some i) ->
  (i < candidates)%nat
  /\ DataView.getUint32 view i = Ok SIGNATURE_CENTRAL_DIRECTORY_END
  /\ forall j, (i < j < candidates)%nat ->
       DataView.getUint32 view j <> Ok SIGNATURE_CENTRAL_DIRECTORY_END.
Proof.
  induction candidates as [|k IH]; [done|]. simpl.
  destruct (DataView.getUint32 view k) as [v|] eqn:Hv; [|done].
  destruct (Z.eqb_spec v SIGNATURE_CENTRAL_DIRECTORY_END) as [->|Hne].
  - intros [= <-]. split; [lia|]. split; [done|]. intros j Hj. lia.
  - intros (Hlt & Hsig & Hhigher)%IH. split; [lia|]. split; [done|].
    intros j Hj. destruct (decide (j = k)) as [->|]; [congruence|].
    apply Hhigher. lia.
Qed.

Lemma byteRange_lookup (data : Uint8Array) (from to : Z) (i : nat) (b : Z) :
  byteRange data from to !! i = Some b -> data !! (Z.to_nat from + i)%nat = Some b.
Proof.
  unfold byteRange. intros [Hb _]%lookup_take_Some. by rewrite lookup_drop in Hb.
Qed.

Lemma byteRange_getUint32 (data : Uint8Array) (from to : Z) (i : nat) (v : Z) :
  DataView.getUint32 (byteRange data from to) i = Ok v ->
  DataView.getUint32 data (Z.to_nat from + i) = Ok v.
Proof.
  intros (b0 & b1 & b2 & b3 & H0 & H1 & H2 & H3 & ->)%getUint32_lookup.
  apply getUint32_lookup. exists b0, b1, b2, b3.
  rewrite <- !Nat.add_assoc.
  repeat split; try done; by eapply byteRange_lookup.
Qed.

(** A range of bytes that hold no end signature holds none either. *)
Lemma scanSignature_byteRange (data : Uint8Array) (from to : Z) :
  scanSignature data (length data - 3) = Ok None ->
  scanSignature (byteRange data from to) (length (byteRange data from to) - 3)
  = Ok None.
Proof.
  intros Hdata. apply scanSignature_None; [lia|].
  intros i Hi Hsig%byteRange_getUint32.
  assert (Z.to_nat from + i + 4 <= length data)%nat as Hfit.
  { apply getUint32_in_range. eauto. }
  revert Hsig. eapply scanSignature_None; [|exact Hdata|]; lia.
Qed.

Lemma fetchBytes_createFetchSource (data : Uint8Array) (from to : Z) :
  fetchBytes (createFetchSource data) from to = Ok (Some (byteRange data from to)).
Proof.
  unfold fetchBytes, readBytes, pipeThrough. simpl. by rewrite app_nil_r.
Qed.

(** One turn of the loop of [streamCentralDirectory]. *)
Section LoopTurn.
Variable source : BytesSource.t.
Variables (budget : nat) (chunkStart : Z) (centralDirectory bytes : Uint8Array).

Let chunkStart' : Z := Z.max 0 (chunkStart - CENTRAL_DIRECTORY_END_SCAN_CHUNK_SIZE).
Let chunkEnd : Z :=
  Z.min (chunkStart' + CENTRAL_DIRECTORY_END_SCAN_CHUNK_SIZE - 1)
    (BytesSource.length source - 1).

Hypothesis fetched : fetchBytes source chunkStart' chunkEnd = Ok (Some bytes).

(** No signature in the chunk: the loop goes on, whatever [chunkStart]. *)
Lemma streamCentralDirectory_loop_continues :
  scanSignature bytes (length bytes - 3) = Ok None ->
  streamCentralDirectory_loop (S budget) source chunkStart centralDirectory
  = streamCentralDirectory_loop budget source chunkStart'
      (concatUint8Array [bytes; centralDirectory]).
Proof.
  intros Hscan. simpl. fold chunkStart'. fold chunkEnd. rewrite fetched, Hscan.
  rewrite (proj2 (Z.geb_le _ _)); [done|]. subst chunkStart'. lia.
Qed.

(** A signature in the chunk: the loop is left. *)
Lemma streamCentralDirectory_loop_found (i : nat) :
  scanSignature bytes (length bytes - 3) = Ok (Some i) ->
  streamCentralDirectory_loop (S budget) source chunkStart centralDirectory
  = foundSignature source chunkStart' (concatUint8Array [bytes; centralDirectory])
      bytes i.
Proof.
  intros Hscan. simpl. fold chunkStart'. fold chunkEnd. by rewrite fetched, Hscan.
Qed.
End LoopTurn.

(** C3 fails on the code: over a source whose bytes hold no end signature the
    locator does not end with [Central directory not found]; its loop goes on
    whatever the budget.  Once [chunkStart] is 0 it stays 0, the test
    [chunkStart >= 0] holds, and the first chunk is fetched and scanned over
    and over. *)
Theorem streamCentralDirectory_never_gives_up (data : Uint8Array) (budget : nat) :
  scanSignature data (length data - 3) = Ok None ->
  streamCentralDirectory budget (createFetchSource data) = Running.
Proof.
  intros Hdata. unfold streamCentralDirectory.
  generalize (BytesSource.length (createFetchSource data)) as chunkStart.
  generalize ([] : Uint8Array) as centralDirectory.
  induction budget as [|budget IH]; intros centralDirectory chunkStart; [done|].
  erewrite streamCentralDirectory_loop_continues.
  - apply IH.
  - apply fetchBytes_createFetchSource.
  - by apply scanSignature_byteRange.
Qed.

(** Four zero bytes hold no signature, and the loop over them never ends. *)
Lemma streamCentralDirectory_never_gives_up_zeros :
  scanSignature (zeros 4) (length (zeros 4) - 3) = Ok None
  /\ streamCentralDirectory 1000 (createFetchSource (zeros 4)) = Running.
Proof.
  split; [reflexivity|].
  apply (streamCentralDirectory_never_gives_up (zeros 4) 1000). reflexivity.
Defined.

(** The scan over the reversed view finds what the scan finds. *)
Lemma scanSignature_scanBackwards (view : Uint8Array) (candidates : nat) :
  (candidates + 3 <= length view)%nat ->
  scanSignature view candidates
  = Ok (scanBackwards (reverse (take (candidates + 3) view)) candidates).
Proof.
  induction candidates as [|i IH]; intros Hfit; [reflexivity|].
  destruct (lookup_lt_is_Some_2 view i) as [b0 H0]; [lia|].
  destruct (lookup_lt_is_Some_2 view (S i)) as [b1 H1]; [lia|].
  destruct (lookup_lt_is_Some_2 view (S (S i))) as [b2 H2]; [lia|].
  destruct (lookup_lt_is_Some_2 view (S (S (S i)))) as [b3 H3]; [lia|].
  assert (DataView.getUint32 view i
          = Ok (b0 + b1 * 2 ^ 8 + b2 * 2 ^ 16 + b3 * 2 ^ 24)) as Hread.
  { apply getUint32_lookup. exists b0, b1, b2, b3.
    replace (i + 1)%nat with (S i) by lia.
    replace (i + 2)%nat with (S (S i)) by lia.
    replace (i + 3)%nat with (S (S (S i))) by lia. done. }
  assert (reverse (take (i + 3) view) = b2 :: b1 :: b0 :: reverse (take i view))
    as Hearlier.
  { replace (i + 3)%nat with (S (S (S i))) by lia.
    rewrite (take_S_r _ _ _ H2), (take_S_r _ _ _ H1), (take_S_r _ _ _ H0).
    by rewrite !reverse_snoc. }
  replace (S i + 3)%nat with (S (i + 3)) by lia.
  rewrite (take_S_r view (i + 3) b3) by (by replace (i + 3)%nat with (S (S (S i))) by lia).
  rewrite reverse_snoc. simpl. rewrite Hread.
  rewrite IH by lia. rewrite Hearlier. by case_match.
Qed.

Lemma scanSignature_chunk (view : Uint8Array) :
  scanSignature view (length view - 3)
  = Ok (scanBackwards (reverse view) (length view - 3)).
Proof.
  destruct (decide (length view < 3)%nat) as [Hshort|Hlong].
  - by replace (length view - 3)%nat with 0%nat by lia.
  - rewrite scanSignature_scanBackwards by lia.
    by rewrite take_ge by lia.
Qed.

(** The same, with the offset found given as an integer. *)
Lemma scanSignature_chunk_found (view : Uint8Array) (i : Z) :
  Z.of_nat <$> scanBackwards (reverse view) (length view - 3) = Some i ->
  scanSignature view (length view - 3) = Ok (Some (Z.to_nat i)).
Proof.
  rewrite scanSignature_chunk.
  destruct (scanBackwards _ _) as [k|]; [|done].
  intros [= <-]. by rewrite Nat2Z.id.
Qed.

(** ** An end record across two scan chunks *)

(** In [Archive.straddling] the last chunk scanned, bytes 51202 to 102401,
    holds no signature; the chunk before it, bytes 2 to 51201, holds the
    signature of the end record at its offset 51188, but not the field with
    the offset of the directory, which would be at its offset 51204: reading
    it from the view of that chunk is out of bounds. *)
Lemma streamCentralDirectory_straddling (budget : nat) :
  streamCentralDirectory (S (S budget)) (createFetchSource Archive.straddling)
  = Thrown RangeError.
Proof.
  unfold streamCentralDirectory.
  erewrite streamCentralDirectory_loop_continues;
    [ | apply fetchBytes_createFetchSource
      | rewrite scanSignature_chunk; vm_compute; reflexivity ].
  erewrite streamCentralDirectory_loop_found with (i := Z.to_nat 51188);
    [ | apply fetchBytes_createFetchSource
      | apply scanSignature_chunk_found; vm_compute; reflexivity ].
  vm_compute. reflexivity.
Qed.

(** C2 fails on the code when the end record lies across two scan chunks.
    [Archive.straddling] is 102402 bytes long, its end record starts at offset
    51190 and names 51143 as the start of the directory; the boundary between
    the last two chunks scanned is at offset 51202, twelve bytes into the
    record.  The locator finds the signature in the earlier chunk and then
    reads the directory offset from the view of that chunk alone, where it is
    out of bounds: it throws a RangeError and returns no stream. *)
Theorem end_record_across_chunks_not_located (budget : nat) :
  Z.of_nat (length Archive.straddling) = 102402
  /\ DataView.getUint32 Archive.straddling (Z.to_nat 51190)
     = Ok SIGNATURE_CENTRAL_DIRECTORY_END
  /\ DataView.getUint32 Archive.straddling (Z.to_nat (51190 + 16)) = Ok 51143
  /\ Z.max 0 (102402 - CENTRAL_DIRECTORY_END_SCAN_CHUNK_SIZE) = 51190 + 12
  /\ streamCentralDirectory (S (S budget)) (createFetchSource Archive.straddling)
     = Thrown RangeError.
Proof.
  split; [vm_compute; reflexivity|].
  split; [vm_compute; reflexivity|].
  split; [vm_compute; reflexivity|].
  split; [reflexivity|].
  apply streamCentralDirectory_straddling.
Qed.

(** ** The two ways of decoding an archive *)

(** On the sample archive the two ways agree: both deliver [a.txt] and
    [dir/b.txt], with the same contents. *)
Lemma sample_decoded_alike (inflateRaw : Uint8Array -> option Uint8Array) :
  readEntireZip inflateRaw [Archive.sample] predicate
  = iterateZipFiles2 inflateRaw id 1 (createFetchSource Archive.sample) predicate
  /\ fileNames (readEntireZip inflateRaw [Archive.sample] predicate)
     = Closed [ascii "a.txt"; ascii "dir/b.txt"].
Proof. split; vm_compute; reflexivity. Qed.

(** The files come in the order in which the fetched ranges arrive: with the
    range of the second partition first, [dir/b.txt] comes before [a.txt]. *)
Lemma sample_decoded_in_arrival_order (inflateRaw : Uint8Array -> option Uint8Array) :
  fileNames (iterateZipFiles2 inflateRaw reverse 1 (createFetchSource Archive.sample)
               predicate)
  = Closed [ascii "dir/b.txt"; ascii "a.txt"].
Proof. vm_compute. reflexivity. Qed.

(** ** An end record within the last scan chunk *)

Lemma getUint32_drop (data : Uint8Array) (k i : nat) :
  DataView.getUint32 (drop k data) i = DataView.getUint32 data (k + i).
Proof. unfold DataView.getUint32. by rewrite drop_drop. Qed.

Lemma byteRange_to_end (data : Uint8Array) (from : Z) :
  0 <= from ->
  byteRange data from (Z.of_nat (length data) - 1) = drop (Z.to_nat from) data.
Proof.
  intros Hfrom. unfold byteRange. apply take_ge. rewrite length_drop. lia.
Qed.

Lemma byteRange_prefix (data : Uint8Array) (from to : Z) :
  0 <= from <= to ->
  byteRange data from (to - 1) ++ drop (Z.to_nat to) data = drop (Z.to_nat from) data.
Proof.
  intros Hrange. unfold byteRange.
  replace (Z.to_nat to) with (Z.to_nat from + Z.to_nat (to - 1 + 1 - from))%nat by lia.
  rewrite <- drop_drop. apply take_drop.
Qed.

(** When the last signature in the archive, at offset [p], and the 16 bytes
    after it lie in the last scan chunk, the locator returns the archive from
    the start of the central directory on.  This is the case of an end record
    without comment, which is the last 22 bytes of the archive. *)
Lemma last_chunk_end_record_located (data : Uint8Array) (p : nat)
    (dirStart : Z) (budget : nat) :
  Z.of_nat (length data) - CENTRAL_DIRECTORY_END_SCAN_CHUNK_SIZE <= Z.of_nat p ->
  (p + 20 <= length data)%nat ->
  scanSignature data (length data - 3) = Ok (Some p) ->
  DataView.getUint32 data (p + 16) = Ok dirStart ->
  0 <= dirStart ->
  streamCentralDirectory (S budget) (createFetchSource data)
  = Returned (blobStream (drop (Z.to_nat dirStart) data)).
Proof.
  intros Hchunk Hfit (_ & Hsig & Hlater)%scanSignature_Some_inv Hdir Hpos.
  assert (forall j, (p < j)%nat ->
            DataView.getUint32 data j <> Ok SIGNATURE_CENTRAL_DIRECTORY_END) as Hlast.
  { intros j Hj.
    destruct (decide (j < length data - 3)%nat) as [Hin|Hout]; [apply Hlater; lia|].
    intros Hread. assert (j + 4 <= length data)%nat; [|lia].
    apply getUint32_in_range. eauto. }
  unfold streamCentralDirectory. simpl BytesSource.length.
  set (chunkStart := Z.max 0 (Z.of_nat (length data) - CENTRAL_DIRECTORY_END_SCAN_CHUNK_SIZE)).
  set (view := drop (Z.to_nat chunkStart) data).
  assert (0 <= chunkStart) as Hzero by (unfold chunkStart; lia).
  assert (Z.to_nat chunkStart <= p)%nat as Hstart
    by (unfold chunkStart, CENTRAL_DIRECTORY_END_SCAN_CHUNK_SIZE in *; lia).
  assert (length view = length data - Z.to_nat chunkStart)%nat as Hview
    by (unfold view; apply length_drop).
  erewrite streamCentralDirectory_loop_found with (bytes := view) (i := (p - Z.to_nat chunkStart)%nat).
  - unfold foundSignature, concatUint8Array. simpl concat. rewrite !app_nil_r.
    rewrite decide_False by lia.
    unfold view at 1. rewrite getUint32_drop.
    replace (Z.to_nat chunkStart + (p - Z.to_nat chunkStart + 12 + 4))%nat
      with (p + 16)%nat by lia.
    rewrite Hdir. fold chunkStart.
    destruct (Z.ltb_spec dirStart chunkStart) as [Hlt|Hge].
    + rewrite fetchBytes_createFetchSource.
      unfold view. by rewrite byteRange_prefix by lia.
    + destruct (Z.gtb_spec dirStart chunkStart) as [Hgt|Hle].
      * unfold view. rewrite drop_drop. do 3 f_equal. lia.
      * unfold view. do 3 f_equal. lia.
  - simpl BytesSource.length. fold chunkStart.
    rewrite fetchBytes_createFetchSource.
    replace (Z.min (chunkStart + CENTRAL_DIRECTORY_END_SCAN_CHUNK_SIZE - 1)
               (Z.of_nat (length data) - 1))
      with (Z.of_nat (length data) - 1) by (unfold CENTRAL_DIRECTORY_END_SCAN_CHUNK_SIZE in *; lia).
    by rewrite byteRange_to_end by lia.
  - apply scanSignature_Some; [lia | lia | |].
    + unfold view. rewrite getUint32_drop.
      by replace (Z.to_nat chunkStart + (p - Z.to_nat chunkStart))%nat with p by lia.
    + intros j Hj. unfold view. rewrite getUint32_drop. apply Hlast. lia.
Qed.

(** The sample archive, whose end record has no comment, is located. *)
Lemma last_chunk_end_record_located_sample :
  streamCentralDirectory 1 (createFetchSource Archive.sample)
  = Returned (blobStream (drop 138 Archive.sample)).
Proof.
  apply (last_chunk_end_record_located Archive.sample 294 138 0);
    vm_compute; (reflexivity || lia || discriminate).
Defined.

(** ** An end record whose comment is one byte short of the chunk size *)

(** In [Archive.longComment] the last chunk scanned holds the comment only;
    the chunk before it holds the signature and the directory offset.  The
    central directory is located and decoded, and the file is extracted. *)
Lemma comment_one_short_of_chunk_located
    (inflateRaw : Uint8Array -> option Uint8Array) (budget : nat) :
  Z.of_nat (length Archive.longComment)
  = 96 + 22 + (CENTRAL_DIRECTORY_END_SCAN_CHUNK_SIZE - 1)
  /\ centralDirectoryEntries (S (S budget)) (createFetchSource Archive.longComment)
     = Closed [Archive.directoryEntry Archive.aTxt 0]
  /\ fileNames (iterateZipFiles2 inflateRaw id (S (S budget))
                  (createFetchSource Archive.longComment) predicate)
     = Closed [ascii "a.txt"].
Proof.
  assert (centralDirectoryEntries (S (S budget)) (createFetchSource Archive.longComment)
          = Closed [Archive.directoryEntry Archive.aTxt 0]) as Hdirectory.
  { unfold centralDirectoryEntries, streamCentralDirectory.
    erewrite streamCentralDirectory_loop_continues;
      [ | apply fetchBytes_createFetchSource
        | rewrite scanSignature_chunk; vm_compute; reflexivity ].
    erewrite streamCentralDirectory_loop_found with (i := Z.to_nat 96);
      [ | apply fetchBytes_createFetchSource
        | apply scanSignature_chunk_found; vm_compute; reflexivity ].
    vm_compute. reflexivity. }
  split; [vm_compute; reflexivity|]. split; [done|].
  unfold iterateZipFiles2. rewrite Hdirectory. vm_compute. reflexivity.
Qed.

(** ** Decoding does not depend on the chunking of the stream *)

Lemma chunkingBlind_ret {A} (a : A) : chunkingBlind (ret a).
Proof. by intros stream1 stream2 Hsame. Qed.

Lemma chunkingBlind_lift {A} (r : result A) : chunkingBlind (lift r).
Proof. intros stream1 stream2 Hsame. unfold lift. by destruct r. Qed.

Lemma chunkingBlind_nonNull {A} (v : option A) : chunkingBlind (nonNull v).
Proof. apply chunkingBlind_lift. Qed.

Lemma chunkingBlind_bind {A B} (m : Reader A) (k : A -> Reader B) :
  chunkingBlind m -> (forall a, chunkingBlind (k a)) -> chunkingBlind (bind m k).
Proof.
  intros Hm Hk stream1 stream2 Hsame. unfold bind.
  specialize (Hm stream1 stream2 Hsame).
  destruct (m stream1) as [[a1 rest1]|e1], (m stream2) as [[a2 rest2]|e2]; try done.
  destruct Hm as [<- Hrest]. by apply Hk.
Qed.

Lemma chunkingBlind_if {A} (b : bool) (m1 m2 : Reader A) :
  chunkingBlind m1 -> chunkingBlind m2 -> chunkingBlind (if b then m1 else m2).
Proof. by destruct b. Qed.

Lemma feed_concatBytesStream (chunks collected : list Uint8Array) :
  feed concatBytesStream collected chunks = ([], Ok (collected ++ chunks)).
Proof.
  revert collected. induction chunks as [|chunk rest IH]; intros collected; simpl.
  - by rewrite app_nil_r.
  - rewrite IH. by rewrite <- app_assoc.
Qed.

Lemma readBytes_all (stream : ReadableByteStream) :
  readBytes None stream = Ok (Some (concat stream), []).
Proof.
  unfold readBytes, pipeThrough. simpl chunksOf.
  change (start concatBytesStream) with ([] : list Uint8Array).
  by rewrite feed_concatBytesStream.
Qed.

Lemma chunkingBlind_readBytes (bytes : option nat) : chunkingBlind (readBytes bytes).
Proof.
  intros stream1 stream2 Hsame. destruct bytes as [n|].
  - rewrite !readBytes_exact, !readBytes_rest, Hsame. done.
  - rewrite !readBytes_all, Hsame. done.
Qed.

Lemma chunkingBlind_readString (bytes : nat) : chunkingBlind (readString bytes).
Proof.
  intros stream1 stream2 Hsame. unfold readString.
  pose proof (limitBytes_concat stream1 bytes) as [Hvalue1 Hrest1].
  pose proof (limitBytes_concat stream2 bytes) as [Hvalue2 Hrest2].
  destruct (limitBytes stream1 bytes) as [limited1 rest1],
           (limitBytes stream2 bytes) as [limited2 rest2]; simpl in *.
  unfold TextDecoderStream. rewrite Hvalue1, Hvalue2, Hrest1, Hrest2, Hsame. done.
Qed.

Lemma chunkingBlind_readBody inflateRaw (compressedSize compressionMethod : Z) :
  chunkingBlind (readBody inflateRaw compressedSize compressionMethod).
Proof.
  intros stream1 stream2 Hsame. unfold readBody.
  pose proof (limitBytes_concat stream1 (Z.to_nat compressedSize)) as [Hvalue1 Hrest1].
  pose proof (limitBytes_concat stream2 (Z.to_nat compressedSize)) as [Hvalue2 Hrest2].
  destruct (limitBytes stream1 _) as [limited1 rest1],
           (limitBytes stream2 _) as [limited2 rest2]; simpl in *.
  assert (concat limited1 = concat limited2) as Hlimited by congruence.
  destruct (compressionMethod =? 8).
  - unfold DecompressionStream. rewrite Hlimited.
    destruct (inflateRaw (concat limited2)); simpl; [|done].
    split; [done | congruence].
  - unfold pipeThrough. simpl chunksOf.
    change (start concatBytesStream) with ([] : list Uint8Array).
    rewrite !feed_concatBytesStream. simpl. rewrite Hlimited.
    split; [done | congruence].
Qed.

Ltac chunkingBlind_steps :=
  repeat first
    [ apply chunkingBlind_ret
    | apply chunkingBlind_nonNull
    | apply chunkingBlind_lift
    | apply chunkingBlind_readBytes
    | apply chunkingBlind_readString
    | apply chunkingBlind_readBody
    | apply chunkingBlind_if
    | apply chunkingBlind_bind; [|intros ?] ].

Lemma chunkingBlind_readSignature : chunkingBlind readSignature.
Proof. unfold readSignature, readView, getUint32. chunkingBlind_steps. Qed.

Lemma chunkingBlind_readFileEntry inflateRaw (skipSignature : bool) :
  chunkingBlind (readFileEntry inflateRaw skipSignature).
Proof.
  unfold readFileEntry, getUint16, getUint32, readView.
  apply chunkingBlind_bind;
    [destruct skipSignature; [chunkingBlind_steps | apply chunkingBlind_readSignature]|].
  intros signature. chunkingBlind_steps.
Qed.

Lemma chunkingBlind_readCentralDirectory (skipSignature : bool) :
  chunkingBlind (readCentralDirectory skipSignature).
Proof.
  unfold readCentralDirectory, getUint16, getUint32, readView.
  apply chunkingBlind_bind;
    [destruct skipSignature; [chunkingBlind_steps | apply chunkingBlind_readSignature]|].
  intros signature. chunkingBlind_steps.
Qed.

Lemma chunkingBlind_readEndCentralDirectory (skipSignature : bool) :
  chunkingBlind (readEndCentralDirectory skipSignature).
Proof.
  unfold readEndCentralDirectory, getUint16, getUint32, readView.
  apply chunkingBlind_bind;
    [destruct skipSignature; [chunkingBlind_steps | apply chunkingBlind_readSignature]|].
  intros signature. chunkingBlind_steps.
Qed.

Lemma chunkingBlind_readNextEntry inflateRaw : chunkingBlind (readNextEntry inflateRaw).
Proof.
  unfold readNextEntry.
  apply chunkingBlind_bind; [apply chunkingBlind_readSignature|].
  intros signature.
  repeat apply chunkingBlind_if;
    try (apply chunkingBlind_bind; [|intros ?; apply chunkingBlind_ret]).
  - apply chunkingBlind_readFileEntry.
  - apply chunkingBlind_readCentralDirectory.
  - apply chunkingBlind_readEndCentralDirectory.
  - apply chunkingBlind_ret.
Qed.

Lemma pulls_chunking {A} (read : Reader (option A)) (budget : nat)
    (stream1 stream2 : ReadableByteStream) :
  chunkingBlind read -> concat stream1 = concat stream2 ->
  pulls read budget stream1 = pulls read budget stream2.
Proof.
  intros Hread. revert stream1 stream2.
  induction budget as [|budget IH]; intros stream1 stream2 Hsame; [done|]. simpl.
  specialize (Hread stream1 stream2 Hsame).
  destruct (read stream1) as [[a1 rest1]|e1], (read stream2) as [[a2 rest2]|e2]; try done.
  - destruct Hread as [<- Hrest]. destruct a1; [|done]. f_equal. by apply IH.
  - by subst.
Qed.

(** Whole-archive decoding gives the same files on every stream that
    delivers the same bytes. *)
Lemma readEntireZip_chunking inflateRaw (stream1 stream2 : ReadableByteStream)
    (selected : FileEntry.t -> bool) :
  concat stream1 = concat stream2 ->
  readEntireZip inflateRaw stream1 selected = readEntireZip inflateRaw stream2 selected.
Proof.
  intros Hsame. unfold readEntireZip, zipEntries, byteLength. rewrite Hsame.
  by rewrite (pulls_chunking _ _ stream1 stream2 (chunkingBlind_readNextEntry inflateRaw) Hsame).
Qed.

(** C1 fails on the code for [Archive.straddling], an archive of one stored
    file [a] with a long archive comment.  Decoded as a whole from a
    forward-only stream, however the stream is cut into chunks, it delivers
    the file [a] with its 51112 bytes; decoded through its central directory
    it delivers no file at all, in whatever order the fetched ranges arrive,
    because the central directory is not located (the locator throws, the
    pipeline is aborted and the sequence of files is closed empty). *)
Theorem straddling_archive_decoded_differently
    (inflateRaw : Uint8Array -> option Uint8Array)
    (arrival : list Ticket -> list Ticket) (budget : nat)
    (stream : ReadableByteStream) :
  concat stream = Archive.straddling ->
  fileNames (readEntireZip inflateRaw stream predicate) = Closed [ascii "a"]
  /\ map (fun file => bool_decide (FileEntry.bytes file = replicate (Z.to_nat 51112) 65))
       (chunksOf (readEntireZip inflateRaw stream predicate))
     = [true]
  /\ iterateZipFiles2 inflateRaw arrival (S (S budget))
       (createFetchSource Archive.straddling) predicate
     = Closed [].
Proof.
  intros Hstream.
  rewrite (readEntireZip_chunking inflateRaw stream [Archive.straddling])
    by (rewrite Hstream; symmetry; apply app_nil_r).
  split; [vm_compute; reflexivity|].
  split; [vm_compute; reflexivity|].
  unfold iterateZipFiles2, centralDirectoryEntries.
  rewrite streamCentralDirectory_straddling. reflexivity.
Qed.

(** The archive delivered in one chunk, with the ranges arriving in the order
    of the requests. *)
Lemma straddling_archive_decoded_differently_one_chunk :
  concat [Archive.straddling] = Archive.straddling
  /\ fileNames (readEntireZip (fun _ => None) [Archive.straddling] predicate)
     = Closed [ascii "a"]
  /\ iterateZipFiles2 (fun _ => None) id 2
       (createFetchSource Archive.straddling) predicate
     = Closed [].
Proof.
  pose proof (straddling_archive_decoded_differently (fun _ => None) id 0
                [Archive.straddling] (app_nil_r _)) as (Hnames & _ & Hselective).
  split; [apply app_nil_r|]. split; [exact Hnames | exact Hselective].
Defined.

(** ** The budgets are never used up *)

Lemma finished_enqueue {A} (chunk : A) (r : ReadableStream A) :
  finished (enqueue chunk r) <-> finished r.
Proof. by destruct r. Qed.

Lemma finished_pipeThrough {I O} (r : ReadableStream I) (t : TransformStream I O) :
  finished r -> finished (pipeThrough r t).
Proof.
  unfold pipeThrough. destruct (feed t (start t) (chunksOf r)) as [outs [st|e]]; [|done].
  by destruct r.
Qed.

(** A reader that opens with the signature and gives a record only for a
    signature other than 0 takes at least one byte for every record. *)
Lemma advances_strictly_after_signature {A} (k : Z -> Reader (option A))
    (stream stream' : ReadableByteStream) (entry : A) :
  (forall signature, advances (k signature)) ->
  (forall s, match k 0 s with Ok (Some _, _) => False | _ => True end) ->
  bind readSignature k stream = Ok (Some entry, stream') ->
  (byteLength stream' < byteLength stream)%nat.
Proof.
  intros Hk Hzero. unfold bind.
  destruct (readSignature stream) as [[signature stream1]|] eqn:Hsig; [|done].
  intros Hrest.
  assert (signature <> 0) as Hne.
  { intros ->. specialize (Hzero stream1). by rewrite Hrest in Hzero. }
  pose proof (readSignature_advances_strictly _ _ _ Hsig Hne).
  pose proof (Hk signature _ _ _ Hrest). lia.
Qed.

Lemma readCentralDirectory_advances_strictly (stream stream' : ReadableByteStream)
    (entry : CentralDirectoryEntry.t) :
  readCentralDirectory false stream = Ok (Some entry, stream') ->
  (byteLength stream' < byteLength stream)%nat.
Proof.
  apply advances_strictly_after_signature; [|done].
  intros signature. unfold getUint16, getUint32, readView. advances_steps.
Qed.

Lemma readFileEntry_advances_strictly inflateRaw (stream stream' : ReadableByteStream)
    (entry : FileEntry.t) :
  readFileEntry inflateRaw false stream = Ok (Some entry, stream') ->
  (byteLength stream' < byteLength stream)%nat.
Proof.
  apply advances_strictly_after_signature; [|done].
  intros signature. unfold getUint16, getUint32, readView. advances_steps.
Qed.

Lemma pulls_finished {A} (read : Reader (option A)) (budget : nat)
    (stream : ReadableByteStream) :
  (forall s entry s', read s = Ok (Some entry, s') ->
     (byteLength s' < byteLength s)%nat) ->
  (byteLength stream < budget)%nat ->
  finished (pulls read budget stream).
Proof.
  intros Hread. revert stream.
  induction budget as [|budget IH]; intros stream Hbudget; [lia|]. simpl.
  destruct (read stream) as [[[entry|] stream']|] eqn:Hnext; try done.
  apply finished_enqueue, IH. apply Hread in Hnext. lia.
Qed.

Lemma zipEntries_finished inflateRaw (stream : ReadableByteStream) :
  finished (zipEntries inflateRaw stream).
Proof.
  apply pulls_finished; [|lia].
  intros s entry s'. apply readNextEntry_advances_strictly.
Qed.

(** Once the locator has left its loop, the stream of directory entries
    finishes. *)
Lemma centralDirectoryEntries_finished (budget : nat) (source : BytesSource.t) :
  streamCentralDirectory budget source <> Running ->
  finished (centralDirectoryEntries budget source).
Proof.
  unfold centralDirectoryEntries.
  destruct (streamCentralDirectory budget source); try done.
  intros _. apply pulls_finished; [|lia].
  intros s entry s'. apply readCentralDirectory_advances_strictly.
Qed.

Section Pull.
Variable inflateRaw : Uint8Array -> option Uint8Array.

Lemma pullFiles_finished (budget : nat) (byteStreams : list Ticket) :
  (pendingWork byteStreams < budget)%nat ->
  finished (pullFiles inflateRaw budget byteStreams).
Proof.
  revert byteStreams.
  induction budget as [|budget IH]; intros byteStreams Hbudget; [lia|]. simpl.
  destruct byteStreams as [|[zipEntries stream] rest]; [done|].
  unfold pendingWork in *. simpl in Hbudget.
  destruct (readFileEntry inflateRaw false stream) as [[[file|] stream']|] eqn:Hread;
    [| |done].
  - apply readFileEntry_advances_strictly in Hread.
    assert (finished (pullFiles inflateRaw budget ((zipEntries, stream') :: rest))).
    { apply IH. simpl. lia. }
    destruct (isOneOfRequestedFiles zipEntries file); [by apply finished_enqueue | done].
  - apply IH. lia.
Qed.

(** Over a source that serves every range, selective decoding finishes once
    the locator has left its loop. *)
Lemma iterateZipFiles2_finished (arrival : list Ticket -> list Ticket)
    (budget : nat) (data : Uint8Array) (selected : CentralDirectoryEntry.t -> bool) :
  streamCentralDirectory budget (createFetchSource data) <> Running ->
  finished (iterateZipFiles2 inflateRaw arrival budget (createFetchSource data) selected).
Proof.
  intros Hlocated. unfold iterateZipFiles2.
  pose proof (finished_pipeThrough _ (partitionNearbyEntries defaultMaxGap)
                (finished_pipeThrough _ (filterStream selected)
                   (centralDirectoryEntries_finished _ _ Hlocated))) as Hparts.
  destruct (pipeThrough _ (partitionNearbyEntries defaultMaxGap))
    as [partitions| |]; [|done|done].
  unfold fetchPartitionedEntries.
  rewrite (proj2 (forallb_forall _ _)).
  - apply pullFiles_finished. lia.
  - intros [zipEntries outcome] Hin. apply bool_decide_eq_true.
    unfold requestAll in Hin. apply in_map_iff in Hin as (p & [= <- <-] & Hp).
    apply list_elem_of_In, list_elem_of_filter in Hp as [Hne _].
    unfold requestChunkRange.
    destruct (requestedRange_nonempty p) as (from & to & ->); [by destruct p|].
    by eexists.
Qed.
End Pull.

(** ** An end record in the chunk before the last *)

Lemma byteRange_take (data : Uint8Array) (from : Z) (n : nat) :
  0 <= from ->
  byteRange data from (from + Z.of_nat n - 1) = take n (drop (Z.to_nat from) data).
Proof. intros Hfrom. unfold byteRange. f_equal. lia. Qed.

(** X25: when the last scan chunk holds no signature and the chunk before it
    holds the signature, at offset [p] of the archive, together with the 16
    bytes after it, the locator returns a stream that starts with the bytes
    of the archive from the start of the central directory up to these 20
    bytes of the end record.  This is the case of a comment that is one byte
    short of the chunk size: the end record then starts 21 bytes before the
    last chunk. *)
Lemma second_chunk_end_record_located (data : Uint8Array) (p : nat)
    (dirStart : Z) (budget : nat) :
  let chunkSize := CENTRAL_DIRECTORY_END_SCAN_CHUNK_SIZE in
  let chunkStart1 := Z.of_nat (length data) - chunkSize in
  let chunkStart2 := Z.max 0 (chunkStart1 - chunkSize) in
  let chunk1 := drop (Z.to_nat chunkStart1) data in
  let chunk2 := take (Z.to_nat chunkSize) (drop (Z.to_nat chunkStart2) data) in
  0 < chunkStart1 ->
  scanSignature chunk1 (length chunk1 - 3) = Ok None ->
  chunkStart2 <= Z.of_nat p -> Z.of_nat p + 20 <= chunkStart2 + chunkSize ->
  scanSignature chunk2 (length chunk2 - 3) = Ok (Some (p - Z.to_nat chunkStart2)%nat) ->
  DataView.getUint32 data (p + 16) = Ok dirStart ->
  0 <= dirStart <= Z.of_nat p ->
  exists stream,
    streamCentralDirectory (S (S budget)) (createFetchSource data) = Returned stream
    /\ take (p + 20 - Z.to_nat dirStart) (concat stream)
       = take (p + 20 - Z.to_nat dirStart) (drop (Z.to_nat dirStart) data).
Proof.
  intros chunkSize chunkStart1 chunkStart2 chunk1 chunk2
    Hlong Hscan1 Hstart Hfit Hscan2 Hdir Hrange.
  assert (chunkSize = 51200) as Hsize by done.
  assert (chunkStart1 = Z.of_nat (length data) - chunkSize) as Hstart1 by done.
  assert (chunkStart2 = Z.max 0 (chunkStart1 - chunkSize)) as Hstart2 by done.
  assert (length chunk2 = Z.to_nat chunkSize) as Hlen2.
  { unfold chunk2. rewrite length_take, length_drop. lia. }
  unfold streamCentralDirectory. simpl BytesSource.length.
  erewrite streamCentralDirectory_loop_continues with (bytes := chunk1).
  2:{ simpl BytesSource.length. rewrite fetchBytes_createFetchSource.
      fold chunkSize. fold chunkStart1.
      rewrite Z.max_r by lia.
      replace (Z.min (chunkStart1 + chunkSize - 1) (Z.of_nat (length data) - 1))
        with (Z.of_nat (length data) - 1) by lia.
      by rewrite byteRange_to_end by lia. }
  2: done.
  fold chunkSize. fold chunkStart1. rewrite (Z.max_r 0 chunkStart1) by lia.
  erewrite streamCentralDirectory_loop_found
    with (bytes := chunk2) (i := (p - Z.to_nat chunkStart2)%nat).
  2:{ simpl BytesSource.length. rewrite fetchBytes_createFetchSource.
      fold chunkSize. fold chunkStart2.
      replace (Z.min (chunkStart2 + chunkSize - 1) (Z.of_nat (length data) - 1))
        with (chunkStart2 + Z.of_nat (Z.to_nat chunkSize) - 1) by lia.
      by rewrite byteRange_take by lia. }
  2: done.
  fold chunkSize. fold chunkStart2.
  unfold foundSignature, concatUint8Array. simpl concat. rewrite !app_nil_r.
  rewrite decide_False by (rewrite length_app; lia).
  assert (DataView.getUint32 chunk2 (p - Z.to_nat chunkStart2 + 12 + 4) = Ok dirStart)
    as ->.
  { apply getUint32_lookup in Hdir as (b0 & b1 & b2 & b3 & H0 & H1 & H2 & H3 & ->).
    apply getUint32_lookup. exists b0, b1, b2, b3.
    unfold chunk2.
    rewrite !lookup_take_lt by lia. rewrite !lookup_drop.
    repeat split; try done;
      match goal with |- data !! ?i = _ =>
        match goal with H : data !! ?j = _ |- _ =>
          replace i with j by lia; exact H
        end
      end. }
  assert (forall k : nat,
            (Z.to_nat dirStart + k <= Z.to_nat chunkStart2 + Z.to_nat chunkSize)%nat ->
            (Z.to_nat chunkStart2 <= Z.to_nat dirStart)%nat ->
            take k (drop (Z.to_nat dirStart - Z.to_nat chunkStart2) chunk2)
            = take k (drop (Z.to_nat dirStart) data)) as Hprefix.
  { intros k Hk Hle. unfold chunk2.
    set (a := (Z.to_nat dirStart - Z.to_nat chunkStart2)%nat).
    replace (Z.to_nat chunkSize) with (a + (Z.to_nat chunkSize - a))%nat by lia.
    rewrite <- take_drop_commute, drop_drop, take_take.
    f_equal; [lia | f_equal; lia]. }
  destruct (Z.ltb_spec dirStart chunkStart2) as [Hlt|Hge].
  - rewrite fetchBytes_createFetchSource. eexists. split; [done|].
    simpl concat. rewrite app_nil_r, app_assoc.
    rewrite take_app_le.
    2:{ unfold byteRange. rewrite length_app, length_take, length_drop. lia. }
    replace (chunkStart2 - 1) with (dirStart + Z.of_nat (Z.to_nat (chunkStart2 - dirStart)) - 1) by lia.
    rewrite byteRange_take by lia.
    unfold chunk2.
    replace (Z.to_nat chunkStart2)
      with (Z.to_nat dirStart + Z.to_nat (chunkStart2 - dirStart))%nat by lia.
    rewrite <- (drop_drop data).
    set (tail := drop (Z.to_nat dirStart) data).
    rewrite <- (take_drop (Z.to_nat (chunkStart2 - dirStart)) tail) at 3.
    rewrite !take_app_ge by (rewrite length_take; lia).
    (* both sides: the first part whole, then a prefix of what follows *)
    rewrite length_take.
    assert (Z.to_nat (chunkStart2 - dirStart) <= length tail)%nat as Htail.
    { unfold tail. rewrite length_drop. lia. }
    rewrite Nat.min_l by lia.
    rewrite take_take. do 2 f_equal. lia.
  - destruct (Z.gtb_spec dirStart chunkStart2) as [Hgt|Hle].
    + eexists. split; [done|]. simpl concat. rewrite app_nil_r.
      rewrite drop_app_le by lia.
      rewrite take_app_le by (rewrite length_drop; lia).
      replace (Z.to_nat (dirStart - chunkStart2))
        with (Z.to_nat dirStart - Z.to_nat chunkStart2)%nat by lia.
      apply Hprefix; lia.
    + eexists. split; [done|]. simpl concat. rewrite app_nil_r.
      rewrite take_app_le by lia.
      rewrite <- Hprefix by lia.
      by replace (Z.to_nat dirStart - Z.to_nat chunkStart2)%nat with 0%nat by lia.
Qed.

(** [Archive.longComment] is such an archive: the stream returned starts
    with the 51 bytes of its central directory and the first 20 bytes of its
    end record. *)
Lemma second_chunk_end_record_located_longComment :
  exists stream,
    streamCentralDirectory 2 (createFetchSource Archive.longComment) = Returned stream
    /\ take 71 (concat stream) = take 71 (drop 45 Archive.longComment).
Proof.
  apply (second_chunk_end_record_located Archive.longComment 96 45 0);
    try (rewrite scanSignature_chunk); vm_compute;
    first [reflexivity | discriminate | split; discriminate].
Defined.

(** * Archives of stored files: the two ways of decoding agree *)

(** ** Little-endian fields *)

Lemma le16_value (n : Z) :
  0 <= n < 2 ^ 16 -> n mod 256 + n / 256 mod 256 * 2 ^ 8 = n.
Proof.
  change (2 ^ 16) with 65536. change (2 ^ 8) with 256.
  intros Hn. Z.div_mod_to_equations. lia.
Qed.

Lemma le32_value (n : Z) :
  0 <= n < 2 ^ 32 ->
  n mod 256 + n / 2 ^ 8 mod 256 * 2 ^ 8 + n / 2 ^ 16 mod 256 * 2 ^ 16
  + n / 2 ^ 24 mod 256 * 2 ^ 24 = n.
Proof.
  change (2 ^ 32) with 4294967296. change (2 ^ 8) with 256.
  change (2 ^ 16) with 65536. change (2 ^ 24) with 16777216.
  intros Hn. Z.div_mod_to_equations. lia.
Qed.

Lemma ascii_nonnegative (s : string) : Forall (fun c => 0 <= c) (ascii s).
Proof. induction s; simpl; constructor; [lia | done]. Qed.

(** ** ASCII text *)

Lemma codePoints_ascii (bytes : list Z) :
  Forall (fun c => c < 128) bytes ->
  TextDecoder.codePoints TextDecoder.idle bytes = bytes.
Proof.
  induction 1 as [|b rest Hb _ IH]; [done|].
  simpl. unfold TextDecoder.lead.
  rewrite (proj2 (Z.leb_le b 127)) by lia. simpl. by rewrite IH.
Qed.

Lemma decode_ascii (bytes : list Z) :
  Forall (fun c => c < 128) bytes -> TextDecoder.decode bytes = bytes.
Proof.
  intros Hascii. unfold TextDecoder.decode. rewrite codePoints_ascii by done.
  assert (flat_map TextDecoder.codeUnits bytes = bytes) as Hunits.
  { induction Hascii as [|b rest Hb _ IH]; [done|]. simpl.
    unfold TextDecoder.codeUnits at 1.
    rewrite (proj2 (Z.ltb_lt b 65536)) by lia. simpl. by rewrite IH. }
  destruct Hascii as [|b rest Hb Hrest]; [done|].
  assert (b <> 65279) as Hbom by lia.
  destruct b as [|p|p]; try done.
  do 16 (destruct p as [p|p|]; try done).
Qed.

(** ** Decoding up to chunking *)

Lemma decodes_ret {A} (a : A) (input : Uint8Array) : decodes (ret a) input a input.
Proof. intros stream Hstream. by exists stream. Qed.

Lemma decodes_bind {A B} (m : Reader A) (k : A -> Reader B)
    (input middle rest : Uint8Array) (a : A) (b : B) :
  decodes m input a middle -> decodes (k a) middle b rest ->
  decodes (bind m k) input b rest.
Proof.
  intros Hm Hk stream Hstream. unfold bind.
  destruct (Hm stream Hstream) as (stream1 & -> & Hmiddle).
  by apply Hk.
Qed.

Lemma decodes_lift {A} (r : result A) (a : A) (input : Uint8Array) :
  r = Ok a -> decodes (lift r) input a input.
Proof. intros ->. apply decodes_ret. Qed.

Lemma decodes_nonNull {A} (a : A) (input : Uint8Array) :
  decodes (nonNull (Some a)) input a input.
Proof. apply decodes_ret. Qed.

Lemma decodes_readBytes (n : nat) (bytes rest : Uint8Array) :
  length bytes = n -> decodes (readBytes (Some n)) (bytes ++ rest) (Some bytes) rest.
Proof.
  intros <- stream Hstream. exists (limitBytes stream (length bytes)).2.
  rewrite readBytes_exact, readBytes_rest, Hstream.
  rewrite take_app_length, drop_app_length, length_app.
  replace (length bytes - (length bytes + length rest))%nat with 0%nat by lia.
  by rewrite app_nil_r.
Qed.

Lemma decodes_readView (n : nat) (bytes rest : Uint8Array) :
  length bytes = n -> decodes (readView n) (bytes ++ rest) bytes rest.
Proof.
  intros Hn. unfold readView.
  eapply decodes_bind; [by apply decodes_readBytes | apply decodes_nonNull].
Qed.

Lemma decodes_readString (n : nat) (bytes rest : Uint8Array) :
  length bytes = n ->
  decodes (readString n) (bytes ++ rest) (Some (TextDecoder.decode bytes)) rest.
Proof.
  intros <- stream Hstream. unfold readString.
  pose proof (limitBytes_concat stream (length bytes)) as [Hvalue Hrest].
  destruct (limitBytes stream (length bytes)) as [limited stream']; simpl in *.
  exists stream'. rewrite Hvalue, Hrest, Hstream, take_app_length, drop_app_length.
  unfold TextDecoderStream, pipeThrough. simpl. by rewrite app_nil_r.
Qed.

Lemma decodes_readBody inflateRaw (compressedSize compressionMethod : Z)
    (bytes rest : Uint8Array) :
  compressionMethod <> 8 -> compressedSize = Z.of_nat (length bytes) ->
  decodes (readBody inflateRaw compressedSize compressionMethod) (bytes ++ rest)
    bytes rest.
Proof.
  intros Hstored -> stream Hstream. unfold readBody. rewrite Nat2Z.id.
  pose proof (limitBytes_concat stream (length bytes)) as [Hvalue Hrest].
  destruct (limitBytes stream (length bytes)) as [limited stream']; simpl in *.
  exists stream'. rewrite Hrest, Hstream, drop_app_length.
  rewrite (proj2 (Z.eqb_neq _ _)) by done.
  unfold pipeThrough. simpl chunksOf.
  change (start concatBytesStream) with ([] : list Uint8Array).
  rewrite feed_concatBytesStream. simpl.
  by rewrite Hvalue, Hstream, take_app_length.
Qed.

Lemma decodes_readSignature (signature rest : Uint8Array) (value : Z) :
  length signature = 4%nat -> DataView.getUint32 signature 0 = Ok value ->
  decodes readSignature (signature ++ rest) value rest.
Proof.
  intros Hlength Hvalue. unfold readSignature.
  eapply decodes_bind; [by apply decodes_readView | by apply decodes_lift].
Qed.

(** ** Decoding the records of an archive *)

Ltac field_range :=
  unfold Archive.size in *;
  change (2 ^ 16) with 65536 in *; change (2 ^ 32) with 4294967296 in *;
  lia.

(** A field read from a header: the value that was written. *)
Ltac header_field :=
  apply decodes_lift;
  unfold DataView.getUint16, DataView.getUint32, Archive.localHeader,
    Archive.centralHeader, Archive.endHeader, Archive.le16, Archive.le32;
  cbn [app skipn];
  apply (f_equal Ok);
  first [ apply le32_value; field_range | apply le16_value; field_range ].

Ltac read_field := eapply decodes_bind; [header_field|]; cbn beta.

Section Records.
Variable inflateRaw : Uint8Array -> option Uint8Array.

Lemma decodes_readFileEntry (f : Archive.stored) (skipSignature : bool)
    (rest : Uint8Array) :
  Archive.wellFormed f ->
  decodes (readFileEntry inflateRaw skipSignature)
    ((if skipSignature then [] else Archive.le32 SIGNATURE_FILE)
     ++ Archive.localHeader f ++ ascii (Archive.name f) ++ Archive.content f ++ rest)
    (Some (Archive.fileEntry f)) rest.
Proof.
  intros [Hascii Hname Hcontent Hchecksum Hcomment].
  unfold readFileEntry.
  eapply (decodes_bind _ _ _ (Archive.localHeader f ++ _)).
  { destruct skipSignature; [apply decodes_ret | by apply decodes_readSignature]. }
  cbn beta. rewrite Z.eqb_refl. cbn [negb].
  eapply decodes_bind; [by apply decodes_readView|]. cbn beta.
  do 10 read_field.
  eapply decodes_bind.
  { eapply decodes_bind; [|apply decodes_nonNull].
    apply decodes_readString. unfold Archive.size. by rewrite Nat2Z.id. }
  cbn beta.
  eapply decodes_bind.
  { eapply decodes_bind; [|apply decodes_nonNull].
    by apply (decodes_readBytes _ []). }
  cbn beta.
  eapply decodes_bind; [by apply decodes_readBody|]. cbn beta.
  rewrite decode_ascii by done.
  apply decodes_ret.
Qed.

Lemma decodes_readCentralDirectory (f : Archive.stored) (firstByteAt : Z)
    (skipSignature : bool) (rest : Uint8Array) :
  Archive.wellFormed f -> 0 <= firstByteAt < 2 ^ 32 ->
  decodes (readCentralDirectory skipSignature)
    ((if skipSignature then [] else Archive.le32 SIGNATURE_CENTRAL_DIRECTORY_START)
     ++ Archive.centralHeader f firstByteAt ++ ascii (Archive.name f)
     ++ ascii (Archive.fileComment f) ++ rest)
    (Some (Archive.directoryEntry f firstByteAt)) rest.
Proof.
  intros [Hascii Hname Hcontent Hchecksum Hcomment] Hoffset.
  assert (Forall (fun c => c < 128) (ascii (Archive.fileComment f))) as Hplain
    by (by rewrite Hcomment).
  assert (Archive.size (ascii (Archive.fileComment f)) = 0) as Hnone
    by (by rewrite Hcomment).
  unfold readCentralDirectory.
  eapply (decodes_bind _ _ _ (Archive.centralHeader f firstByteAt ++ _)).
  { destruct skipSignature; [apply decodes_ret | by apply decodes_readSignature]. }
  cbn beta. rewrite Z.eqb_refl. cbn [negb].
  eapply decodes_bind; [by apply decodes_readView|]. cbn beta.
  do 16 read_field.
  eapply decodes_bind.
  { eapply decodes_bind; [|apply decodes_nonNull].
    apply decodes_readString. unfold Archive.size. by rewrite Nat2Z.id. }
  cbn beta.
  eapply decodes_bind.
  { eapply decodes_bind; [|apply decodes_nonNull].
    by apply (decodes_readBytes _ []). }
  cbn beta.
  eapply decodes_bind.
  { eapply decodes_bind; [|apply decodes_nonNull].
    apply decodes_readString. unfold Archive.size. by rewrite Nat2Z.id. }
  cbn beta.
  rewrite !decode_ascii by done.
  apply decodes_ret.
Qed.

Lemma decodes_readEndCentralDirectory (records centralDirectorySize
    centralDirectoryOffset : Z) (comment rest : Uint8Array) (skipSignature : bool) :
  0 <= records < 2 ^ 16 -> 0 <= centralDirectorySize < 2 ^ 32 ->
  0 <= centralDirectoryOffset < 2 ^ 32 -> Archive.size comment < 2 ^ 16 ->
  decodes (readEndCentralDirectory skipSignature)
    ((if skipSignature then [] else Archive.le32 SIGNATURE_CENTRAL_DIRECTORY_END)
     ++ Archive.endHeader records centralDirectorySize centralDirectoryOffset
          (Archive.size comment)
     ++ comment ++ rest)
    (Some (Archive.endEntry records centralDirectorySize centralDirectoryOffset comment))
    rest.
Proof.
  intros Hrecords Hsize Hoffset Hcomment.
  unfold readEndCentralDirectory.
  eapply (decodes_bind _ _ _ (Archive.endHeader _ _ _ _ ++ _)).
  { destruct skipSignature; [apply decodes_ret | by apply decodes_readSignature]. }
  cbn beta. rewrite Z.eqb_refl. cbn [negb].
  eapply decodes_bind; [by apply decodes_readView|]. cbn beta.
  do 7 read_field.
  eapply decodes_bind.
  { eapply decodes_bind; [|apply decodes_nonNull].
    apply decodes_readString. unfold Archive.size. by rewrite Nat2Z.id. }
  cbn beta.
  apply decodes_ret.
Qed.

(** [readNextEntry] on each of the three records. *)
Lemma decodes_readNextEntry_file (f : Archive.stored) (rest : Uint8Array) :
  Archive.wellFormed f ->
  decodes (readNextEntry inflateRaw) (Archive.localFileRecord f ++ rest)
    (Some (File (Archive.fileEntry f))) rest.
Proof.
  intros Hf. unfold readNextEntry, Archive.localFileRecord.
  rewrite <- !app_assoc.
  eapply decodes_bind; [by apply decodes_readSignature|]. cbn beta.
  change (SIGNATURE_FILE =? SIGNATURE_FILE) with true. cbn match.
  eapply decodes_bind; [by apply (decodes_readFileEntry f true)|].
  apply decodes_ret.
Qed.

Lemma decodes_readNextEntry_directory (f : Archive.stored) (firstByteAt : Z)
    (rest : Uint8Array) :
  Archive.wellFormed f -> 0 <= firstByteAt < 2 ^ 32 ->
  decodes (readNextEntry inflateRaw) (Archive.centralDirectoryRecord f firstByteAt ++ rest)
    (Some (CentralDirectory (Archive.directoryEntry f firstByteAt))) rest.
Proof.
  intros Hf Hoffset. unfold readNextEntry, Archive.centralDirectoryRecord.
  rewrite <- !app_assoc.
  eapply decodes_bind; [by apply decodes_readSignature|]. cbn beta.
  change (SIGNATURE_CENTRAL_DIRECTORY_START =? SIGNATURE_FILE) with false.
  change (SIGNATURE_CENTRAL_DIRECTORY_START =? SIGNATURE_CENTRAL_DIRECTORY_START) with true.
  cbn match.
  eapply decodes_bind; [by apply (decodes_readCentralDirectory f firstByteAt true)|].
  apply decodes_ret.
Qed.

Lemma decodes_readNextEntry_end (records centralDirectorySize
    centralDirectoryOffset : Z) (comment rest : Uint8Array) :
  0 <= records < 2 ^ 16 -> 0 <= centralDirectorySize < 2 ^ 32 ->
  0 <= centralDirectoryOffset < 2 ^ 32 -> Archive.size comment < 2 ^ 16 ->
  decodes (readNextEntry inflateRaw)
    (Archive.endOfCentralDirectory records centralDirectorySize
       centralDirectoryOffset comment ++ rest)
    (Some (CentralDirectoryEnd
             (Archive.endEntry records centralDirectorySize centralDirectoryOffset
                comment)))
    rest.
Proof.
  intros Hrecords Hsize Hoffset Hcomment.
  unfold readNextEntry, Archive.endOfCentralDirectory.
  rewrite <- !app_assoc.
  eapply decodes_bind; [by apply decodes_readSignature|]. cbn beta.
  change (SIGNATURE_CENTRAL_DIRECTORY_END =? SIGNATURE_FILE) with false.
  change (SIGNATURE_CENTRAL_DIRECTORY_END =? SIGNATURE_CENTRAL_DIRECTORY_START) with false.
  change (SIGNATURE_CENTRAL_DIRECTORY_END =? SIGNATURE_CENTRAL_DIRECTORY_END) with true.
  cbn match.
  eapply decodes_bind;
    [by apply (decodes_readEndCentralDirectory _ _ _ _ _ true)|].
  apply decodes_ret.
Qed.
End Records.

(** ** The entries of a run of records *)

Lemma pullsTo_cons {A} (read : Reader (option A)) (input rest : Uint8Array)
    (a : A) (entries : list A) :
  decodes read input (Some a) rest -> (length rest < length input)%nat ->
  pullsTo read rest entries -> pullsTo read input (a :: entries).
Proof.
  intros Hread Hshorter Hrest stream budget Hstream Hbudget.
  destruct budget as [|budget]; [lia|]. simpl.
  destruct (Hread stream Hstream) as (stream' & -> & Hstream').
  rewrite (Hrest stream' budget Hstream') by lia. done.
Qed.

Lemma pullsTo_nil {A} (read : Reader (option A)) (input rest : Uint8Array) :
  decodes read input None rest -> pullsTo read input [].
Proof.
  intros Hread stream budget Hstream Hbudget.
  destruct budget as [|budget]; [lia|]. simpl.
  by destruct (Hread stream Hstream) as (stream' & -> & _).
Qed.

Lemma pullsTo_app {A} (read : Reader (option A)) (record rest : Uint8Array)
    (a : A) (entries : list A) :
  decodes read (record ++ rest) (Some a) rest -> record <> [] ->
  pullsTo read rest entries -> pullsTo read (record ++ rest) (a :: entries).
Proof.
  intros Hread Hrecord. apply pullsTo_cons; [done|].
  rewrite length_app. destruct record; [done|]. simpl. lia.
Qed.

Lemma localFileRecord_length (f : Archive.stored) :
  Archive.size (Archive.localFileRecord f)
  = 30 + Archive.size (ascii (Archive.name f)) + Archive.size (Archive.content f).
Proof.
  unfold Archive.size, Archive.localFileRecord, Archive.localHeader.
  rewrite !length_app. simpl. lia.
Qed.

Lemma localFileRecord_signature (f : Archive.stored) :
  exists tail, Archive.localFileRecord f = 80 :: 75 :: tail.
Proof. by eexists. Qed.

Lemma centralDirectoryRecord_signature (f : Archive.stored) (offset : Z) :
  exists tail, Archive.centralDirectoryRecord f offset = 80 :: 75 :: tail.
Proof. by eexists. Qed.

(** The offsets of the records laid out stay below the end of the records. *)
Lemma placed_offsets (files : list Archive.stored) (offset : Z) :
  Forall (fun '(f, at_) =>
            offset <= at_
            /\ at_ + Archive.size (Archive.localFileRecord f)
               <= offset + Archive.size (Archive.localFileRecords files))
    (Archive.placed files offset).
Proof.
  revert offset. induction files as [|f files IH]; intros offset; simpl; [done|].
  assert (Archive.size (Archive.localFileRecords (f :: files))
          = Archive.size (Archive.localFileRecord f)
            + Archive.size (Archive.localFileRecords files)) as Hsize.
  { unfold Archive.localFileRecords, Archive.size. simpl. rewrite length_app. lia. }
  pose proof (localFileRecord_length f) as Hrecord.
  assert (0 <= Archive.size (Archive.localFileRecords files))
    by (unfold Archive.size; lia).
  assert (0 <= Archive.size (Archive.localFileRecord f))
    by (unfold Archive.size; lia).
  constructor; [lia|].
  eapply list.Forall_impl; [apply IH|].
  intros [g at_] [Hlow Hhigh]. lia.
Qed.

Section Entries.
Variable inflateRaw : Uint8Array -> option Uint8Array.

Lemma pullsTo_localFileRecords (files : list Archive.stored) (rest : Uint8Array)
    (entries : list ZipEntry) :
  Forall Archive.wellFormed files ->
  pullsTo (readNextEntry inflateRaw) rest entries ->
  pullsTo (readNextEntry inflateRaw) (Archive.localFileRecords files ++ rest)
    (map (fun f => File (Archive.fileEntry f)) files ++ entries).
Proof.
  intros Hfiles Hrest. induction Hfiles as [|f files Hf _ IH]; [done|].
  unfold Archive.localFileRecords in *.
  rewrite !map_cons, concat_cons, <- app_assoc, <- app_comm_cons.
  apply pullsTo_app; [by apply decodes_readNextEntry_file | | done].
  by destruct (localFileRecord_signature f) as [tail ->].
Qed.

Lemma pullsTo_centralDirectory (placed : list (Archive.stored * Z)) (rest : Uint8Array)
    (entries : list ZipEntry) :
  Forall (fun '(f, offset) => Archive.wellFormed f /\ 0 <= offset < 2 ^ 32) placed ->
  pullsTo (readNextEntry inflateRaw) rest entries ->
  pullsTo (readNextEntry inflateRaw)
    (concat (map (fun '(f, offset) => Archive.centralDirectoryRecord f offset) placed)
     ++ rest)
    (map (fun '(f, offset) => CentralDirectory (Archive.directoryEntry f offset)) placed
     ++ entries).
Proof.
  intros Hplaced Hrest. induction Hplaced as [|[f offset] placed [Hf Hoffset] _ IH]; [done|].
  rewrite !map_cons, concat_cons, <- app_assoc, <- app_comm_cons.
  apply pullsTo_app; [by apply decodes_readNextEntry_directory | | done].
  by destruct (centralDirectoryRecord_signature f offset) as [tail ->].
Qed.
End Entries.

(** ** Decoding the whole archive *)

Lemma feed_filterStream {T} (keep : T -> bool) (chunks : list T) :
  feed (filterStream keep) tt chunks = (List.filter keep chunks, Ok tt).
Proof.
  induction chunks as [|chunk rest IH]; [done|]. simpl. rewrite IH.
  by destruct (keep chunk).
Qed.

Lemma pipeThrough_filterStream {T} (keep : T -> bool) (chunks : list T) :
  pipeThrough (Closed chunks) (filterStream keep) = Closed (List.filter keep chunks).
Proof.
  unfold pipeThrough. simpl chunksOf. change (start (filterStream keep)) with tt.
  rewrite feed_filterStream. simpl. by rewrite app_nil_r.
Qed.

Lemma placed_files (files : list Archive.stored) (offset : Z) :
  map fst (Archive.placed files offset) = files.
Proof.
  revert offset. induction files as [|f files IH]; intros offset; simpl; [done|].
  by rewrite IH.
Qed.

(** The records of an archive that fits are placed at 32-bit offsets. *)
Lemma placed_fits (files : list Archive.stored) :
  Archive.fits files ->
  Forall (fun '(f, offset) => Archive.wellFormed f /\ 0 <= offset < 2 ^ 32)
    (Archive.placed files 0).
Proof.
  intros [Hfiles _ Hrecords _].
  pose proof (placed_offsets files 0) as Hoffsets.
  rewrite <- (placed_files files 0) in Hfiles.
  rewrite list.Forall_fmap in Hfiles.
  eapply list.Forall_impl; [exact (List.Forall_and Hfiles Hoffsets)|].
  intros [f offset]. simpl. intros [Hf [Hlow Hhigh]]. split; [done|].
  assert (0 <= Archive.size (Archive.localFileRecord f)) by (unfold Archive.size; lia).
  lia.
Qed.

Section Whole.
Variable inflateRaw : Uint8Array -> option Uint8Array.

Lemma zipEntries_build (files : list Archive.stored) (comment : Uint8Array)
    (stream : ReadableByteStream) :
  Archive.fits files -> Archive.size comment < 2 ^ 16 ->
  concat stream = Archive.build files comment ->
  zipEntries inflateRaw stream
  = Closed
      (map (fun f => File (Archive.fileEntry f)) files
       ++ map (fun '(f, offset) => CentralDirectory (Archive.directoryEntry f offset))
            (Archive.placed files 0)
       ++ [CentralDirectoryEnd
             (Archive.endEntry (Z.of_nat (length files))
                (Archive.size (Archive.centralDirectory files))
                (Archive.size (Archive.localFileRecords files)) comment)]).
Proof.
  intros Hfits Hcomment Hstream.
  pose proof Hfits as [Hfiles Hcount Hrecords Hdirectory].
  unfold zipEntries.
  eapply (pullsTo_localFileRecords inflateRaw files); [done| |exact Hstream|].
  - eapply pullsTo_centralDirectory; [by apply placed_fits|].
    rewrite <- (app_nil_r (Archive.endOfCentralDirectory _ _ _ _)).
    apply pullsTo_app.
    + apply decodes_readNextEntry_end; field_range.
    + done.
    + eapply (pullsTo_nil _ _ []). intros s Hs.
      rewrite readNextEntry_exhausted by (unfold byteLength; by rewrite Hs).
      eexists. split; [done|]. by rewrite readBytes_rest, Hs.
  - unfold byteLength. rewrite Hstream. unfold Archive.build. lia.
Qed.

Lemma filter_file_entries (files : list Archive.stored) :
  List.filter (fun entry => signatureOf entry =? SIGNATURE_FILE)
    (map (fun f => File (Archive.fileEntry f)) files)
  = map (fun f => File (Archive.fileEntry f)) files.
Proof. induction files as [|f files IH]; [done|]. simpl. by rewrite IH. Qed.

Lemma filter_directory_entries (placed : list (Archive.stored * Z)) :
  List.filter (fun entry => signatureOf entry =? SIGNATURE_FILE)
    (map (fun '(f, offset) => CentralDirectory (Archive.directoryEntry f offset)) placed)
  = [].
Proof. induction placed as [|[f offset] placed IH]; [done|]. simpl. by rewrite IH. Qed.

Lemma omap_file_entries (files : list Archive.stored) :
  omap asFileEntry (map (fun f => File (Archive.fileEntry f)) files)
  = map Archive.fileEntry files.
Proof. induction files as [|f files IH]; [done|]. simpl. f_equal. exact IH. Qed.

(** Whole-archive decoding delivers the file entries of the files that the
    predicate keeps, in the order of the archive. *)
Lemma readEntireZip_build (files : list Archive.stored) (comment : Uint8Array)
    (stream : ReadableByteStream) (selected : FileEntry.t -> bool) :
  Archive.fits files -> Archive.size comment < 2 ^ 16 ->
  concat stream = Archive.build files comment ->
  readEntireZip inflateRaw stream selected
  = Closed (List.filter selected (map Archive.fileEntry files)).
Proof.
  intros Hfits Hcomment Hstream. unfold readEntireZip.
  rewrite (zipEntries_build files comment) by done.
  rewrite pipeThrough_filterStream, !List.filter_app.
  rewrite filter_file_entries, filter_directory_entries.
  change (List.filter _ [CentralDirectoryEnd _]) with ([] : list ZipEntry).
  rewrite !app_nil_r. unfold asFileEntries. rewrite omap_file_entries.
  apply pipeThrough_filterStream.
Qed.
End Whole.

(** ** Locating the central directory of a built archive *)

Lemma getUint32_app (before view : Uint8Array) (i : nat) :
  DataView.getUint32 (before ++ view) (length before + i) = DataView.getUint32 view i.
Proof. unfold DataView.getUint32. by rewrite drop_app_add. Qed.

(** What the scan finds in the last bytes of a view, it finds there whatever
    comes before them, as long as they hold a signature at all. *)
Lemma scanSignature_app (before view : Uint8Array) (i : nat) :
  scanSignature view (length view - 3) = Ok (Some i) ->
  scanSignature (before ++ view) (length (before ++ view) - 3)
  = Ok (Some (length before + i)%nat).
Proof.
  intros (Hlt & Hsig & Hhigher)%scanSignature_Some_inv.
  rewrite length_app.
  apply scanSignature_Some.
  - rewrite length_app. lia.
  - lia.
  - by rewrite getUint32_app.
  - intros j Hj. replace j with (length before + (j - length before))%nat by lia.
    rewrite getUint32_app. apply Hhigher. lia.
Qed.

Lemma endOfCentralDirectory_length (records centralDirectorySize
    centralDirectoryOffset : Z) (comment : Uint8Array) :
  Archive.size (Archive.endOfCentralDirectory records centralDirectorySize
                  centralDirectoryOffset comment)
  = 22 + Archive.size comment.
Proof.
  unfold Archive.size, Archive.endOfCentralDirectory, Archive.endHeader.
  rewrite !length_app. simpl. lia.
Qed.

Lemma endOfCentralDirectory_offset (records centralDirectorySize
    centralDirectoryOffset : Z) (comment : Uint8Array) :
  0 <= centralDirectoryOffset < 2 ^ 32 ->
  DataView.getUint32
    (Archive.endOfCentralDirectory records centralDirectorySize
       centralDirectoryOffset comment) 16
  = Ok centralDirectoryOffset.
Proof.
  intros Hoffset.
  unfold DataView.getUint32, Archive.endOfCentralDirectory, Archive.endHeader,
    Archive.le16, Archive.le32.
  cbn [app skipn]. apply (f_equal Ok). by apply le32_value.
Qed.

(** The end record of the archive of [files] with the comment [comment]. *)
Local Abbreviation endRecord files comment :=
  (Archive.endOfCentralDirectory (Z.of_nat (length files))
     (Archive.size (Archive.centralDirectory files))
     (Archive.size (Archive.localFileRecords files)) comment).

(** When the end record with its comment fits into a scan chunk, and holds
    the end signature nowhere but at its start, the locator returns the
    central directory followed by the end record. *)
Lemma streamCentralDirectory_build (files : list Archive.stored)
    (comment : Uint8Array) (budget : nat) :
  Archive.fits files ->
  22 + Archive.size comment <= CENTRAL_DIRECTORY_END_SCAN_CHUNK_SIZE ->
  scanSignature (endRecord files comment) (length (endRecord files comment) - 3)
  = Ok (Some 0%nat) ->
  streamCentralDirectory (S budget) (createFetchSource (Archive.build files comment))
  = Returned (blobStream (Archive.centralDirectory files ++ endRecord files comment)).
Proof.
  intros [_ _ Hrecords _] Hcomment Hscan.
  assert (Z.of_nat (length (endRecord files comment))
          = 22 + Z.of_nat (length comment)) as Hlength
    by apply endOfCentralDirectory_length.
  unfold Archive.size in Hcomment, Hrecords.
  rewrite (last_chunk_end_record_located (Archive.build files comment)
             (length (Archive.localFileRecords files ++ Archive.centralDirectory files))
             (Archive.size (Archive.localFileRecords files)) budget).
  - unfold Archive.size, Archive.build. by rewrite Nat2Z.id, drop_app_length.
  - unfold Archive.build, CENTRAL_DIRECTORY_END_SCAN_CHUNK_SIZE in *.
    rewrite !length_app. lia.
  - unfold Archive.build. rewrite !length_app. lia.
  - unfold Archive.build. rewrite app_assoc.
    rewrite (scanSignature_app _ _ 0) by done. by rewrite Nat.add_0_r.
  - unfold Archive.build. rewrite app_assoc, getUint32_app.
    apply endOfCentralDirectory_offset. unfold Archive.size. lia.
  - unfold Archive.size. lia.
Qed.

(** ** The entries of the central directory of a built archive *)

Lemma pullsTo_readCentralDirectory (placed : list (Archive.stored * Z))
    (rest : Uint8Array) (entries : list CentralDirectoryEntry.t) :
  Forall (fun '(f, offset) => Archive.wellFormed f /\ 0 <= offset < 2 ^ 32) placed ->
  pullsTo (readCentralDirectory false) rest entries ->
  pullsTo (readCentralDirectory false)
    (concat (map (fun '(f, offset) => Archive.centralDirectoryRecord f offset) placed)
     ++ rest)
    (map (fun '(f, offset) => Archive.directoryEntry f offset) placed ++ entries).
Proof.
  intros Hplaced Hrest. induction Hplaced as [|[f offset] placed [Hf Hoffset] _ IH]; [done|].
  rewrite !map_cons, concat_cons, <- app_assoc, <- app_comm_cons.
  apply pullsTo_app; [ | | done].
  - unfold Archive.centralDirectoryRecord. rewrite <- !app_assoc.
    by apply (decodes_readCentralDirectory f offset false).
  - by destruct (centralDirectoryRecord_signature f offset) as [tail ->].
Qed.

(** At the end record the directory is read to its end. *)
Lemma pullsTo_readCentralDirectory_end (records centralDirectorySize
    centralDirectoryOffset : Z) (comment : Uint8Array) :
  pullsTo (readCentralDirectory false)
    (Archive.endOfCentralDirectory records centralDirectorySize
       centralDirectoryOffset comment) [].
Proof.
  eapply pullsTo_nil. unfold readCentralDirectory, Archive.endOfCentralDirectory.
  eapply decodes_bind; [by apply decodes_readSignature|]. cbn beta.
  change (negb (SIGNATURE_CENTRAL_DIRECTORY_END =? SIGNATURE_CENTRAL_DIRECTORY_START))
    with true.
  apply decodes_ret.
Qed.

Lemma centralDirectoryEntries_build (files : list Archive.stored)
    (comment : Uint8Array) (budget : nat) :
  Archive.fits files ->
  22 + Archive.size comment <= CENTRAL_DIRECTORY_END_SCAN_CHUNK_SIZE ->
  scanSignature (endRecord files comment) (length (endRecord files comment) - 3)
  = Ok (Some 0%nat) ->
  centralDirectoryEntries (S budget) (createFetchSource (Archive.build files comment))
  = Closed (map (fun '(f, offset) => Archive.directoryEntry f offset)
              (Archive.placed files 0)).
Proof.
  intros Hfits Hcomment Hscan. unfold centralDirectoryEntries.
  rewrite streamCentralDirectory_build by done.
  rewrite <- (app_nil_r (map _ (Archive.placed files 0))).
  eapply pullsTo_readCentralDirectory.
  - by apply placed_fits.
  - apply pullsTo_readCentralDirectory_end.
  - unfold blobStream. simpl. by rewrite app_nil_r.
  - unfold blobStream, byteLength. simpl. rewrite app_nil_r.
    unfold Archive.centralDirectory. lia.
Qed.

(** ** The partitions of a built archive *)

Lemma ordered_weaken (low low' : Z) (records : list (Archive.stored * Z)) :
  low' <= low -> Archive.ordered low records -> Archive.ordered low' records.
Proof.
  destruct records as [|[f offset] records]; simpl; [done|].
  intros Hlow [Hoffset Hrest]. split; [lia | done].
Qed.

Lemma ordered_placed (files : list Archive.stored) (offset : Z) :
  Archive.ordered offset (Archive.placed files offset).
Proof.
  revert offset. induction files as [|f files IH]; intros offset; simpl; [done|].
  split; [lia | apply IH].
Qed.

Lemma ordered_filter (keep : Archive.stored * Z -> bool) (low : Z)
    (records : list (Archive.stored * Z)) :
  Archive.ordered low records -> Archive.ordered low (List.filter keep records).
Proof.
  revert low. induction records as [|[f offset] records IH]; intros low; simpl; [done|].
  intros [Hlow Hrest]. destruct (keep (f, offset)); simpl.
  - split; [done|]. by apply IH.
  - apply IH. eapply ordered_weaken; [|done]. unfold Archive.size. lia.
Qed.

(** Every record of an ordered run starts a partition of its own: the
    record before it ends two bytes after the next one starts, which is
    within the gap of -10 KiB. *)
Lemma feed_partitionNearbyEntries_ordered (records : list (Archive.stored * Z))
    (low lastFileEndsAt : Z) (currentChunk : list CentralDirectoryEntry.t) :
  Forall (fun '(f, _) => Archive.wellFormed f) records ->
  Archive.ordered low records ->
  lastFileEndsAt + defaultMaxGap < low ->
  exists outs lastFileEndsAt' currentChunk',
    feed (partitionNearbyEntries defaultMaxGap) (lastFileEndsAt, currentChunk)
      (map (fun '(f, offset) => Archive.directoryEntry f offset) records)
    = (outs, Ok (lastFileEndsAt', currentChunk'))
    /\ outs ++ [currentChunk']
       = currentChunk
         :: map (fun '(f, offset) => [Archive.directoryEntry f offset]) records.
Proof.
  intros Hfiles. revert low lastFileEndsAt currentChunk.
  induction Hfiles as [|[f offset] records Hf _ IH];
    intros low lastFileEndsAt currentChunk Hordered Hgap.
  - by exists [], lastFileEndsAt, currentChunk.
  - destruct Hordered as [Hlow Hrest]. rewrite !map_cons.
    remember (Archive.directoryEntry f offset) as zipEntry eqn:HzipEntry.
    assert (CentralDirectoryEntry.firstByteAt zipEntry = offset) as Hfirst
      by (by rewrite HzipEntry).
    assert (CentralDirectoryEntry.lastByteAt zipEntry
            = offset + Archive.size (Archive.localFileRecord f) + 1) as Hlast.
    { rewrite HzipEntry, localFileRecord_length. simpl.
      rewrite (Archive.no_comment f Hf). unfold FILE_HEADER_SIZE, Archive.size.
      simpl. lia. }
    destruct (IH (offset + Archive.size (Archive.localFileRecord f))
                (CentralDirectoryEntry.lastByteAt zipEntry) ([] ++ [zipEntry]))
      as (outs & last' & current' & Hfeed & Hout);
      [done | unfold defaultMaxGap; lia |].
    simpl feed.
    destruct (CentralDirectoryEntry.firstByteAt zipEntry >? lastFileEndsAt + defaultMaxGap)
      eqn:Hflushed.
    + rewrite Hfeed. exists (currentChunk :: outs), last', current'.
      split; [done|]. simpl. by rewrite Hout.
    + rewrite Z.gtb_ltb in Hflushed. apply Z.ltb_ge in Hflushed. lia.
Qed.

Lemma pipeThrough_partitionNearbyEntries_ordered
    (records : list (Archive.stored * Z)) :
  Forall (fun '(f, _) => Archive.wellFormed f) records ->
  Archive.ordered 0 records ->
  pipeThrough
    (Closed (map (fun '(f, offset) => Archive.directoryEntry f offset) records))
    (partitionNearbyEntries defaultMaxGap)
  = Closed ([] :: map (fun '(f, offset) => [Archive.directoryEntry f offset]) records).
Proof.
  intros Hfiles Hordered. unfold pipeThrough. simpl chunksOf.
  change (start (partitionNearbyEntries defaultMaxGap))
    with ((0, []) : Z * list CentralDirectoryEntry.t).
  destruct (feed_partitionNearbyEntries_ordered records 0 0 [] Hfiles Hordered)
    as (outs & last' & current' & -> & Hout); [done|].
  simpl. by rewrite Hout.
Qed.

(** ** The ranges fetched from a built archive *)

(** Every record opens with the bytes [P] and [K]. *)
Lemma records_signature (records : list Uint8Array) (rest : Uint8Array) :
  Forall (fun record => exists tail, record = 80 :: 75 :: tail) records ->
  (exists tail, rest = 80 :: 75 :: tail) ->
  exists tail, concat records ++ rest = 80 :: 75 :: tail.
Proof.
  intros Hrecords Hrest. destruct Hrecords as [|record records [tail ->] _]; [done|].
  by eexists.
Qed.

(** The local record of a file lies at its offset, and is followed by the
    opening bytes of another record. *)
Lemma placed_localFileRecord (files : list Archive.stored) (offset : Z)
    (rest : Uint8Array) :
  (exists tail, rest = 80 :: 75 :: tail) ->
  Forall (fun '(f, at_) =>
            exists before tail,
              Archive.localFileRecords files ++ rest
              = before ++ Archive.localFileRecord f ++ 80 :: 75 :: tail
              /\ Archive.size before = at_ - offset)
    (Archive.placed files offset).
Proof.
  intros Hrest. revert offset.
  induction files as [|f files IH]; intros offset; [by constructor|].
  cbn [Archive.placed].
  unfold Archive.localFileRecords in *. rewrite map_cons, concat_cons.
  constructor.
  - destruct (records_signature (map Archive.localFileRecord files) rest)
      as [tail Htail]; [|done|].
    { apply list.Forall_fmap, Forall_true. intros g. apply localFileRecord_signature. }
    exists [], tail. rewrite <- app_assoc, Htail. split; [done|].
    unfold Archive.size. simpl. lia.
  - eapply list.Forall_impl; [apply (IH (offset + Archive.size (Archive.localFileRecord f)))|].
    intros [g at_] (before & tail & Hsplit & Hbefore).
    exists (Archive.localFileRecord f ++ before), tail.
    rewrite <- !app_assoc, Hsplit. split; [done|].
    unfold Archive.size in *. rewrite length_app. lia.
Qed.

(** The range requested for the partition of one record of a built archive
    holds the local record and the two bytes after it. *)
Lemma build_byteRange (files : list Archive.stored) (comment : Uint8Array) :
  Forall Archive.wellFormed files ->
  Forall (fun '(f, offset) =>
            byteRange (Archive.build files comment) offset
              (CentralDirectoryEntry.lastByteAt (Archive.directoryEntry f offset))
            = Archive.localFileRecord f ++ [80; 75])
    (Archive.placed files 0).
Proof.
  intros Hfiles.
  rewrite <- (placed_files files 0), list.Forall_fmap in Hfiles.
  assert (exists tail,
            Archive.centralDirectory files ++ endRecord files comment
            = 80 :: 75 :: tail) as Hrest.
  { apply records_signature; [|by eexists].
    apply list.Forall_fmap, Forall_true. intros [f offset].
    apply centralDirectoryRecord_signature. }
  eapply list.Forall_impl;
    [exact (List.Forall_and Hfiles (placed_localFileRecord files 0 _ Hrest))|].
  intros [f offset]. unfold compose. cbn [fst].
  intros [Hf (before & tail & Hsplit & Hbefore)].
  unfold Archive.build. rewrite Hsplit.
  pose proof (localFileRecord_length f) as Hrecord.
  cbn [CentralDirectoryEntry.lastByteAt Archive.directoryEntry].
  rewrite (Archive.no_comment f Hf).
  change (Archive.size (ascii "")) with 0.
  unfold FILE_HEADER_SIZE, byteRange, Archive.size in *.
  rewrite drop_app_length' by lia.
  replace (Z.to_nat _)
    with (length (Archive.localFileRecord f) + 2)%nat by lia.
  by rewrite take_app_add.
Qed.

Lemma Forall_filter_bool {A} (P : A -> Prop) (keep : A -> bool) (l : list A) :
  Forall P l -> Forall P (List.filter keep l).
Proof.
  induction 1 as [|a l Ha _ IH]; simpl; [done|].
  destruct (keep a); [by constructor | done].
Qed.

(** The requests for the partitions of single records are all fulfilled,
    each with its record and the two bytes after it; nothing is requested
    for the empty partition that comes first. *)
Lemma requestAll_build (data : Uint8Array) (records : list (Archive.stored * Z)) :
  Forall (fun '(f, offset) =>
            byteRange data offset
              (CentralDirectoryEntry.lastByteAt (Archive.directoryEntry f offset))
            = Archive.localFileRecord f ++ [80; 75])
    records ->
  requestAll (createFetchSource data)
    ([] :: map (fun '(f, offset) => [Archive.directoryEntry f offset]) records)
  = map (fun record => ((Archive.fetched record).1, Ok (Archive.fetched record).2))
      records.
Proof.
  intros Hrecords. unfold requestAll.
  rewrite filter_cons_False by (simpl; lia).
  induction Hrecords as [|[f offset] records Hrange _ IH]; [done|].
  rewrite !map_cons, filter_cons_True by (simpl; lia).
  rewrite map_cons, IH. f_equal.
  unfold Archive.fetched. cbn [fst snd]. f_equal.
  change (requestChunkRange (createFetchSource data) [Archive.directoryEntry f offset])
    with (Ok [byteRange data offset
                (CentralDirectoryEntry.lastByteAt (Archive.directoryEntry f offset))]
          : result ReadableByteStream).
  by rewrite Hrange.
Qed.

(** ** Decoding the fetched ranges *)

(** Two bytes are left of the range once its record is decoded; the read of
    the next signature pads them with zeros. *)
Lemma decodes_readSignature_short : decodes readSignature [80; 75] 19280 [].
Proof.
  intros stream Hstream. unfold readSignature, readView, bind.
  rewrite readBytes_exact, Hstream. simpl.
  eexists. split; [reflexivity|]. by rewrite readBytes_rest, Hstream.
Qed.

Lemma pendingWork_fetched (records : list (Archive.stored * Z)) :
  (2 * length records <= pendingWork (map Archive.fetched records))%nat.
Proof.
  unfold pendingWork. rewrite length_map.
  set (bytes := list_sum _).
  assert (length records <= bytes)%nat; [|lia].
  unfold bytes. clear bytes.
  induction records as [|[f offset] records IH]; [done|].
  rewrite !map_cons. cbn [list_sum length]. unfold Archive.fetched at 1.
  cbn [snd]. unfold byteLength at 1. cbn [concat].
  rewrite !length_app. cbn [length].
  change (list_sum (?n :: ?l)) with (n + list_sum l)%nat.
  unfold Ticket in *. lia.
Qed.

Lemma omap_fulfilled (records : list (Archive.stored * Z)) :
  omap fulfilled
    (map (fun record => ((Archive.fetched record).1, Ok (Archive.fetched record).2))
       records)
  = map Archive.fetched records.
Proof.
  induction records as [|[f offset] records IH]; [done|].
  rewrite !map_cons. cbn [omap list_omap fulfilled]. by rewrite IH.
Qed.

Lemma forallb_fulfilled (records : list (Archive.stored * Z)) :
  forallb (fun r => bool_decide (is_Some (fulfilled r)))
    (map (fun record => ((Archive.fetched record).1, Ok (Archive.fetched record).2))
       records)
  = true.
Proof.
  induction records as [|[f offset] records IH]; [done|].
  rewrite map_cons. cbn [forallb]. rewrite IH, andb_true_r.
  apply bool_decide_eq_true. by eexists.
Qed.

Lemma selected_entries (selectedEntry : CentralDirectoryEntry.t -> bool)
    (selectedFile : FileEntry.t -> bool) (records : list (Archive.stored * Z)) :
  (forall f offset,
     selectedEntry (Archive.directoryEntry f offset)
     = selectedFile (Archive.fileEntry f)) ->
  List.filter selectedEntry
    (map (fun '(f, offset) => Archive.directoryEntry f offset) records)
  = map (fun '(f, offset) => Archive.directoryEntry f offset)
      (List.filter (fun '(f, _) => selectedFile (Archive.fileEntry f)) records).
Proof.
  intros Hagree. induction records as [|[f offset] records IH]; [done|].
  rewrite map_cons. cbn [List.filter]. rewrite Hagree, IH.
  by destruct (selectedFile (Archive.fileEntry f)).
Qed.

Lemma selected_files (selectedFile : FileEntry.t -> bool)
    (records : list (Archive.stored * Z)) :
  map (fun '(f, _) => Archive.fileEntry f)
    (List.filter (fun '(f, _) => selectedFile (Archive.fileEntry f)) records)
  = List.filter selectedFile (map Archive.fileEntry (map fst records)).
Proof.
  induction records as [|[f offset] records IH]; [done|].
  rewrite !map_cons. cbn [List.filter fst].
  destruct (selectedFile (Archive.fileEntry f)); [rewrite map_cons|]; by rewrite IH.
Qed.

Section Fetched.
Variable inflateRaw : Uint8Array -> option Uint8Array.

Lemma readFileEntry_next_record (stream : ReadableByteStream) :
  concat stream = [80; 75] ->
  exists stream', readFileEntry inflateRaw false stream = Ok (None, stream').
Proof.
  intros Hstream.
  assert (decodes (readFileEntry inflateRaw false) [80; 75] None []) as Hdecodes.
  { unfold readFileEntry.
    eapply decodes_bind; [apply decodes_readSignature_short|]. cbn beta.
    change (negb (19280 =? SIGNATURE_FILE)) with true. apply decodes_ret. }
  destruct (Hdecodes stream Hstream) as (stream' & Hread & _). by exists stream'.
Qed.

(** Each fetched range delivers its file and is then shifted out. *)
Lemma pullFiles_fetched (records : list (Archive.stored * Z)) (budget : nat) :
  Forall (fun '(f, _) => Archive.wellFormed f) records ->
  (2 * length records < budget)%nat ->
  pullFiles inflateRaw budget (map Archive.fetched records)
  = Closed (map (fun '(f, _) => Archive.fileEntry f) records).
Proof.
  intros Hfiles. revert budget.
  induction Hfiles as [|[f offset] records Hf _ IH]; intros budget Hbudget.
  - destruct budget; [simpl in Hbudget; lia | done].
  - destruct budget as [|[|budget]]; [simpl in Hbudget; lia..|].
    cbn [length] in Hbudget.
    rewrite !map_cons. unfold Archive.fetched at 1. cbn [pullFiles].
    destruct (decodes_readFileEntry inflateRaw f false [80; 75] Hf
                [Archive.localFileRecord f ++ [80; 75]])
      as (stream' & -> & Hrest).
    { cbn [concat]. unfold Archive.localFileRecord.
      by rewrite app_nil_r, <- !app_assoc. }
    assert (isOneOfRequestedFiles [Archive.directoryEntry f offset]
              (Archive.fileEntry f) = true) as ->
      by (apply bool_decide_eq_true; by constructor).
    destruct (readFileEntry_next_record stream' Hrest) as [stream'' ->].
    rewrite IH by lia. done.
Qed.

(** The two ways of decoding deliver the same files, with the same
    contents, for every archive of stored files whose end record with its
    comment fits into a scan chunk and holds the end signature at its start
    only: the whole archive read from a forward-only stream, however it is
    cut into chunks, and the files read through the central directory, in
    whatever order the fetched ranges arrive. *)
Lemma built_archive_decoded_alike (files : list Archive.stored)
    (comment : Uint8Array) (stream : ReadableByteStream)
    (arrival : list Ticket -> list Ticket) (budget : nat)
    (selectedEntry : CentralDirectoryEntry.t -> bool)
    (selectedFile : FileEntry.t -> bool) :
  Archive.fits files ->
  22 + Archive.size comment <= CENTRAL_DIRECTORY_END_SCAN_CHUNK_SIZE ->
  scanSignature (endRecord files comment) (length (endRecord files comment) - 3)
  = Ok (Some 0%nat) ->
  concat stream = Archive.build files comment ->
  (forall byteStreams, arrival byteStreams ≡ₚ byteStreams) ->
  (forall f offset,
     selectedEntry (Archive.directoryEntry f offset)
     = selectedFile (Archive.fileEntry f)) ->
  exists selective sequential,
    iterateZipFiles2 inflateRaw arrival (S budget)
      (createFetchSource (Archive.build files comment)) selectedEntry
    = Closed selective
    /\ readEntireZip inflateRaw stream selectedFile = Closed sequential
    /\ selective ≡ₚ sequential.
Proof.
  intros Hfits Hcomment Hscan Hstream Harrival Hagree.
  pose proof Hfits as [Hfiles _ _ _].
  set (records := List.filter (fun '(f, _) => selectedFile (Archive.fileEntry f))
                    (Archive.placed files 0)).
  assert (Forall (fun '(f, _) => Archive.wellFormed f) records) as Hrecords.
  { apply Forall_filter_bool.
    eapply list.Forall_impl; [by apply placed_fits|]. by intros [f offset] [Hf _]. }
  destruct (Permutation_map_inv Archive.fetched records
              (Harrival (map Archive.fetched records)))
    as (arrived & Harrived & Hpermutation).
  exists (map (fun '(f, _) => Archive.fileEntry f) arrived),
    (List.filter selectedFile (map Archive.fileEntry files)).
  split; [|split].
  - unfold iterateZipFiles2.
    rewrite centralDirectoryEntries_build by done.
    rewrite pipeThrough_filterStream.
    rewrite (selected_entries selectedEntry selectedFile) by done.
    fold records.
    rewrite pipeThrough_partitionNearbyEntries_ordered;
      [ | done | apply ordered_filter, ordered_placed ].
    unfold fetchPartitionedEntries.
    rewrite requestAll_build by (by apply Forall_filter_bool, build_byteRange).
    rewrite omap_fulfilled, forallb_fulfilled, Harrived.
    apply pullFiles_fetched.
    + by rewrite <- Hpermutation.
    + pose proof (pendingWork_fetched arrived). lia.
  - apply (readEntireZip_build inflateRaw files comment); [done | | done].
    unfold CENTRAL_DIRECTORY_END_SCAN_CHUNK_SIZE in Hcomment.
    change (2 ^ 16) with 65536. lia.
  - rewrite <- Hpermutation. unfold records.
    by rewrite selected_files, placed_files.
Qed.
End Fetched.

(** The default predicate selects a file by its central directory entry as
    it does by its file entry. *)
Lemma predicate_agrees (f : Archive.stored) (offset : Z) :
  predicate (Archive.directoryEntry f offset) = predicate (Archive.fileEntry f).
Proof. reflexivity. Qed.

Lemma sample_fits : Archive.fits [Archive.aTxt; Archive.dir; Archive.bTxt].
Proof.
  split.
  - repeat constructor; try (vm_compute; done).
  - vm_compute. done.
  - vm_compute. done.
  - vm_compute. done.
Qed.

(** The sample archive is such an archive: it is decoded alike in both ways
    however the stream is cut and in whatever order the ranges arrive. *)
Lemma built_archive_decoded_alike_sample
    (inflateRaw : Uint8Array -> option Uint8Array) (stream : ReadableByteStream)
    (arrival : list Ticket -> list Ticket) (budget : nat) :
  concat stream = Archive.sample ->
  (forall byteStreams, arrival byteStreams ≡ₚ byteStreams) ->
  exists selective sequential,
    iterateZipFiles2 inflateRaw arrival (S budget)
      (createFetchSource Archive.sample) predicate
    = Closed selective
    /\ readEntireZip inflateRaw stream predicate = Closed sequential
    /\ selective ≡ₚ sequential.
Proof.
  intros Hstream Harrival.
  apply (built_archive_decoded_alike inflateRaw
           [Archive.aTxt; Archive.dir; Archive.bTxt] []);
    [ apply sample_fits | vm_compute; discriminate | vm_compute; reflexivity
    | done | done | apply predicate_agrees ].
Qed.

(** * Further properties of the stream helpers and the decoders *)

(** ** Limiting a stream *)

(** X1: [limitBytes(stream, bytes)] delivers the first [bytes] bytes of the
    stream, or all of them when the stream holds fewer, and takes exactly
    these off the underlying stream: what comes after them is still there to
    be read, however the stream is cut into chunks.  For [bytes = 0] the
    underlying stream is not touched. *)
Theorem limitBytes_takes_prefix (stream : ReadableByteStream) (bytes : nat) :
  concat (limitBytes stream bytes).1 = take bytes (concat stream)
  /\ concat (limitBytes stream bytes).2 = drop bytes (concat stream)
  /\ length (concat (limitBytes stream bytes).1) = (bytes `min` byteLength stream)%nat
  /\ (bytes = 0%nat -> limitBytes stream bytes = ([], stream)).
Proof.
  pose proof (limitBytes_concat stream bytes) as [Hlimited Hrest].
  split; [done|]. split; [done|]. split.
  - rewrite Hlimited, length_take. unfold byteLength. lia.
  - intros ->. reflexivity.
Qed.

(** ** Collecting bytes *)

Lemma feed_concatNBytes_overflow (totalBytes : nat) (chunks : list Uint8Array)
    (buffer : Uint8Array) (offset : nat) :
  (length buffer < offset + length (concat chunks))%nat ->
  (offset <= length buffer)%nat ->
  feed (concatNBytes totalBytes) (buffer, offset) chunks = ([], Throw RangeError).
Proof.
  revert buffer offset.
  induction chunks as [|chunk rest IH]; intros buffer offset Hover Hoffset.
  - simpl in Hover. lia.
  - simpl in *. rewrite length_app in Hover. unfold setAt.
    destruct (decide (offset + length chunk <= length buffer)%nat) as [Hfit|Hno]; [|done].
    rewrite IH; [done | |];
      rewrite !length_app, length_take, length_drop; lia.
Qed.

(** X2: [concatNBytes(totalBytes)] over a closed stream: when the chunks
    hold no more than [totalBytes] bytes the one array enqueued holds them
    followed by zeros up to [totalBytes]; when they hold more, the chunk that
    does not fit makes [set] throw a RangeError and nothing is enqueued. *)
Theorem concatNBytes_fills_or_overflows (totalBytes : nat)
    (chunks : list Uint8Array) :
  pipeThrough (Closed chunks) (concatNBytes totalBytes)
  = if decide (length (concat chunks) <= totalBytes)%nat
    then Closed [concat chunks ++ zeros (totalBytes - length (concat chunks))]
    else Errored [] RangeError.
Proof.
  unfold pipeThrough. simpl chunksOf.
  change (start (concatNBytes totalBytes)) with (zeros totalBytes, 0%nat).
  destruct (decide (length (concat chunks) <= totalBytes)%nat) as [Hfit|Hover].
  - rewrite feed_concatNBytes by (unfold zeros; rewrite length_replicate; lia).
    simpl. unfold zeros. by rewrite drop_replicate.
  - rewrite feed_concatNBytes_overflow;
      [done | unfold zeros; rewrite length_replicate; lia | lia].
Qed.

(** X3: [readBytes(stream)] without a byte count reads the stream to its
    end and resolves to one array that holds all its bytes in order; for a
    stream without bytes this is an empty array, not undefined.
    [concatBytesStream()] enqueues exactly one chunk, whatever it is fed. *)
Theorem readBytes_whole_stream (stream : ReadableByteStream) :
  pipeThrough (Closed stream) concatBytesStream = Closed [concat stream]
  /\ readBytes None stream = Ok (Some (concat stream), [])
  /\ (byteLength stream = 0%nat -> readBytes None stream = Ok (Some [], [])).
Proof.
  assert (pipeThrough (Closed stream) concatBytesStream = Closed [concat stream])
    as Hpipe.
  { unfold pipeThrough. simpl chunksOf.
    change (start concatBytesStream) with ([] : list Uint8Array).
    by rewrite feed_concatBytesStream. }
  split; [done|].
  assert (readBytes None stream = Ok (Some (concat stream), [])) as Hread
    by (unfold readBytes; by rewrite Hpipe).
  split; [done|].
  unfold byteLength. intros Hempty. rewrite Hread.
  by destruct (concat stream).
Qed.

(** ** Reading text *)

(** X4: [readString(stream, bytes)] never throws and never resolves to
    undefined: it resolves to the text decoded from the next [bytes] bytes of
    the stream, or from all that is left when the stream holds fewer (the
    empty string at the end of the stream; nothing is padded, unlike in
    [readBytes]), and it takes exactly these bytes off the stream. *)
Theorem readString_decodes_prefix (bytes : nat) (stream : ReadableByteStream) :
  exists rest,
    readString bytes stream
    = Ok (Some (TextDecoder.decode (take bytes (concat stream))), rest)
    /\ concat rest = drop bytes (concat stream)
    /\ (byteLength stream = 0%nat -> readString bytes stream = Ok (Some [], rest)).
Proof.
  assert (forall limited,
            readValue (pipeThrough (TextDecoderStream limited) concatString)
            = Ok (Some (TextDecoder.decode (concat limited)))) as Htext.
  { intros limited. unfold TextDecoderStream, pipeThrough. simpl.
    by rewrite app_nil_r. }
  unfold readString.
  pose proof (limitBytes_concat stream bytes) as [Hlimited Hrest].
  destruct (limitBytes stream bytes) as [limited rest].
  cbn [fst snd] in Hlimited, Hrest.
  exists rest. rewrite Htext, Hlimited.
  split; [done|]. split; [done|].
  unfold byteLength. intros Hempty.
  destruct (concat stream); [|done]. by rewrite take_nil.
Qed.

(** ** Entries after which the stream does not go on with a record *)

Section UnknownSignature.
Variable inflateRaw : Uint8Array -> option Uint8Array.

(** X5: the sequence of entries ends at the first four bytes that are none
    of the three signatures: the records read before them are delivered, the
    stream is closed and not errored, and whatever follows is not looked
    at. *)
Theorem zipEntries_closes_at_unknown_signature (count : nat)
    (stream rest rest' : ReadableByteStream) (entries : list ZipEntry)
    (signature : Z) :
  readEntries inflateRaw count stream = Some (entries, rest) ->
  readSignature rest = Ok (signature, rest') ->
  signature <> SIGNATURE_FILE ->
  signature <> SIGNATURE_CENTRAL_DIRECTORY_START ->
  signature <> SIGNATURE_CENTRAL_DIRECTORY_END ->
  readNextEntry inflateRaw rest = Ok (None, rest')
  /\ zipEntries inflateRaw stream = Closed entries.
Proof.
  intros Hread Hsignature Hfile Hstart Hend.
  assert (readNextEntry inflateRaw rest = Ok (None, rest')) as Hnext.
  { unfold readNextEntry, bind. rewrite Hsignature.
    by rewrite !(proj2 (Z.eqb_neq _ _)). }
  split; [done|].
  revert stream entries Hread.
  induction count as [|count IH]; intros stream entries; simpl.
  - intros [= <- <-]. unfold zipEntries. simpl. by rewrite Hnext.
  - destruct (readNextEntry inflateRaw stream) as [[[entry|] stream']|] eqn:Hentry;
      try done.
    destruct (readEntries inflateRaw count stream') as [[entries' rest'']|] eqn:Hmore;
      [|done].
    intros [= <- <-].
    by rewrite (zipEntries_enqueue _ _ _ _ Hentry), (IH _ _ Hmore).
Qed.
End UnknownSignature.

(** The sample archive followed by six bytes that open no record: its seven
    records are delivered and the stream is closed. *)
Lemma zipEntries_closes_at_unknown_signature_sample :
  exists entries rest rest',
    readEntries (fun _ => None) 7 [Archive.sample ++ [1; 2; 3; 4; 5; 6]]
    = Some (entries, rest)
    /\ readSignature rest = Ok (67305985, rest')
    /\ length entries = 7%nat
    /\ zipEntries (fun _ => None) [Archive.sample ++ [1; 2; 3; 4; 5; 6]]
       = Closed entries.
Proof.
  eexists _, _, _. split; [vm_compute; reflexivity|].
  split; [vm_compute; reflexivity|]. split; [reflexivity|].
  eapply (zipEntries_closes_at_unknown_signature (fun _ => None) 7);
    [vm_compute; reflexivity | vm_compute; reflexivity | done..].
Defined.

(** ** The version field of a file entry *)

Lemma readView_bytes (n : nat) (stream stream' : ReadableByteStream)
    (data : Uint8Array) :
  readView n stream = Ok (data, stream') ->
  data = take n (concat stream) ++ zeros (n - length (concat stream))
  /\ concat stream' = drop n (concat stream).
Proof.
  unfold readView, bind. rewrite readBytes_exact. simpl.
  intros [= <- <-]. split; [done | apply readBytes_rest].
Qed.

Lemma readSignature_rest (stream stream' : ReadableByteStream) (signature : Z) :
  readSignature stream = Ok (signature, stream') ->
  concat stream' = drop 4 (concat stream).
Proof.
  unfold readSignature. unfold bind at 1.
  destruct (readView 4 stream) as [[data stream1]|] eqn:Hview; [|done].
  apply readView_bytes in Hview as [_ Hrest].
  unfold getUint32, lift. destruct (DataView.getUint32 data 0); [|done].
  by intros [= _ <-].
Qed.

Section Version.
Variable inflateRaw : Uint8Array -> option Uint8Array.

(** X6: [readFileEntry] reads the version as 32 bits at offset 0 of the
    header, where the format has 16 bits of version followed by the 16 bits
    of general purpose flags, which are read again at offset 2.  So the
    [version] of every file entry decoded from bytes is the version needed
    plus 65536 times its [generalPurpose]: it is the version only for a
    record without flags. *)
Theorem readFileEntry_version_holds_flags (skipSignature : bool)
    (stream stream' : ReadableByteStream) (entry : FileEntry.t) :
  Forall (fun b => 0 <= b < 256) (concat stream) ->
  readFileEntry inflateRaw skipSignature stream = Ok (Some entry, stream') ->
  exists versionNeeded,
    0 <= versionNeeded < 2 ^ 16
    /\ FileEntry.version entry
       = versionNeeded + 2 ^ 16 * FileEntry.generalPurpose entry.
Proof.
  intros Hbytes. unfold readFileEntry. unfold bind at 1.
  destruct ((if skipSignature then ret SIGNATURE_FILE else readSignature) stream)
    as [[signature stream1]|] eqn:Hsignature; [|done].
  assert (Forall (fun b => 0 <= b < 256) (concat stream1)) as Hbytes1.
  { destruct skipSignature.
    - by injection Hsignature as _ <-.
    - apply readSignature_rest in Hsignature as ->. by apply Forall_drop. }
  destruct (negb (signature =? SIGNATURE_FILE)); [done|].
  unfold bind at 1.
  destruct (readView 26 stream1) as [[data stream2]|] eqn:Hview; [|done].
  apply readView_bytes in Hview as [Hdata _].
  assert (Forall (fun b => 0 <= b < 256) data) as Hrange.
  { rewrite Hdata. apply Forall_app. split; [by apply Forall_take|].
    apply Forall_replicate. lia. }
  assert (26 <= length data)%nat as Hlength.
  { rewrite Hdata, length_app, length_take. unfold zeros.
    rewrite length_replicate. lia. }
  destruct data as [|b0 [|b1 [|b2 [|b3 data]]]]; try (simpl in Hlength; lia).
  apply list.Forall_cons in Hrange as [H0 Hrange].
  apply list.Forall_cons in Hrange as [H1 Hrange].
  apply list.Forall_cons in Hrange as [H2 Hrange].
  apply list.Forall_cons in Hrange as [H3 _].
  change (getUint32 (b0 :: b1 :: b2 :: b3 :: data) 0)
    with (ret (b0 + b1 * 2 ^ 8 + b2 * 2 ^ 16 + b3 * 2 ^ 24) : Reader Z).
  change (getUint16 (b0 :: b1 :: b2 :: b3 :: data) 2)
    with (ret (b2 + b3 * 2 ^ 8) : Reader Z).
  unfold bind at 1 2. unfold ret at 1 2. cbn beta iota.
  set (version := b0 + b1 * 2 ^ 8 + b2 * 2 ^ 16 + b3 * 2 ^ 24).
  set (generalPurpose := b2 + b3 * 2 ^ 8).
  assert (version = b0 + b1 * 2 ^ 8 + 2 ^ 16 * generalPurpose) as Hversion
    by (unfold version, generalPurpose; lia).
  clearbody version generalPurpose.
  unfold bind, ret.
  repeat case_match; try done; intros [= <- _];
    cbn [FileEntry.version FileEntry.generalPurpose];
    exists (b0 + b1 * 2 ^ 8); lia.
Qed.
End Version.

(** A record of version 20 with the flag 0x0800 (names in UTF-8) and no
    name and no content: the entry decoded has the version 134217748. *)
Lemma readFileEntry_version_holds_flags_utf8 :
  let record :=
    Archive.le32 SIGNATURE_FILE ++ Archive.le16 20 ++ Archive.le16 2048 ++ zeros 22 in
  Forall (fun b => 0 <= b < 256) (concat [record])
  /\ exists entry stream',
       readFileEntry (fun _ => None) false [record] = Ok (Some entry, stream')
       /\ FileEntry.generalPurpose entry = 2048
       /\ FileEntry.version entry = 134217748
       /\ exists versionNeeded,
            0 <= versionNeeded < 2 ^ 16
            /\ FileEntry.version entry
               = versionNeeded + 2 ^ 16 * FileEntry.generalPurpose entry.
Proof.
  intros record.
  assert (Forall (fun b => 0 <= b < 256) (concat [record])) as Hbytes
    by (apply (bool_decide_unpack _); vm_compute; exact I).
  split; [exact Hbytes|].
  eexists _, _. split; [vm_compute; reflexivity|].
  split; [reflexivity|]. split; [reflexivity|].
  eapply (readFileEntry_version_holds_flags (fun _ => None) false [record]);
    [exact Hbytes | vm_compute; reflexivity].
Defined.

(** ** The entries of a stream, whatever its chunks *)

Section Entries.
Variable inflateRaw : Uint8Array -> option Uint8Array.

(** X7: the entries read from a forward-only stream depend on its bytes
    only, not on how the producer cut them into chunks: two streams that
    deliver the same bytes give the same entries and end alike (closed, or
    errored with the same error). *)
Theorem zipEntries_chunking (stream1 stream2 : ReadableByteStream) :
  concat stream1 = concat stream2 ->
  zipEntries inflateRaw stream1 = zipEntries inflateRaw stream2.
Proof.
  intros Hsame. unfold zipEntries, byteLength. rewrite Hsame.
  apply pulls_chunking; [apply chunkingBlind_readNextEntry | done].
Qed.

(** X8: the sequence of entries of a stream always ends, closed or errored:
    every record read takes at least one byte off the stream, so the stream
    is pulled at most once more than it holds bytes, and holds at least as
    many bytes as entries are delivered. *)
Theorem zipEntries_ends (stream : ReadableByteStream) :
  finished (zipEntries inflateRaw stream)
  /\ (length (chunksOf (zipEntries inflateRaw stream)) <= byteLength stream)%nat.
Proof.
  split; [apply zipEntries_finished|].
  unfold zipEntries. generalize (S (byteLength stream)) as budget.
  intros budget. revert stream.
  induction budget as [|budget IH]; intros stream; [simpl; lia|]. simpl.
  destruct (readNextEntry inflateRaw stream) as [[[entry|] stream']|] eqn:Hread;
    [|simpl; lia..].
  apply readNextEntry_advances_strictly in Hread.
  specialize (IH stream').
  destruct (pulls (readNextEntry inflateRaw) budget stream'); simpl in *; lia.
Qed.
End Entries.

(** The sample archive delivered in one chunk and delivered byte by byte. *)
Lemma zipEntries_chunking_byte_by_byte :
  concat [Archive.sample] = concat (map (fun b => [b]) Archive.sample)
  /\ zipEntries (fun _ => None) [Archive.sample]
     = zipEntries (fun _ => None) (map (fun b => [b]) Archive.sample).
Proof.
  assert (concat [Archive.sample] = concat (map (fun b => [b]) Archive.sample))
    as Hsame by (vm_compute; reflexivity).
  split; [exact Hsame|].
  exact (zipEntries_chunking (fun _ => None) _ _ Hsame).
Defined.

(** ** Filtering *)

Lemma pipeThrough_filterStream_any {T} (keep : T -> bool) (readable : ReadableStream T) :
  pipeThrough readable (filterStream keep)
  = match readable with
    | Closed chunks => Closed (List.filter keep chunks)
    | Errored chunks e => Errored (List.filter keep chunks) e
    | Unfinished chunks => Unfinished (List.filter keep chunks)
    end.
Proof.
  unfold pipeThrough. change (start (filterStream keep)) with tt.
  rewrite feed_filterStream.
  destruct readable; simpl; [by rewrite app_nil_r | done | done].
Qed.

(** Every entry carries the signature of its kind. *)
Lemma readFileEntry_signature inflateRaw (skipSignature : bool)
    (stream stream' : ReadableByteStream) (entry : FileEntry.t) :
  readFileEntry inflateRaw skipSignature stream = Ok (Some entry, stream') ->
  FileEntry.signature entry = SIGNATURE_FILE.
Proof.
  unfold readFileEntry, bind, ret.
  repeat case_match; try done; by intros [= <- _].
Qed.

Lemma readCentralDirectory_signature (skipSignature : bool)
    (stream stream' : ReadableByteStream) (entry : CentralDirectoryEntry.t) :
  readCentralDirectory skipSignature stream = Ok (Some entry, stream') ->
  CentralDirectoryEntry.signature entry = SIGNATURE_CENTRAL_DIRECTORY_START.
Proof.
  unfold readCentralDirectory, bind, ret.
  repeat case_match; try done; by intros [= <- _].
Qed.

Lemma readNextEntry_signature inflateRaw (stream stream' : ReadableByteStream)
    (entry : ZipEntry) :
  readNextEntry inflateRaw stream = Ok (Some entry, stream') ->
  (signatureOf entry =? SIGNATURE_FILE) = bool_decide (is_Some (asFileEntry entry)).
Proof.
  unfold readNextEntry. unfold bind at 1.
  destruct (readSignature stream) as [[signature stream1]|]; [|done].
  destruct (signature =? SIGNATURE_FILE).
  { unfold bind, ret.
    destruct (readFileEntry inflateRaw true stream1) as [[[file|] stream2]|] eqn:Hfile;
      try done.
    intros [= <- _]. simpl. rewrite (readFileEntry_signature _ _ _ _ _ Hfile).
    reflexivity. }
  destruct (signature =? SIGNATURE_CENTRAL_DIRECTORY_START).
  { unfold bind, ret.
    destruct (readCentralDirectory true stream1) as [[[directory|] stream2]|] eqn:Hdirectory;
      try done.
    intros [= <- _]. simpl.
    rewrite (readCentralDirectory_signature _ _ _ _ Hdirectory).
    reflexivity. }
  destruct (signature =? SIGNATURE_CENTRAL_DIRECTORY_END); [|done].
  unfold bind at 1.
  destruct (readEndCentralDirectory true stream1) as [[[last|] stream2]|] eqn:Hlast;
    try done.
  intros [= <- _]. simpl.
  assert (CentralDirectoryEndEntry.signature last = SIGNATURE_CENTRAL_DIRECTORY_END) as ->.
  { revert Hlast. unfold readEndCentralDirectory, bind, ret.
    repeat case_match; try done; by intros [= <- _]. }
  reflexivity.
Qed.

Lemma pulls_readNextEntry_signature inflateRaw (budget : nat)
    (stream : ReadableByteStream) :
  Forall (fun entry =>
            (signatureOf entry =? SIGNATURE_FILE)
            = bool_decide (is_Some (asFileEntry entry)))
    (chunksOf (pulls (readNextEntry inflateRaw) budget stream)).
Proof.
  revert stream. induction budget as [|budget IH]; intros stream; simpl; [done|].
  destruct (readNextEntry inflateRaw stream) as [[[entry|] stream']|] eqn:Hread;
    try done.
  apply readNextEntry_signature in Hread. specialize (IH stream').
  destruct (pulls (readNextEntry inflateRaw) budget stream'); simpl in *;
    by constructor.
Qed.

Lemma omap_asFileEntry_filter (entries : list ZipEntry) :
  Forall (fun entry =>
            (signatureOf entry =? SIGNATURE_FILE)
            = bool_decide (is_Some (asFileEntry entry)))
    entries ->
  omap asFileEntry
    (List.filter (fun entry => signatureOf entry =? SIGNATURE_FILE) entries)
  = omap asFileEntry entries.
Proof.
  induction 1 as [|entry entries Hentry _ IH]; [done|].
  cbn [List.filter]. rewrite Hentry.
  destruct entry as [file|directory|last]; simpl; [f_equal|..]; exact IH.
Qed.

(** X9: [readEntireZip(stream, predicate)] delivers, in the order of the
    stream, exactly the file entries among the entries of the stream that
    the predicate accepts: central directory entries and the end entry never
    pass, and the sequence ends as the sequence of entries does, errored
    with its error when a record cannot be decoded. *)
Theorem readEntireZip_filters_file_entries
    (inflateRaw : Uint8Array -> option Uint8Array) (stream : ReadableByteStream)
    (selected : FileEntry.t -> bool) :
  readEntireZip inflateRaw stream selected
  = match zipEntries inflateRaw stream with
    | Closed entries => Closed (List.filter selected (omap asFileEntry entries))
    | Errored entries e =>
        Errored (List.filter selected (omap asFileEntry entries)) e
    | Unfinished entries =>
        Unfinished (List.filter selected (omap asFileEntry entries))
    end.
Proof.
  unfold readEntireZip. rewrite pipeThrough_filterStream_any.
  pose proof (pulls_readNextEntry_signature inflateRaw (S (byteLength stream)) stream)
    as Hentries.
  fold (zipEntries inflateRaw stream) in Hentries.
  destruct (zipEntries inflateRaw stream) as [entries|entries e|entries];
    unfold asFileEntries; rewrite pipeThrough_filterStream_any;
    by rewrite omap_asFileEntry_filter.
Qed.

(** ** Partitions of records that lie apart *)

Lemma feed_partitionNearbyEntries_separated (maxGap : Z)
    (zipEntries : list CentralDirectoryEntry.t) (lastFileEndsAt : Z)
    (currentChunk : list CentralDirectoryEntry.t) :
  separated maxGap lastFileEndsAt zipEntries ->
  exists outs lastFileEndsAt' currentChunk',
    feed (partitionNearbyEntries maxGap) (lastFileEndsAt, currentChunk) zipEntries
    = (outs, Ok (lastFileEndsAt', currentChunk'))
    /\ outs ++ [currentChunk']
       = currentChunk :: map (fun zipEntry => [zipEntry]) zipEntries.
Proof.
  revert lastFileEndsAt currentChunk.
  induction zipEntries as [|zipEntry rest IH];
    intros lastFileEndsAt currentChunk Hseparated.
  - by exists [], lastFileEndsAt, currentChunk.
  - destruct Hseparated as [Hgap Hrest].
    destruct (IH (CentralDirectoryEntry.lastByteAt zipEntry) ([] ++ [zipEntry]) Hrest)
      as (outs & last' & current' & Hfeed & Hout).
    simpl feed. rewrite (proj2 (Z.gtb_gt _ _)) by lia.
    rewrite Hfeed. exists (currentChunk :: outs), last', current'.
    split; [done|]. simpl. by rewrite Hout.
Qed.

(** X10: a record starts a partition of its own whenever it passes the gap
    test, that is, starts after [lastFileEndsAt + maxGap].  When every
    record passes it in its turn, the partitions emitted are the empty one
    the partitioner starts with, followed by one partition per record: no
    two records are fetched together.  With the default gap of -10 KiB this
    is the case of all records that start less than 10 KiB before the last
    byte of the record before them, so of the records of an archive laid out
    one after the other. *)
Theorem partitions_of_separated_records (maxGap : Z)
    (zipEntries : list CentralDirectoryEntry.t) :
  separated maxGap 0 zipEntries ->
  pipeThrough (Closed zipEntries) (partitionNearbyEntries maxGap)
  = Closed ([] :: map (fun zipEntry => [zipEntry]) zipEntries).
Proof.
  intros Hseparated. unfold pipeThrough. simpl chunksOf.
  change (start (partitionNearbyEntries maxGap))
    with ((0, []) : Z * list CentralDirectoryEntry.t).
  destruct (feed_partitionNearbyEntries_separated maxGap zipEntries 0 [] Hseparated)
    as (outs & last' & current' & -> & Hout).
  simpl. by rewrite Hout.
Qed.

(** The three directory entries of the sample archive, which lie 45, 34
    and 59 bytes apart, with the default gap. *)
Lemma partitions_of_separated_records_sample :
  let zipEntries :=
    [Archive.directoryEntry Archive.aTxt 0; Archive.directoryEntry Archive.dir 45;
     Archive.directoryEntry Archive.bTxt 79] in
  separated defaultMaxGap 0 zipEntries
  /\ pipeThrough (Closed zipEntries) (partitionNearbyEntries defaultMaxGap)
     = Closed ([] :: map (fun zipEntry => [zipEntry]) zipEntries).
Proof.
  intros zipEntries.
  assert (separated defaultMaxGap 0 zipEntries) as Hseparated
    by (vm_compute; repeat split; reflexivity).
  split; [exact Hseparated|].
  exact (partitions_of_separated_records defaultMaxGap zipEntries Hseparated).
Defined.

(** ** The counter of the requests in progress *)

Section FetcherBookkeeping.
Variable source : BytesSource.t.

Import Fetcher.

(** Replacing request [i] changes the count of unsettled requests by what
    the old and the new request contribute. *)
Lemma unsettled_insert (rs : list request) (i : nat) (old new : request) :
  rs !! i = Some old ->
  (length (filter (fun r => isUnsettled r = true) (<[i := new]> rs))
   + (if isUnsettled old then 1 else 0)
   = length (filter (fun r => isUnsettled r = true) rs)
     + (if isUnsettled new then 1 else 0))%nat.
Proof.
  intros Hold.
  rewrite <- (take_drop_middle rs i old Hold) at 2.
  rewrite insert_take_drop by (by eapply lookup_lt_Some).
  rewrite !list.filter_app, !filter_cons, !length_app.
  destruct (isUnsettled old), (isUnsettled new);
    repeat (case_decide; try done); simpl; lia.
Qed.

Lemma counter_settle (st : Fetcher.t) (i : nat) (r : request)
    (outcome : result ReadableByteStream) :
  requests st !! i = Some r -> isUnsettled r = true ->
  requestsInProgress st = unsettled st ->
  requestsInProgress (settle st i (zipEntries r) outcome)
  = unsettled (settle st i (zipEntries r) outcome).
Proof.
  intros Hr Hopen Hcount.
  pose proof (unsettled_insert (requests st) i r
                {| zipEntries := zipEntries r; progress := Settled |} Hr) as Hinsert.
  rewrite Hopen in Hinsert. simpl in Hinsert.
  unfold unsettled in *. simpl. lia.
Qed.

Lemma counter_step (st st' : Fetcher.t) (ev : event) :
  requestsInProgress st = unsettled st -> step source st ev = Some st' ->
  requestsInProgress st' = unsettled st'.
Proof.
  intros Hcount.
  destruct ev as [partition|i|i|]; simpl.
  - case_decide as Hlen; intros [= <-]; [done|].
    unfold unsettled in *. simpl.
    rewrite list.filter_app, !length_app. simpl. lia.
  - destruct (requests st !! i) as [[partition []]|] eqn:Hr; try done.
    unfold Semaphore.acquire. case_decide as Hfree; [|done].
    destruct (requestedRange partition) as [[from to]|e] eqn:Hrange; intros [= <-].
    + pose proof (unsettled_insert (requests st) i _
                    {| zipEntries := partition; progress := Outstanding from to |} Hr)
        as Hinsert.
      simpl in Hinsert. unfold unsettled in *. simpl. lia.
    + by apply (counter_settle _ i {| zipEntries := partition; progress := Waiting |}).
  - destruct (requests st !! i) as [[partition [|from to|]]|] eqn:Hr; try done.
    intros [= <-].
    by apply (counter_settle st i
                {| zipEntries := partition; progress := Outstanding from to |}).
  - by intros [= <-].
Qed.

Lemma unsettled_none (rs : list request) :
  length (filter (fun r => isUnsettled r = true) rs) = 0%nat
  <-> Forall (fun r => progress r = Settled) rs.
Proof.
  induction rs as [|r rs IH]; [done|].
  rewrite filter_cons, list.Forall_cons, <- IH.
  case_decide as Hopen; simpl.
  - split; [lia|]. intros [Hsettled _].
    unfold isUnsettled in Hopen. by rewrite Hsettled in Hopen.
  - split; [|by intros [_ ?]]. intros Hnone. split; [|done].
    unfold isUnsettled in Hopen. by destruct (progress r).
Qed.

(** X11: in every state the writable side of the fetcher reaches, whatever
    partitions are written and however the acquisitions and the settlements
    interleave, [requestsInProgress] is the number of the requests made that
    have not settled yet, fulfilled or rejected.  So it is 0, as the
    readable side requires before it closes, exactly when every request
    made has settled. *)
Theorem requestsInProgress_counts_unsettled (events : list event) (st : Fetcher.t) :
  run source initial events = Some st ->
  requestsInProgress st = unsettled st
  /\ (requestsInProgress st = 0%nat
      <-> Forall (fun r => progress r = Settled) (requests st)).
Proof.
  assert (forall events st0, requestsInProgress st0 = unsettled st0 ->
            run source st0 events = Some st ->
            requestsInProgress st = unsettled st) as Hrun.
  { clear events. intros events.
    induction events as [|ev events IH]; intros st0 Hcount; simpl.
    - by intros [= <-].
    - destruct (step source st0 ev) as [st1|] eqn:Hstep; [|done].
      apply IH. by eapply counter_step. }
  intros Hevents.
  assert (requestsInProgress st = unsettled st) as Hcount
    by (by apply (Hrun events initial)).
  split; [done|]. rewrite Hcount. apply unsettled_none.
Qed.
End FetcherBookkeeping.

(** Eleven partitions written and ten of the requests called, none settled:
    eleven requests are in progress. *)
Lemma requestsInProgress_counts_unsettled_eleven_writes :
  exists st,
    Fetcher.run (createFetchSource Archive.sample) Fetcher.initial Archive.elevenWrites
    = Some st
    /\ Fetcher.requestsInProgress st = 11%nat
    /\ Fetcher.requestsInProgress st = unsettled st
    /\ (Fetcher.requestsInProgress st = 0%nat
        <-> Forall (fun r => Fetcher.progress r = Fetcher.Settled)
              (Fetcher.requests st)).
Proof.
  eexists. split; [vm_compute; reflexivity|]. split; [reflexivity|].
  apply (requestsInProgress_counts_unsettled (createFetchSource Archive.sample)
           Archive.elevenWrites).
  vm_compute; reflexivity.
Defined.

(** ** Only names that were asked for *)

Lemma chunksOf_enqueue {A} (chunk : A) (readable : ReadableStream A) :
  chunksOf (enqueue chunk readable) = chunk :: chunksOf readable.
Proof. by destruct readable. Qed.

Section Requested.
Variable inflateRaw : Uint8Array -> option Uint8Array.

(** A file is delivered only from a range whose partition holds a record of
    its name. *)
Lemma pullFiles_requested (budget : nat) (byteStreams : list Ticket) :
  Forall (fun file =>
            Exists (fun zipEntries => isOneOfRequestedFiles zipEntries file = true)
              (map fst byteStreams))
    (chunksOf (pullFiles inflateRaw budget byteStreams)).
Proof.
  revert byteStreams.
  induction budget as [|budget IH]; intros byteStreams; simpl; [done|].
  destruct byteStreams as [|[zipEntries stream] rest]; [done|].
  destruct (readFileEntry inflateRaw false stream) as [[[file|] stream']|];
    [| |done].
  - specialize (IH ((zipEntries, stream') :: rest)).
    destruct (isOneOfRequestedFiles zipEntries file) eqn:Hrequested; [|done].
    rewrite chunksOf_enqueue. constructor; [|done].
    by apply Exists_cons_hd.
  - eapply list.Forall_impl; [apply IH|]. intros file Hfile.
    by apply Exists_cons_tl.
Qed.

Lemma fetchPartitionedEntries_requested (arrival : list Ticket -> list Ticket)
    (source : BytesSource.t) (partitions : list (list CentralDirectoryEntry.t)) :
  (forall byteStreams, arrival byteStreams ≡ₚ byteStreams) ->
  Forall (fun file =>
            Exists (fun zipEntries => isOneOfRequestedFiles zipEntries file = true)
              partitions)
    (chunksOf (fetchPartitionedEntries inflateRaw arrival source (Closed partitions))).
Proof.
  intros Harrival. unfold fetchPartitionedEntries.
  set (byteStreams := arrival (omap fulfilled (requestAll source partitions))).
  pose proof (pullFiles_requested (S (pendingWork byteStreams)) byteStreams) as Hfiles.
  assert (forall zipEntries, zipEntries ∈ map fst byteStreams ->
            zipEntries ∈ partitions) as Hwritten.
  { intros zipEntries. unfold byteStreams. rewrite (Harrival _).
    intros ([zipEntries' byteStream] & -> & Hticket)%list_elem_of_fmap.
    apply list_elem_of_omap in Hticket as ([zipEntries'' outcome] & Hrequest & Hfulfilled).
    unfold requestAll in Hrequest.
    apply list_elem_of_fmap in Hrequest as (partition & [= -> ->] & Hpartition).
    apply list_elem_of_filter in Hpartition as [_ Hpartition].
    destruct (requestChunkRange source partition); [|done].
    by injection Hfulfilled as <- _. }
  assert (Forall (fun file =>
                    Exists (fun zipEntries => isOneOfRequestedFiles zipEntries file = true)
                      partitions)
            (chunksOf (pullFiles inflateRaw (S (pendingWork byteStreams)) byteStreams)))
    as Hpartitions.
  { eapply list.Forall_impl; [exact Hfiles|]. intros file.
    rewrite !list.Exists_exists. intros (zipEntries & Hin & Hrequested).
    exists zipEntries. split; [by apply Hwritten | done]. }
  destruct (forallb _ _); [done|].
  by destruct (pullFiles inflateRaw (S (pendingWork byteStreams)) byteStreams).
Qed.

(** X12: over a source that serves every range, every file entry that
    selective decoding delivers carries the name of an entry of the central
    directory that the predicate accepted, whatever bytes the archive holds
    and in whatever order the ranges arrive.  This is about names only: a
    range may hold more than the record asked for, and the entry delivered
    under an accepted name may have been decoded from another record of
    that name, or from a record that the end of the range cut short. *)
Theorem iterateZipFiles2_delivers_selected_names
    (arrival : list Ticket -> list Ticket) (budget : nat) (data : Uint8Array)
    (selected : CentralDirectoryEntry.t -> bool) :
  (forall byteStreams, arrival byteStreams ≡ₚ byteStreams) ->
  Forall (fun file =>
            exists entry,
              entry ∈ chunksOf (centralDirectoryEntries budget (createFetchSource data))
              /\ selected entry = true
              /\ CentralDirectoryEntry.fileName entry = FileEntry.fileName file)
    (chunksOf (iterateZipFiles2 inflateRaw arrival budget (createFetchSource data)
                 selected)).
Proof.
  intros Harrival. unfold iterateZipFiles2. rewrite pipeThrough_filterStream_any.
  destruct (centralDirectoryEntries budget (createFetchSource data))
    as [entries|entries e|entries];
    [ | unfold pipeThrough; simpl chunksOf;
        by destruct (feed _ _ _) as [outs [st|e']].. ].
  destruct (feed_partitionNearbyEntries defaultMaxGap (List.filter selected entries) 0 [])
    as (outs & last' & current' & Hfeed & Hcover & _).
  unfold pipeThrough at 1. simpl chunksOf.
  change (start (partitionNearbyEntries defaultMaxGap))
    with ((0, []) : Z * list CentralDirectoryEntry.t).
  rewrite Hfeed. cbn [flush partitionNearbyEntries].
  eapply list.Forall_impl;
    [exact (fetchPartitionedEntries_requested arrival (createFetchSource data) _
              Harrival)|].
  intros file (zipEntries & Hpartition & Hrequested)%list.Exists_exists.
  apply bool_decide_eq_true, list.Exists_exists in Hrequested
    as (entry & Hentry & Hname).
  assert (entry ∈ List.filter selected entries) as Hselected.
  { simpl in Hcover. rewrite <- Hcover.
    apply elem_of_app in Hpartition as [Hin|Hlast].
    - apply elem_of_app. left. apply list_elem_of_In, in_concat.
      exists zipEntries. by rewrite <- !list_elem_of_In.
    - apply list_elem_of_singleton in Hlast as ->.
      apply elem_of_app. by right. }
  apply list_elem_of_In, filter_In in Hselected as [Hin Hkept].
  exists entry. by rewrite list_elem_of_In.
Qed.
End Requested.

(** The sample archive with the ranges arriving in reverse order. *)
Lemma iterateZipFiles2_delivers_selected_names_sample :
  (forall byteStreams : list Ticket, reverse byteStreams ≡ₚ byteStreams)
  /\ Forall (fun file =>
               exists entry,
                 entry ∈ chunksOf (centralDirectoryEntries 1
                                     (createFetchSource Archive.sample))
                 /\ predicate entry = true
                 /\ CentralDirectoryEntry.fileName entry = FileEntry.fileName file)
       (chunksOf (iterateZipFiles2 (fun _ => None) reverse 1
                    (createFetchSource Archive.sample) predicate)).
Proof.
  assert (forall byteStreams : list Ticket, reverse byteStreams ≡ₚ byteStreams)
    as Harrival by (intros byteStreams; apply reverse_Permutation).
  split; [exact Harrival|].
  exact (iterateZipFiles2_delivers_selected_names (fun _ => None) reverse 1
           Archive.sample predicate Harrival).
Defined.

(** ** The scan for the end signature *)

Lemma scanSignature_returns (view : Uint8Array) (candidates : nat) :
  (candidates + 3 <= length view)%nat \/ candidates = 0%nat ->
  exists found, scanSignature view candidates = Ok found.
Proof.
  induction candidates as [|i IH]; intros Hfit; [by eexists|].
  assert (i + 4 <= length view)%nat as Hin by lia.
  apply getUint32_in_range in Hin as [v Hv]. simpl. rewrite Hv.
  destruct (v =? SIGNATURE_CENTRAL_DIRECTORY_END); [by eexists|].
  apply IH. lia.
Qed.

(** X13: the scan of a chunk, which runs from its end to its start, never
    throws and finds the last place where the chunk holds the four bytes of
    the end signature: nothing is found exactly when the chunk holds them
    nowhere.  So when the signature bytes occur again after the end record,
    in the archive comment, it is the later occurrence that is taken for the
    end record. *)
Theorem scanSignature_finds_last_occurrence (view : Uint8Array) :
  match scanSignature view (length view - 3) with
  | Ok (Some i) =>
      DataView.getUint32 view i = Ok SIGNATURE_CENTRAL_DIRECTORY_END
      /\ forall j, (i < j)%nat ->
           DataView.getUint32 view j <> Ok SIGNATURE_CENTRAL_DIRECTORY_END
  | Ok None =>
      forall j, DataView.getUint32 view j <> Ok SIGNATURE_CENTRAL_DIRECTORY_END
  | Throw _ => False
  end.
Proof.
  assert (forall j, (length view - 3 <= j)%nat ->
            DataView.getUint32 view j <> Ok SIGNATURE_CENTRAL_DIRECTORY_END) as Hbeyond.
  { intros j Hj Hread. assert (j + 4 <= length view)%nat; [|lia].
    apply getUint32_in_range. eauto. }
  destruct (scanSignature_returns view (length view - 3)) as [found Hscan]; [lia|].
  rewrite Hscan. destruct found as [i|].
  - apply scanSignature_Some_inv in Hscan as (_ & Hsignature & Hlater).
    split; [done|]. intros j Hj.
    destruct (decide (j < length view - 3)%nat); [apply Hlater | apply Hbeyond]; lia.
  - intros j.
    destruct (decide (j < length view - 3)%nat) as [Hin|Hout]; [|apply Hbeyond; lia].
    revert j Hin. apply scanSignature_None; [lia | done].
Qed.

(** ** An end record cut short *)

(** The first turn of the loop over an archive whose last signature lies in
    the last scan chunk. *)
Lemma streamCentralDirectory_last_chunk (data : Uint8Array) (p budget : nat) :
  let chunkStart :=
    Z.max 0 (Z.of_nat (length data) - CENTRAL_DIRECTORY_END_SCAN_CHUNK_SIZE) in
  let view := drop (Z.to_nat chunkStart) data in
  Z.of_nat (length data) - CENTRAL_DIRECTORY_END_SCAN_CHUNK_SIZE <= Z.of_nat p ->
  scanSignature data (length data - 3) = Ok (Some p) ->
  streamCentralDirectory (S budget) (createFetchSource data)
  = foundSignature (createFetchSource data) chunkStart
      (concatUint8Array [view; []]) view (p - Z.to_nat chunkStart).
Proof.
  intros chunkStart view Hchunk (Hcandidate & Hsig & Hlater)%scanSignature_Some_inv.
  assert (forall j, (p < j)%nat ->
            DataView.getUint32 data j <> Ok SIGNATURE_CENTRAL_DIRECTORY_END) as Hlast.
  { intros j Hj.
    destruct (decide (j < length data - 3)%nat) as [Hin|Hout]; [apply Hlater; lia|].
    intros Hread. assert (j + 4 <= length data)%nat; [|lia].
    apply getUint32_in_range. eauto. }
  assert (0 <= chunkStart) as Hzero by (unfold chunkStart; lia).
  assert (Z.to_nat chunkStart <= p)%nat as Hstart
    by (unfold chunkStart, CENTRAL_DIRECTORY_END_SCAN_CHUNK_SIZE in *; lia).
  assert (length view = length data - Z.to_nat chunkStart)%nat as Hview
    by (unfold view; apply length_drop).
  unfold streamCentralDirectory. simpl BytesSource.length.
  apply (streamCentralDirectory_loop_found (createFetchSource data) budget
           (Z.of_nat (length data)) [] view).
  - simpl BytesSource.length. fold chunkStart.
    rewrite fetchBytes_createFetchSource.
    replace (Z.min (chunkStart + CENTRAL_DIRECTORY_END_SCAN_CHUNK_SIZE - 1)
               (Z.of_nat (length data) - 1))
      with (Z.of_nat (length data) - 1)
      by (unfold chunkStart, CENTRAL_DIRECTORY_END_SCAN_CHUNK_SIZE in *; lia).
    by rewrite byteRange_to_end by lia.
  - apply scanSignature_Some; [lia | lia | |].
    + unfold view. rewrite getUint32_drop.
      by replace (Z.to_nat chunkStart + (p - Z.to_nat chunkStart))%nat with p by lia.
    + intros j Hj. unfold view. rewrite getUint32_drop. apply Hlast. lia.
Qed.

(** X14: when the last end signature of the archive lies in the last scan
    chunk and fewer than 20 bytes of the archive are left from it on -- the
    end record is cut short before the end of its directory offset -- the
    locator throws [Central directory not found]. *)
Theorem truncated_end_record_not_found (data : Uint8Array) (p budget : nat) :
  Z.of_nat (length data) - CENTRAL_DIRECTORY_END_SCAN_CHUNK_SIZE <= Z.of_nat p ->
  scanSignature data (length data - 3) = Ok (Some p) ->
  (length data < p + 20)%nat ->
  streamCentralDirectory (S budget) (createFetchSource data)
  = Thrown (Error "Central directory not found").
Proof.
  intros Hchunk Hscan Hshort.
  rewrite (streamCentralDirectory_last_chunk data p budget Hchunk Hscan).
  apply scanSignature_Some_inv in Hscan as (Hcandidate & _ & _).
  unfold foundSignature, concatUint8Array. simpl concat. rewrite app_nil_r.
  rewrite decide_True; [done|].
  rewrite length_drop. unfold CENTRAL_DIRECTORY_END_SCAN_CHUNK_SIZE in *. lia.
Qed.

(** An end record of which only the first twelve bytes are there. *)
Lemma truncated_end_record_not_found_twelve_bytes :
  let data := Archive.le32 SIGNATURE_CENTRAL_DIRECTORY_END ++ zeros 8 in
  Z.of_nat (length data) - CENTRAL_DIRECTORY_END_SCAN_CHUNK_SIZE <= Z.of_nat 0
  /\ scanSignature data (length data - 3) = Ok (Some 0%nat)
  /\ (length data < 0 + 20)%nat
  /\ streamCentralDirectory 1 (createFetchSource data)
     = Thrown (Error "Central directory not found").
Proof.
  intros data.
  assert (Z.of_nat (length data) - CENTRAL_DIRECTORY_END_SCAN_CHUNK_SIZE <= Z.of_nat 0)
    as Hchunk by (vm_compute; discriminate).
  assert (scanSignature data (length data - 3) = Ok (Some 0%nat)) as Hscan
    by (vm_compute; reflexivity).
  assert (length data < 0 + 20)%nat as Hshort by (vm_compute; lia).
  split; [exact Hchunk|]. split; [exact Hscan|]. split; [exact Hshort|].
  exact (truncated_end_record_not_found data 0 0 Hchunk Hscan Hshort).
Defined.

(** ** An end record in the last scan chunk *)

(** X15: when the last end signature of the archive, at offset [p], and the
    16 bytes after it lie in the last scan chunk, the locator needs one turn
    of its loop and returns the bytes of the archive from the directory
    offset read at [p + 16] on -- fetching the bytes before the chunk when
    the directory starts before it, and dropping the bytes of the chunk
    before the directory when it starts inside -- and the stream of
    directory entries is decoded from these bytes. *)
Theorem end_record_in_last_chunk_located (data : Uint8Array) (p : nat)
    (dirStart : Z) (budget : nat) :
  Z.of_nat (length data) - CENTRAL_DIRECTORY_END_SCAN_CHUNK_SIZE <= Z.of_nat p ->
  (p + 20 <= length data)%nat ->
  scanSignature data (length data - 3) = Ok (Some p) ->
  DataView.getUint32 data (p + 16) = Ok dirStart ->
  0 <= dirStart ->
  streamCentralDirectory (S budget) (createFetchSource data)
  = Returned (blobStream (drop (Z.to_nat dirStart) data))
  /\ centralDirectoryEntries (S budget) (createFetchSource data)
     = pulls (readCentralDirectory false) (S (length data - Z.to_nat dirStart))
         (blobStream (drop (Z.to_nat dirStart) data)).
Proof.
  intros Hchunk Hfit Hscan Hdir Hpos.
  pose proof (last_chunk_end_record_located data p dirStart budget
                Hchunk Hfit Hscan Hdir Hpos) as Hlocated.
  split; [exact Hlocated|].
  unfold centralDirectoryEntries. rewrite Hlocated.
  unfold blobStream, byteLength. simpl concat.
  by rewrite app_nil_r, length_drop.
Qed.

(** The sample archive: the end record is its last 22 bytes, at offset 294,
    and the central directory starts at offset 138. *)
Lemma end_record_in_last_chunk_located_sample :
  Z.of_nat (length Archive.sample) - CENTRAL_DIRECTORY_END_SCAN_CHUNK_SIZE
  <= Z.of_nat 294
  /\ scanSignature Archive.sample (length Archive.sample - 3) = Ok (Some 294%nat)
  /\ DataView.getUint32 Archive.sample (294 + 16) = Ok 138
  /\ streamCentralDirectory 1 (createFetchSource Archive.sample)
     = Returned (blobStream (drop (Z.to_nat 138) Archive.sample))
  /\ centralDirectoryEntries 1 (createFetchSource Archive.sample)
     = pulls (readCentralDirectory false)
         (S (length Archive.sample - Z.to_nat 138))
         (blobStream (drop (Z.to_nat 138) Archive.sample)).
Proof.
  assert (Z.of_nat (length Archive.sample) - CENTRAL_DIRECTORY_END_SCAN_CHUNK_SIZE
          <= Z.of_nat 294) as Hchunk by (vm_compute; discriminate).
  assert (scanSignature Archive.sample (length Archive.sample - 3)
          = Ok (Some 294%nat)) as Hscan by (vm_compute; reflexivity).
  assert (DataView.getUint32 Archive.sample (294 + 16) = Ok 138) as Hdir
    by (vm_compute; reflexivity).
  split; [exact Hchunk|]. split; [exact Hscan|]. split; [exact Hdir|].
  apply (end_record_in_last_chunk_located Archive.sample 294 138 0 Hchunk);
    [vm_compute; lia | exact Hscan | exact Hdir | lia].
Defined.

(** * Archives of stored files, read back *)

Section ReadBack.
Variable inflateRaw : Uint8Array -> option Uint8Array.

(** X16: an archive written in the ZIP layout -- the local records of
    stored files, their central directory records, the end record with a
    comment -- is read back record by record, however its bytes are cut into
    chunks: the entries are the file entries with the names, checksums and
    contents written, then the directory entries with the offsets of the
    local records, then the end entry with the number of records, the size
    and the offset of the directory and the comment; then the stream is
    closed. *)
Theorem zipEntries_reads_back (files : list Archive.stored) (comment : Uint8Array)
    (stream : ReadableByteStream) :
  Archive.fits files -> Archive.size comment < 2 ^ 16 ->
  concat stream = Archive.build files comment ->
  zipEntries inflateRaw stream
  = Closed
      (map (fun f => File (Archive.fileEntry f)) files
       ++ map (fun '(f, offset) => CentralDirectory (Archive.directoryEntry f offset))
            (Archive.placed files 0)
       ++ [CentralDirectoryEnd
             (Archive.endEntry (Z.of_nat (length files))
                (Archive.size (Archive.centralDirectory files))
                (Archive.size (Archive.localFileRecords files)) comment)]).
Proof.
  intros Hfits Hcomment Hstream.
  exact (zipEntries_build inflateRaw files comment stream Hfits Hcomment Hstream).
Qed.
End ReadBack.

Lemma zipEntries_reads_back_sample :
  Archive.fits [Archive.aTxt; Archive.dir; Archive.bTxt]
  /\ concat [Archive.sample] = Archive.build [Archive.aTxt; Archive.dir; Archive.bTxt] []
  /\ zipEntries (fun _ => None) [Archive.sample]
     = Closed
         [File (Archive.fileEntry Archive.aTxt); File (Archive.fileEntry Archive.dir);
          File (Archive.fileEntry Archive.bTxt);
          CentralDirectory (Archive.directoryEntry Archive.aTxt 0);
          CentralDirectory (Archive.directoryEntry Archive.dir 45);
          CentralDirectory (Archive.directoryEntry Archive.bTxt 79);
          CentralDirectoryEnd (Archive.endEntry 3 156 138 [])].
Proof.
  assert (concat [Archive.sample]
          = Archive.build [Archive.aTxt; Archive.dir; Archive.bTxt] []) as Hstream
    by apply app_nil_r.
  split; [apply sample_fits|]. split; [exact Hstream|].
  exact (zipEntries_reads_back (fun _ => None)
           [Archive.aTxt; Archive.dir; Archive.bTxt] [] [Archive.sample]
           sample_fits eq_refl Hstream).
Defined.

(** The end record of an archive has 22 bytes and its comment. *)
Lemma scanSignature_endRecord (records centralDirectorySize
    centralDirectoryOffset : Z) (comment : Uint8Array)
    (found : result (option nat)) :
  scanSignature
    (Archive.endOfCentralDirectory records centralDirectorySize
       centralDirectoryOffset comment)
    (22 + length comment - 3)
  = found ->
  scanSignature
    (Archive.endOfCentralDirectory records centralDirectorySize
       centralDirectoryOffset comment)
    (length (Archive.endOfCentralDirectory records centralDirectorySize
               centralDirectoryOffset comment) - 3)
  = found.
Proof.
  pose proof (endOfCentralDirectory_length records centralDirectorySize
                centralDirectoryOffset comment) as Hlength.
  unfold Archive.size in Hlength.
  assert (length (Archive.endOfCentralDirectory records centralDirectorySize
                    centralDirectoryOffset comment)
          = 22 + length comment)%nat as -> by lia.
  done.
Qed.

(** X17: the central directory of such an archive is read back through the
    source: when the end record with its comment fits into a scan chunk and
    holds the end signature at its start only, the stream of directory
    entries delivers one entry per file, in the order of the archive, each
    with the offset of the local record of its file, and is closed at the
    end record. *)
Theorem centralDirectoryEntries_reads_back (files : list Archive.stored)
    (comment : Uint8Array) (budget : nat) :
  Archive.fits files ->
  22 + Archive.size comment <= CENTRAL_DIRECTORY_END_SCAN_CHUNK_SIZE ->
  scanSignature
    (Archive.endOfCentralDirectory (Z.of_nat (length files))
       (Archive.size (Archive.centralDirectory files))
       (Archive.size (Archive.localFileRecords files)) comment)
    (22 + length comment - 3)
  = Ok (Some 0%nat) ->
  centralDirectoryEntries (S budget) (createFetchSource (Archive.build files comment))
  = Closed (map (fun '(f, offset) => Archive.directoryEntry f offset)
              (Archive.placed files 0)).
Proof.
  intros Hfits Hcomment Hscan.
  apply centralDirectoryEntries_build; [done | done |].
  by apply scanSignature_endRecord.
Qed.

Lemma centralDirectoryEntries_reads_back_sample :
  Archive.fits [Archive.aTxt; Archive.dir; Archive.bTxt]
  /\ scanSignature (Archive.endOfCentralDirectory 3 156 138 []) (22 + 0 - 3)
     = Ok (Some 0%nat)
  /\ centralDirectoryEntries 1 (createFetchSource Archive.sample)
     = Closed [Archive.directoryEntry Archive.aTxt 0;
               Archive.directoryEntry Archive.dir 45;
               Archive.directoryEntry Archive.bTxt 79].
Proof.
  split; [apply sample_fits|]. split; [vm_compute; reflexivity|].
  apply (centralDirectoryEntries_reads_back
           [Archive.aTxt; Archive.dir; Archive.bTxt] [] 0 sample_fits);
    [vm_compute; discriminate | vm_compute; reflexivity].
Defined.

(** ** The range requested for a record *)

Lemma length_concat_elem {A} (x : list A) (l : list (list A)) :
  x ∈ l -> (length x <= length (concat l))%nat.
Proof.
  induction 1 as [x l|x y l _ IH]; simpl; rewrite length_app; lia.
Qed.

Lemma centralDirectoryRecord_length (f : Archive.stored) (offset : Z) :
  Archive.size (Archive.centralDirectoryRecord f offset)
  = 46 + Archive.size (ascii (Archive.name f))
    + Archive.size (ascii (Archive.fileComment f)).
Proof.
  unfold Archive.size, Archive.centralDirectoryRecord, Archive.centralHeader.
  rewrite !length_app. simpl. lia.
Qed.

(** The local record of a file lies at its offset, between the records
    before it and those after it. *)
Lemma placed_split (files : list Archive.stored) (offset : Z) :
  Forall (fun '(f, at_) =>
            exists before after,
              Archive.localFileRecords files
              = before ++ Archive.localFileRecord f ++ after
              /\ Archive.size before = at_ - offset)
    (Archive.placed files offset).
Proof.
  revert offset.
  induction files as [|f files IH]; intros offset; [by constructor|].
  cbn [Archive.placed].
  unfold Archive.localFileRecords in *. rewrite map_cons, concat_cons.
  constructor.
  - exists [], (concat (map Archive.localFileRecord files)). split; [done|].
    unfold Archive.size. simpl. lia.
  - eapply list.Forall_impl;
      [apply (IH (offset + Archive.size (Archive.localFileRecord f)))|].
    intros [g at_] (before & after & Hsplit & Hbefore).
    exists (Archive.localFileRecord f ++ before), after.
    rewrite <- !app_assoc, Hsplit. split; [done|].
    unfold Archive.size in *. rewrite length_app. lia.
Qed.

(** The directory record of a file decodes to its directory entry also when
    the file has a comment. *)
Lemma decodes_readCentralDirectory_comment (f : Archive.stored) (firstByteAt : Z) :
  Forall (fun c => c < 128) (ascii (Archive.name f)) ->
  Forall (fun c => c < 128) (ascii (Archive.fileComment f)) ->
  Archive.size (ascii (Archive.name f)) < 2 ^ 16 ->
  Archive.size (ascii (Archive.fileComment f)) < 2 ^ 16 ->
  Archive.size (Archive.content f) < 2 ^ 32 ->
  0 <= Archive.checksum f < 2 ^ 32 ->
  0 <= firstByteAt < 2 ^ 32 ->
  decodes (readCentralDirectory false) (Archive.centralDirectoryRecord f firstByteAt)
    (Some (Archive.directoryEntry f firstByteAt)) [].
Proof.
  intros Hascii Hplain Hname Hcomment Hcontent Hchecksum Hoffset.
  unfold readCentralDirectory, Archive.centralDirectoryRecord.
  rewrite <- (app_nil_r (ascii (Archive.fileComment f))).
  eapply (decodes_bind _ _ _ (Archive.centralHeader f firstByteAt ++ _));
    [by apply decodes_readSignature|].
  cbn beta. rewrite Z.eqb_refl. cbn [negb].
  eapply decodes_bind; [by apply decodes_readView|]. cbn beta.
  do 16 read_field.
  eapply decodes_bind.
  { eapply decodes_bind; [|apply decodes_nonNull].
    apply decodes_readString. unfold Archive.size. by rewrite Nat2Z.id. }
  cbn beta.
  eapply decodes_bind.
  { eapply decodes_bind; [|apply decodes_nonNull].
    by apply (decodes_readBytes _ []). }
  cbn beta.
  eapply decodes_bind.
  { eapply decodes_bind; [|apply decodes_nonNull].
    apply decodes_readString. unfold Archive.size. by rewrite Nat2Z.id. }
  cbn beta.
  rewrite !decode_ascii by done.
  apply decodes_ret.
Qed.

(** X18: take a file of an archive of stored files, which have no extra
    fields, with an ASCII name and an ASCII comment that fit their length
    fields.  The directory entry decoded from its directory record has a
    [lastByteAt] that lies [2 + fileCommentLength] bytes after the last byte
    of the local record of the file: [FILE_HEADER_SIZE] is 32 where the
    header of a local record has 30 bytes, and the length of the file
    comment is added although the comment is not part of the local record.
    So the range requested for the partition of that one record holds the
    whole local record followed by the next [2 + fileCommentLength] bytes of
    the archive: two bytes more for a file without comment. *)
Theorem requested_range_holds_record (files : list Archive.stored)
    (comment : Uint8Array) (f : Archive.stored) (offset : Z) :
  (f, offset) ∈ Archive.placed files 0 ->
  Forall (fun c => c < 128) (ascii (Archive.name f)) ->
  Forall (fun c => c < 128) (ascii (Archive.fileComment f)) ->
  Archive.size (ascii (Archive.name f)) < 2 ^ 16 ->
  Archive.size (ascii (Archive.fileComment f)) < 2 ^ 16 ->
  Archive.size (Archive.content f) < 2 ^ 32 ->
  0 <= Archive.checksum f < 2 ^ 32 ->
  offset < 2 ^ 32 ->
  decodes (readCentralDirectory false) (Archive.centralDirectoryRecord f offset)
    (Some (Archive.directoryEntry f offset)) []
  /\ CentralDirectoryEntry.lastByteAt (Archive.directoryEntry f offset)
     = offset + Archive.size (Archive.localFileRecord f) - 1
       + (2 + CentralDirectoryEntry.fileCommentLength (Archive.directoryEntry f offset))
  /\ exists following,
       Archive.size following
       = 2 + CentralDirectoryEntry.fileCommentLength (Archive.directoryEntry f offset)
       /\ requestChunkRange (createFetchSource (Archive.build files comment))
            [Archive.directoryEntry f offset]
          = Ok [Archive.localFileRecord f ++ following].
Proof.
  intros Hplaced Hascii Hplain Hname Hcomment Hcontent Hchecksum Hoffset.
  pose proof (placed_split files 0) as Hsplit.
  rewrite list.Forall_forall in Hsplit.
  destruct (Hsplit _ Hplaced) as (before & after & Hrecords & Hbefore).
  pose proof (localFileRecord_length f) as Hrecord.
  cbn [CentralDirectoryEntry.fileCommentLength Archive.directoryEntry].
  assert (CentralDirectoryEntry.lastByteAt (Archive.directoryEntry f offset)
          = offset + Archive.size (Archive.localFileRecord f) - 1
            + (2 + Archive.size (ascii (Archive.fileComment f)))) as Hlast.
  { rewrite Hrecord.
    cbn [CentralDirectoryEntry.lastByteAt Archive.directoryEntry].
    unfold FILE_HEADER_SIZE. lia. }
  assert (Archive.size (Archive.centralDirectoryRecord f offset)
          <= Archive.size (Archive.centralDirectory files)) as Hdirectory.
  { unfold Archive.size, Archive.centralDirectory.
    apply inj_le, length_concat_elem.
    apply (list_elem_of_fmap_2
             (fun '(f, offset) => Archive.centralDirectoryRecord f offset)
             _ (f, offset) Hplaced). }
  rewrite centralDirectoryRecord_length in Hdirectory.
  split.
  { apply decodes_readCentralDirectory_comment; try done.
    unfold Archive.size in Hbefore. lia. }
  split; [done|].
  change (requestChunkRange (createFetchSource (Archive.build files comment))
            [Archive.directoryEntry f offset])
    with (Ok [byteRange (Archive.build files comment) offset
                (CentralDirectoryEntry.lastByteAt (Archive.directoryEntry f offset))]
          : result ReadableByteStream).
  rewrite Hlast. unfold Archive.build, byteRange.
  set (ending := Archive.endOfCentralDirectory _ _ _ _).
  rewrite Hrecords, <- !app_assoc.
  set (tail := after ++ Archive.centralDirectory files ++ ending).
  set (extent := Z.to_nat (2 + Archive.size (ascii (Archive.fileComment f)))).
  exists (take extent tail). unfold Archive.size in *. split.
  - rewrite length_take. unfold tail. rewrite !length_app.
    unfold extent. lia.
  - rewrite drop_app_length' by lia.
    replace (Z.to_nat _)
      with (length (Archive.localFileRecord f) + extent)%nat
      by (unfold extent; lia).
    by rewrite take_app_add.
Qed.

(** An archive whose first file has a comment of three bytes: the range
    requested for it ends five bytes into the local record of the next
    file. *)
Lemma requested_range_holds_record_sample :
  let commented :=
    {| Archive.name := "c.txt"; Archive.content := [7; 8];
       Archive.checksum := 0; Archive.fileComment := "abc" |} in
  let files := [commented; Archive.aTxt] in
  Archive.placed files 0 = [(commented, 0); (Archive.aTxt, 37)]
  /\ requestedRange [Archive.directoryEntry commented 0] = Ok (0, 41)
  /\ requestChunkRange (createFetchSource (Archive.build files []))
       [Archive.directoryEntry commented 0]
     = Ok [Archive.localFileRecord commented
           ++ take 5 (Archive.localFileRecord Archive.aTxt)]
  /\ decodes (readCentralDirectory false) (Archive.centralDirectoryRecord commented 0)
       (Some (Archive.directoryEntry commented 0)) []
  /\ CentralDirectoryEntry.lastByteAt (Archive.directoryEntry commented 0)
     = 0 + Archive.size (Archive.localFileRecord commented) - 1
       + (2 + CentralDirectoryEntry.fileCommentLength
                (Archive.directoryEntry commented 0))
  /\ exists following,
       Archive.size following
       = 2 + CentralDirectoryEntry.fileCommentLength
               (Archive.directoryEntry commented 0)
       /\ requestChunkRange (createFetchSource (Archive.build files []))
            [Archive.directoryEntry commented 0]
          = Ok [Archive.localFileRecord commented ++ following].
Proof.
  intros commented files.
  split; [reflexivity|]. split; [reflexivity|]. split; [vm_compute; reflexivity|].
  apply (requested_range_holds_record files [] commented 0).
  - apply list_elem_of_here.
  - apply (bool_decide_unpack _). vm_compute. exact I.
  - apply (bool_decide_unpack _). vm_compute. exact I.
  - vm_compute. reflexivity.
  - vm_compute. reflexivity.
  - vm_compute. reflexivity.
  - vm_compute. split; [discriminate | reflexivity].
  - vm_compute. reflexivity.
Defined.

(** ** Selective decoding of an archive of stored files *)

Section Selected.
Variable inflateRaw : Uint8Array -> option Uint8Array.

(** X19: take an archive of stored files that have ASCII names, no file
    comment and no extra field, with counts and sizes that fit the fields of
    the end record ([Archive.fits]); let the end record with its comment fit
    the chunk scanned for it and hold the end signature only at its start;
    let the source serve every range asked of it, and let the ranges arrive
    in any order, each once.  Then selective decoding delivers exactly the
    files whose directory entry the predicate accepts, each once and with
    the content written, and then closes.  One range is requested per file
    (the records lie apart for the partitioner), and the files come in the
    order in which their ranges arrive, which need not be the order of the
    archive.  The condition on file comments is needed: the range requested
    for a file with a comment reaches into the next record. *)
Theorem iterateZipFiles2_reads_back (files : list Archive.stored)
    (comment : Uint8Array) (arrival : list Ticket -> list Ticket) (budget : nat)
    (selected : CentralDirectoryEntry.t -> bool) :
  let records :=
    List.filter
      (fun record => selected (Archive.directoryEntry record.1 record.2))
      (Archive.placed files 0) in
  Archive.fits files ->
  22 + Archive.size comment <= CENTRAL_DIRECTORY_END_SCAN_CHUNK_SIZE ->
  scanSignature
    (Archive.endOfCentralDirectory (Z.of_nat (length files))
       (Archive.size (Archive.centralDirectory files))
       (Archive.size (Archive.localFileRecords files)) comment)
    (22 + length comment - 3)
  = Ok (Some 0%nat) ->
  (forall byteStreams, arrival byteStreams ≡ₚ byteStreams) ->
  exists arrived,
    arrival (map Archive.fetched records) = map Archive.fetched arrived
    /\ arrived ≡ₚ records
    /\ iterateZipFiles2 inflateRaw arrival (S budget)
         (createFetchSource (Archive.build files comment)) selected
       = Closed (map (fun record => Archive.fileEntry record.1) arrived).
Proof.
  intros records Hfits Hcomment Hscan Harrival.
  pose proof Hfits as [Hfiles _ _ _].
  assert (Forall (fun '(f, _) => Archive.wellFormed f) records) as Hrecords.
  { apply Forall_filter_bool.
    eapply list.Forall_impl; [by apply placed_fits|]. by intros [f offset] [Hf _]. }
  destruct (Permutation_map_inv Archive.fetched records
              (Harrival (map Archive.fetched records)))
    as (arrived & Harrived & Hpermutation).
  exists arrived. split; [done|]. split; [done|].
  unfold iterateZipFiles2.
  rewrite centralDirectoryEntries_build
    by (done || by apply scanSignature_endRecord).
  rewrite pipeThrough_filterStream, filter_map_swap.
  rewrite (List.filter_ext _
             (fun record => selected (Archive.directoryEntry record.1 record.2)))
    by (by intros [f offset]).
  fold records.
  rewrite pipeThrough_partitionNearbyEntries_ordered;
    [ | done | apply ordered_filter, ordered_placed ].
  unfold fetchPartitionedEntries.
  rewrite requestAll_build by (by apply Forall_filter_bool, build_byteRange).
  rewrite omap_fulfilled, forallb_fulfilled, Harrived.
  rewrite pullFiles_fetched.
  - f_equal. apply map_ext. by intros [f offset].
  - by rewrite <- Hpermutation.
  - pose proof (pendingWork_fetched arrived). lia.
Qed.
End Selected.

(** The sample archive with the default predicate and the ranges arriving
    in reverse order: [dir/b.txt] is delivered before [a.txt], and the empty
    directory [dir/] is not requested. *)
Lemma iterateZipFiles2_reads_back_sample :
  let records :=
    List.filter
      (fun record => predicate (Archive.directoryEntry record.1 record.2))
      (Archive.placed [Archive.aTxt; Archive.dir; Archive.bTxt] 0) in
  Archive.fits [Archive.aTxt; Archive.dir; Archive.bTxt]
  /\ scanSignature (Archive.endOfCentralDirectory 3 156 138 []) (22 + 0 - 3)
     = Ok (Some 0%nat)
  /\ (forall byteStreams : list Ticket, reverse byteStreams ≡ₚ byteStreams)
  /\ map fst records = [Archive.aTxt; Archive.bTxt]
  /\ fileNames (iterateZipFiles2 (fun _ => None) reverse 1
                  (createFetchSource Archive.sample) predicate)
     = Closed [ascii "dir/b.txt"; ascii "a.txt"]
  /\ exists arrived,
       reverse (map Archive.fetched records) = map Archive.fetched arrived
       /\ arrived ≡ₚ records
       /\ iterateZipFiles2 (fun _ => None) reverse 1
            (createFetchSource Archive.sample) predicate
          = Closed (map (fun record => Archive.fileEntry record.1) arrived).
Proof.
  intros records.
  assert (forall byteStreams : list Ticket, reverse byteStreams ≡ₚ byteStreams)
    as Harrival by (intros byteStreams; apply reverse_Permutation).
  split; [apply sample_fits|]. split; [vm_compute; reflexivity|].
  split; [exact Harrival|]. split; [vm_compute; reflexivity|].
  split; [vm_compute; reflexivity|].
  apply (iterateZipFiles2_reads_back (fun _ => None)
           [Archive.aTxt; Archive.dir; Archive.bTxt] [] reverse 0 predicate
           sample_fits);
    [vm_compute; discriminate | vm_compute; reflexivity | exact Harrival].
Defined.

(** * What the decoders can throw *)

(** ** The body of a file entry *)

Lemma readBody_result inflateRaw (compressedSize compressionMethod : Z)
    (stream : ReadableByteStream) :
  readBody inflateRaw compressedSize compressionMethod stream
  = if compressionMethod =? 8 then
      match inflateRaw (take (Z.to_nat compressedSize) (concat stream)) with
      | Some inflated => Ok (inflated, (limitBytes stream (Z.to_nat compressedSize)).2)
      | None => Throw TypeError
      end
    else Ok (take (Z.to_nat compressedSize) (concat stream),
             (limitBytes stream (Z.to_nat compressedSize)).2).
Proof.
  unfold readBody.
  pose proof (limitBytes_concat stream (Z.to_nat compressedSize)) as [Hlimited _].
  destruct (limitBytes stream (Z.to_nat compressedSize)) as [limited rest].
  cbn [fst snd] in *.
  assert (forall chunks : list Uint8Array,
            readValue (pipeThrough (Closed chunks) concatBytesStream)
            = Ok (Some (concat chunks))) as Hcollect.
  { intros chunks. unfold pipeThrough. simpl chunksOf.
    change (start concatBytesStream) with ([] : list Uint8Array).
    by rewrite feed_concatBytesStream. }
  destruct (compressionMethod =? 8).
  - unfold DecompressionStream. rewrite Hlimited.
    destruct (inflateRaw _) as [inflated|]; [|done].
    rewrite Hcollect. simpl. by rewrite app_nil_r.
  - by rewrite Hcollect, Hlimited.
Qed.

(** X20: the body of a file entry is the next [compressedSize] bytes of the
    stream, which are taken off the stream whatever the compression method.
    They are inflated when the method is 8, and the read throws when they
    are no complete deflate stream; with every other method -- 0 for stored
    files, and just as well any method the decoder does not know -- the
    bytes are delivered as they are, and nothing is thrown. *)
Theorem readBody_inflates_method_8_only inflateRaw (compressedSize compressionMethod : Z)
    (stream : ReadableByteStream) :
  let body := take (Z.to_nat compressedSize) (concat stream) in
  exists rest,
    concat rest = drop (Z.to_nat compressedSize) (concat stream)
    /\ readBody inflateRaw compressedSize compressionMethod stream
       = if compressionMethod =? 8 then
           match inflateRaw body with
           | Some inflated => Ok (inflated, rest)
           | None => Throw TypeError
           end
         else Ok (body, rest).
Proof.
  intros body. exists (limitBytes stream (Z.to_nat compressedSize)).2.
  split; [apply readBytes_rest | apply readBody_result].
Qed.

(** ** Errors of the decoders *)

Lemma returns_ret {A} (Q : A -> Prop) (E : JSError -> Prop) (a : A) :
  Q a -> returns Q E (ret a).
Proof. by intros Ha stream. Qed.

Lemma returns_bind {A B} (P : A -> Prop) (Q : B -> Prop) (E : JSError -> Prop)
    (m : Reader A) (k : A -> Reader B) :
  returns P E m -> (forall a, P a -> returns Q E (k a)) -> returns Q E (bind m k).
Proof.
  intros Hm Hk stream. unfold bind. specialize (Hm stream).
  destruct (m stream) as [[a stream']|e]; [|done]. by apply Hk.
Qed.

Lemma returns_readBytes (E : JSError -> Prop) (n : nat) :
  returns (fun value => exists bytes, value = Some bytes /\ length bytes = n) E
    (readBytes (Some n)).
Proof.
  intros stream. rewrite readBytes_exact. eexists. split; [done|].
  rewrite length_app, length_take. unfold zeros. rewrite length_replicate. lia.
Qed.

Lemma returns_readView (E : JSError -> Prop) (n : nat) :
  returns (fun data => length data = n) E (readView n).
Proof.
  unfold readView. eapply returns_bind; [apply returns_readBytes|].
  intros value (bytes & -> & Hlength). by apply returns_ret.
Qed.

Lemma returns_getUint16 (E : JSError -> Prop) (data : Uint8Array) (byteOffset : nat) :
  (byteOffset + 2 <= length data)%nat ->
  returns (fun _ => True) E (getUint16 data byteOffset).
Proof.
  intros Hfit stream. unfold getUint16, lift, DataView.getUint16.
  destruct (drop byteOffset data) as [|b0 [|b1 rest]] eqn:Hdrop; [| |done];
    apply (f_equal length) in Hdrop; rewrite length_drop in Hdrop;
    simpl in Hdrop; exfalso; lia.
Qed.

Lemma returns_getUint32 (E : JSError -> Prop) (data : Uint8Array) (byteOffset : nat) :
  (byteOffset + 4 <= length data)%nat ->
  returns (fun _ => True) E (getUint32 data byteOffset).
Proof.
  intros Hfit stream. unfold getUint32, lift.
  apply getUint32_in_range in Hfit as [v ->]. done.
Qed.

Lemma returns_readSignature (E : JSError -> Prop) :
  returns (fun _ => True) E readSignature.
Proof.
  unfold readSignature. eapply returns_bind; [apply returns_readView|].
  intros data Hdata. cbn beta in Hdata. apply returns_getUint32. lia.
Qed.

Lemma returns_readText (E : JSError -> Prop) (n : nat) :
  returns (fun _ => True) E (text <- readString n ;; nonNull text).
Proof.
  intros stream. unfold bind, readString.
  destruct (limitBytes stream n) as [limited rest].
  unfold TextDecoderStream, pipeThrough. simpl. done.
Qed.

Lemma returns_readExtra (E : JSError -> Prop) (n : nat) :
  returns (fun _ => True) E (value <- readBytes (Some n) ;; nonNull value).
Proof.
  eapply returns_bind; [apply returns_readBytes|].
  intros value (bytes & -> & _). by apply returns_ret.
Qed.

Ltac returns_field :=
  eapply returns_bind;
  [ first [ apply returns_getUint16; lia | apply returns_getUint32; lia
          | apply returns_readText | apply returns_readExtra ]
  | intros ? _; cbn beta ].

Section Throws.
Variable inflateRaw : Uint8Array -> option Uint8Array.

(** The one error the decoders can meet: the platform's, for a body that
    does not inflate. *)
Let inflateFailed (e : JSError) : Prop :=
  e = TypeError /\ exists bytes, inflateRaw bytes = None.

Lemma returns_readBody (compressedSize compressionMethod : Z) :
  returns (fun _ => True) inflateFailed
    (readBody inflateRaw compressedSize compressionMethod).
Proof.
  intros stream. rewrite readBody_result.
  destruct (compressionMethod =? 8); [|done].
  destruct (inflateRaw _) eqn:Hinflate; [done|]. split; [done|]. eauto.
Qed.

Lemma returns_readFileEntry (skipSignature : bool) :
  returns (fun _ => True) inflateFailed (readFileEntry inflateRaw skipSignature).
Proof.
  unfold readFileEntry.
  eapply (returns_bind (fun _ => True)).
  { destruct skipSignature; [by apply returns_ret | apply returns_readSignature]. }
  intros signature _. cbn beta.
  destruct (negb (signature =? SIGNATURE_FILE)); [by apply returns_ret|].
  eapply returns_bind; [apply returns_readView|]. intros data Hdata. cbn beta in *.
  do 12 returns_field.
  eapply returns_bind; [apply returns_readBody|]. intros body _.
  by apply returns_ret.
Qed.

Lemma returns_readCentralDirectory (E : JSError -> Prop) (skipSignature : bool) :
  returns (fun _ => True) E (readCentralDirectory skipSignature).
Proof.
  unfold readCentralDirectory.
  eapply (returns_bind (fun _ => True)).
  { destruct skipSignature; [by apply returns_ret | apply returns_readSignature]. }
  intros signature _. cbn beta.
  destruct (negb (signature =? SIGNATURE_CENTRAL_DIRECTORY_START));
    [by apply returns_ret|].
  eapply returns_bind; [apply returns_readView|]. intros data Hdata. cbn beta in *.
  do 19 returns_field.
  by apply returns_ret.
Qed.

Lemma returns_readEndCentralDirectory (E : JSError -> Prop) (skipSignature : bool) :
  returns (fun _ => True) E (readEndCentralDirectory skipSignature).
Proof.
  unfold readEndCentralDirectory.
  eapply (returns_bind (fun _ => True)).
  { destruct skipSignature; [by apply returns_ret | apply returns_readSignature]. }
  intros signature _. cbn beta.
  destruct (negb (signature =? SIGNATURE_CENTRAL_DIRECTORY_END));
    [by apply returns_ret|].
  eapply returns_bind; [apply returns_readView|]. intros data Hdata. cbn beta in *.
  do 8 returns_field.
  by apply returns_ret.
Qed.

Lemma returns_readNextEntry :
  returns (fun _ => True) inflateFailed (readNextEntry inflateRaw).
Proof.
  unfold readNextEntry.
  eapply returns_bind; [apply returns_readSignature|]. intros signature _. cbn beta.
  repeat case_match.
  - eapply returns_bind; [apply returns_readFileEntry|]. intros; by apply returns_ret.
  - eapply returns_bind; [apply returns_readCentralDirectory|].
    intros; by apply returns_ret.
  - eapply returns_bind; [apply returns_readEndCentralDirectory|].
    intros; by apply returns_ret.
  - by apply returns_ret.
Qed.

(** X21: decoding never fails for lack of data or over the contents of a
    header: a record that is cut short is decoded from what is there padded
    with zeros.  The only error the sequence of entries of a stream can end
    with is the platform's TypeError for the body of a file entry of
    compression method 8 that does not inflate; otherwise the sequence is
    closed. *)
Theorem zipEntries_errors_only_on_inflate (stream : ReadableByteStream) :
  match zipEntries inflateRaw stream with
  | Closed _ => True
  | Errored _ e => e = TypeError /\ exists bytes, inflateRaw bytes = None
  | Unfinished _ => False
  end.
Proof.
  pose proof (zipEntries_finished inflateRaw stream) as Hfinished.
  assert (forall budget s,
            match pulls (readNextEntry inflateRaw) budget s with
            | Errored _ e => inflateFailed e
            | _ => True
            end) as Hpulls.
  { induction budget as [|budget IH]; intros s; simpl; [done|].
    pose proof (returns_readNextEntry s) as Hread.
    destruct (readNextEntry inflateRaw s) as [[[entry|] s']|e]; [|done|done].
    specialize (IH s').
    by destruct (pulls (readNextEntry inflateRaw) budget s'). }
  specialize (Hpulls (S (byteLength stream)) stream).
  fold (zipEntries inflateRaw stream) in Hpulls.
  by destruct (zipEntries inflateRaw stream).
Qed.

Lemma pulls_readCentralDirectory_closed (stream : ReadableByteStream) :
  exists entries,
    pulls (readCentralDirectory false) (S (byteLength stream)) stream
    = Closed entries.
Proof.
  assert (finished (pulls (readCentralDirectory false) (S (byteLength stream)) stream))
    as Hfinished.
  { apply pulls_finished; [|lia].
    intros s entry s'. apply readCentralDirectory_advances_strictly. }
  assert (forall budget s,
            match pulls (readCentralDirectory false) budget s with
            | Errored _ _ => False
            | _ => True
            end) as Hpulls.
  { induction budget as [|budget IH]; intros s; simpl; [done|].
    pose proof (returns_readCentralDirectory (fun _ => False) false s) as Hread.
    destruct (readCentralDirectory false s) as [[[entry|] s']|e]; [|done|done].
    specialize (IH s').
    by destruct (pulls (readCentralDirectory false) budget s'). }
  specialize (Hpulls (S (byteLength stream)) stream).
  destruct (pulls _ _ _) as [entries| |]; [by exists entries | done | done].
Qed.

(** After the signature of a central directory record the decoder gives a
    record, never null. *)
Lemma returns_readCentralDirectory_record :
  returns (fun entry => entry <> None) (fun _ => False) (readCentralDirectory true).
Proof.
  unfold readCentralDirectory.
  eapply (returns_bind (fun signature => signature = SIGNATURE_CENTRAL_DIRECTORY_START));
    [by apply returns_ret|].
  intros signature ->. cbn beta.
  change (negb (SIGNATURE_CENTRAL_DIRECTORY_START =? SIGNATURE_CENTRAL_DIRECTORY_START))
    with false. cbv iota.
  eapply returns_bind; [apply returns_readView|]. intros data Hdata. cbn beta in *.
  do 19 returns_field.
  by apply returns_ret.
Qed.

(** The decoder of directory records gives null only for a signature that is
    not the one of a directory record, and has then read the signature and
    nothing else. *)
Lemma readCentralDirectory_null (stream stream' : ReadableByteStream) :
  readCentralDirectory false stream = Ok (None, stream') ->
  exists signature,
    readSignature stream = Ok (signature, stream')
    /\ signature <> SIGNATURE_CENTRAL_DIRECTORY_START.
Proof.
  unfold readCentralDirectory. unfold bind at 1.
  destruct (readSignature stream) as [[signature stream1]|e]; [|done].
  destruct (Z.eqb_spec signature SIGNATURE_CENTRAL_DIRECTORY_START) as [->|Hne];
    cbn [negb].
  - intros Hnull.
    assert (readCentralDirectory true stream1 = Ok (None, stream')) as Hrecord
      by exact Hnull.
    pose proof (returns_readCentralDirectory_record stream1) as Hsome.
    by rewrite Hrecord in Hsome.
  - intros [= <-]. by exists signature.
Qed.

(** A closed stream of directory entries holds the entries of as many
    records read in a row, and what follows them does not open with the
    signature of a directory record. *)
Lemma pulls_readCentralDirectory_entries (budget : nat)
    (stream : ReadableByteStream) (entries : list CentralDirectoryEntry.t) :
  pulls (readCentralDirectory false) budget stream = Closed entries ->
  exists rest signature rest',
    readDirectoryEntries (length entries) stream = Some (entries, rest)
    /\ readSignature rest = Ok (signature, rest')
    /\ signature <> SIGNATURE_CENTRAL_DIRECTORY_START.
Proof.
  revert stream entries.
  induction budget as [|budget IH]; intros stream entries; [done|].
  cbn [pulls].
  destruct (readCentralDirectory false stream) as [[[entry|] stream1]|e] eqn:Hread;
    [| |done].
  - destruct (pulls (readCentralDirectory false) budget stream1)
      as [entries1| |] eqn:Hpulls; [|done|done].
    intros [= <-].
    destruct (IH _ _ Hpulls) as (rest & signature & rest' & Hentries & Hsignature).
    exists rest, signature, rest'. split; [|done].
    cbn [length readDirectoryEntries]. by rewrite Hread, Hentries.
  - intros [= <-].
    destruct (readCentralDirectory_null _ _ Hread) as (signature & Hsignature & Hne).
    by exists stream, signature, stream1.
Qed.

(** X22: the stream of directory entries read from the bytes that the
    locator returned never errors.  It delivers the entries of the
    directory records that the decoder reads one after the other from these
    bytes, and is closed at the first signature read (four bytes,
    zero-filled where the bytes end before) that is not the signature of a
    central directory record, whatever follows it.  The stream of directory
    entries errors only with what the locator throws, and then delivers
    nothing. *)
Theorem centralDirectoryEntries_errors_only_on_locating (budget : nat)
    (source : BytesSource.t) :
  match streamCentralDirectory budget source with
  | Returned centralDirectoryStream =>
      exists entries rest signature rest',
        readDirectoryEntries (length entries) centralDirectoryStream
        = Some (entries, rest)
        /\ readSignature rest = Ok (signature, rest')
        /\ signature <> SIGNATURE_CENTRAL_DIRECTORY_START
        /\ centralDirectoryEntries budget source = Closed entries
  | Thrown e => centralDirectoryEntries budget source = Errored [] e
  | Running => centralDirectoryEntries budget source = Unfinished []
  end.
Proof.
  unfold centralDirectoryEntries.
  destruct (streamCentralDirectory budget source) as [centralDirectoryStream|e|];
    [|done|done].
  destruct (pulls_readCentralDirectory_closed centralDirectoryStream)
    as [entries Hclosed].
  destruct (pulls_readCentralDirectory_entries _ _ _ Hclosed)
    as (rest & signature & rest' & Hentries & Hsignature & Hne).
  by exists entries, rest, signature, rest'.
Qed.

(** ** How selective decoding ends *)

Lemma pullFiles_errors_only_on_inflate (budget : nat) (byteStreams : list Ticket) :
  match pullFiles inflateRaw budget byteStreams with
  | Errored _ e => inflateFailed e
  | _ => True
  end.
Proof.
  revert byteStreams.
  induction budget as [|budget IH]; intros byteStreams; simpl; [done|].
  destruct byteStreams as [|[zipEntries stream] rest]; [done|].
  pose proof (returns_readFileEntry false stream) as Hread.
  destruct (readFileEntry inflateRaw false stream) as [[[file|] stream']|e];
    [| |done].
  - specialize (IH ((zipEntries, stream') :: rest)).
    destruct (isOneOfRequestedFiles zipEntries file); [|done].
    by destruct (pullFiles inflateRaw budget ((zipEntries, stream') :: rest)).
  - apply IH.
Qed.

(** X23: what the locator throws is not passed on to the reader of the
    files: the pipeline is aborted, the abort closes the sequence of files,
    and the reader sees an archive without files, whatever the source and
    the predicate. *)
Theorem iterateZipFiles2_closes_when_locator_throws
    (arrival : list Ticket -> list Ticket) (budget : nat) (source : BytesSource.t)
    (selected : CentralDirectoryEntry.t -> bool) (e : JSError) :
  streamCentralDirectory budget source = Thrown e ->
  centralDirectoryEntries budget source = Errored [] e
  /\ iterateZipFiles2 inflateRaw arrival budget source selected = Closed [].
Proof.
  intros Hthrown.
  assert (centralDirectoryEntries budget source = Errored [] e) as Hentries
    by (unfold centralDirectoryEntries; by rewrite Hthrown).
  split; [done|].
  unfold iterateZipFiles2. rewrite Hentries, pipeThrough_filterStream_any.
  reflexivity.
Qed.

(** X24: over a source that serves every range, selective decoding ends
    once the locator has returned: the sequence of files is closed, or it is
    errored by a body that does not inflate; the reader never waits
    forever. *)
Theorem iterateZipFiles2_ends (arrival : list Ticket -> list Ticket)
    (budget : nat) (data : Uint8Array) (selected : CentralDirectoryEntry.t -> bool)
    (centralDirectoryStream : ReadableByteStream) :
  streamCentralDirectory budget (createFetchSource data)
  = Returned centralDirectoryStream ->
  match iterateZipFiles2 inflateRaw arrival budget (createFetchSource data) selected with
  | Closed _ => True
  | Errored _ e => e = TypeError /\ exists bytes, inflateRaw bytes = None
  | Unfinished _ => False
  end.
Proof.
  intros Hreturned.
  assert (finished (iterateZipFiles2 inflateRaw arrival budget
                      (createFetchSource data) selected)) as Hfinished
    by (apply iterateZipFiles2_finished; by rewrite Hreturned).
  revert Hfinished. unfold iterateZipFiles2, centralDirectoryEntries.
  rewrite Hreturned.
  destruct (pulls_readCentralDirectory_closed centralDirectoryStream) as [entries ->].
  rewrite pipeThrough_filterStream.
  destruct (feed_partitionNearbyEntries defaultMaxGap (List.filter selected entries) 0 [])
    as (outs & last' & current' & Hfeed & _ & _).
  unfold pipeThrough. simpl chunksOf.
  change (start (partitionNearbyEntries defaultMaxGap))
    with ((0, []) : Z * list CentralDirectoryEntry.t).
  rewrite Hfeed. unfold fetchPartitionedEntries.
  set (byteStreams := arrival _).
  pose proof (pullFiles_errors_only_on_inflate (S (pendingWork byteStreams)) byteStreams)
    as Hfiles.
  destruct (forallb _ _);
    by destruct (pullFiles inflateRaw (S (pendingWork byteStreams)) byteStreams).
Qed.
End Throws.

(** The first twelve bytes of an end record: the locator throws, and the
    sequence of files is closed without a file. *)
Lemma iterateZipFiles2_closes_when_locator_throws_twelve_bytes :
  let source :=
    createFetchSource (Archive.le32 SIGNATURE_CENTRAL_DIRECTORY_END ++ zeros 8) in
  streamCentralDirectory 1 source = Thrown (Error "Central directory not found")
  /\ centralDirectoryEntries 1 source
     = Errored [] (Error "Central directory not found")
  /\ iterateZipFiles2 (fun _ => None) id 1 source predicate = Closed [].
Proof.
  intros source.
  assert (streamCentralDirectory 1 source
          = Thrown (Error "Central directory not found")) as Hthrown
    by (vm_compute; reflexivity).
  split; [exact Hthrown|].
  exact (iterateZipFiles2_closes_when_locator_throws (fun _ => None) id 1 source
           predicate _ Hthrown).
Defined.

(** The sample archive: the locator returns, and the files are delivered
    and the sequence closed. *)
Lemma iterateZipFiles2_ends_sample :
  streamCentralDirectory 1 (createFetchSource Archive.sample)
  = Returned (blobStream (drop 138 Archive.sample))
  /\ match iterateZipFiles2 (fun _ => None) id 1 (createFetchSource Archive.sample)
             predicate with
     | Closed _ => True
     | Errored _ e =>
         e = TypeError
         /\ exists bytes : Uint8Array, (fun _ : Uint8Array => @None Uint8Array) bytes = None
     | Unfinished _ => False
     end.
Proof.
  assert (streamCentralDirectory 1 (createFetchSource Archive.sample)
          = Returned (blobStream (drop 138 Archive.sample))) as Hreturned
    by (vm_compute; reflexivity).
  split; [exact Hreturned|].
  pose proof (iterateZipFiles2_ends (fun _ => None) id 1 Archive.sample predicate _
                Hreturned) as Hends.
  exact Hends.
Defined.

(** ** Partitions of records that lie together *)

Lemma feed_partitionNearbyEntries_adjoining (maxGap : Z)
    (zipEntries : list CentralDirectoryEntry.t) (lastFileEndsAt : Z)
    (currentChunk : list CentralDirectoryEntry.t) :
  adjoining maxGap lastFileEndsAt zipEntries ->
  exists lastFileEndsAt',
    feed (partitionNearbyEntries maxGap) (lastFileEndsAt, currentChunk) zipEntries
    = ([], Ok (lastFileEndsAt', currentChunk ++ zipEntries)).
Proof.
  revert lastFileEndsAt currentChunk.
  induction zipEntries as [|zipEntry rest IH];
    intros lastFileEndsAt currentChunk Hadjoining.
  - exists lastFileEndsAt. simpl. by rewrite app_nil_r.
  - destruct Hadjoining as [Hgap Hrest].
    destruct (IH (CentralDirectoryEntry.lastByteAt zipEntry)
                (currentChunk ++ [zipEntry]) Hrest) as (last' & Hfeed).
    simpl feed. rewrite Z.gtb_ltb, (proj2 (Z.ltb_ge _ _)) by lia.
    rewrite Hfeed. exists last'. by rewrite <- app_assoc.
Qed.

(** X26: a record is put into the partition of the record before it
    whenever it fails the gap test, that is, starts at or before
    [lastFileEndsAt + maxGap].  When every record fails it in its turn, all
    records are emitted as one partition when the input closes, and fetched
    with one request.  With the default gap of -10 KiB a record joins the
    one before it only when it starts at least 10 KiB before that record's
    last byte. *)
Theorem partitions_of_adjoining_records (maxGap : Z)
    (zipEntries : list CentralDirectoryEntry.t) :
  adjoining maxGap 0 zipEntries ->
  pipeThrough (Closed zipEntries) (partitionNearbyEntries maxGap)
  = Closed [zipEntries].
Proof.
  intros Hadjoining. unfold pipeThrough. simpl chunksOf.
  change (start (partitionNearbyEntries maxGap))
    with ((0, []) : Z * list CentralDirectoryEntry.t).
  by destruct (feed_partitionNearbyEntries_adjoining maxGap zipEntries 0 [] Hadjoining)
    as (last' & ->).
Qed.

(** The three directory entries of the sample archive with a gap of 1 KiB:
    each starts within 1 KiB of the last byte of the one before it. *)
Lemma partitions_of_adjoining_records_sample :
  let zipEntries :=
    [Archive.directoryEntry Archive.aTxt 0; Archive.directoryEntry Archive.dir 45;
     Archive.directoryEntry Archive.bTxt 79] in
  adjoining 1024 0 zipEntries
  /\ pipeThrough (Closed zipEntries) (partitionNearbyEntries 1024)
     = Closed [zipEntries].
Proof.
  intros zipEntries.
  assert (adjoining 1024 0 zipEntries) as Hadjoining
    by (vm_compute; repeat split; discriminate).
  split; [exact Hadjoining|].
  exact (partitions_of_adjoining_records 1024 zipEntries Hadjoining).
Defined.
